(** * kubectl-graph: the Argo CD relationship engine (pkg/graph/argocd.go)

    A shallow embedding of [ApplicationV1alpha1Graph] and of the properties
    its specification states: the bulk object harvester ([getAllObjects],
    [getChildApplications], [getObjectsForAResource]), the Application and
    ApplicationSet resolvers and the kind dispatcher.

    Go pointers to [unstructured.Unstructured] are addresses into an object
    store; the graph sink and the cluster client are the collaborators of
    the engine. *)

From Stdlib Require Import String.
From stdpp Require Import base strings list gmap sets fin_maps.

Set Warnings "-register-all,-clear-no-such-hyp".
Set Default Proof Using "Type".

(** ** Unstructured resource objects *)

(** The dynamically typed values found under [Unstructured.Object]
    ([interface{}] holding nil, bool, int64, float64 (by its bits), string,
    [[]interface{}] or [map[string]interface{}]). *)
Inductive value : Type :=
| VNil
| VBool (b : bool)
| VInt64 (z : Z)
| VFloat64 (bits : Z)
| VString (s : string)
| VSlice (l : list value)
| VMap (m : list (string * value)).

(** [m[k]] on a [map[string]interface{}]: the nil interface for an absent
    key (and for a nil map). *)
Fixpoint index (m : list (string * value)) (k : string) : value :=
  match m with
  | [] => VNil
  | (k', v) :: m' => if String.eqb k' k then v else index m' k
  end.

(** [v.(map[string]interface{})] and [v.(string)]: the single-result type
    assertions; [None] is the run-time panic. *)
Definition assertMap (v : value) : option (list (string * value)) :=
  match v with VMap m => Some m | _ => None end.

Definition assertString (v : value) : option string :=
  match v with VString s => Some s | _ => None end.

Record OwnerReference : Type := {
  ownerRef_APIVersion : string;
  ownerRef_Kind : string;
  ownerRef_Name : string;
  ownerRef_UID : string
}.

(** An [unstructured.Unstructured]: the raw [Object] map and what the
    accessors of the library return for it. *)
Record Unstructured : Type := {
  Object : list (string * value);
  GetAPIVersion : string;
  GetKind : string;
  GetNamespace : string;
  GetName : string;
  GetUID : string;
  GetLabels : gmap string string;
  GetAnnotations : gmap string string;
  GetOwnerReferences : list OwnerReference
}.

Record GroupVersionKind : Type := {
  gvk_APIVersion : string;
  gvk_Kind : string
}.

Definition GroupVersionKindOf (o : Unstructured) : GroupVersionKind :=
  {| gvk_APIVersion := GetAPIVersion o; gvk_Kind := GetKind o |}.

(** A [*unstructured.Unstructured] is an address in the object store. *)
Abbreviation ptr := nat (only parsing).

(** ** The graph sink *)

(** Modelled from the spec: the node and edge store of [Graph] (graph.go is
    not part of the sources).  A node is a deduplicated identity keyed by
    type, namespace and name; an edge is (parent, label, child) and
    inserting one twice is idempotent. *)
Record Node : Type := {
  node_gvk : GroupVersionKind;
  node_Namespace : string;
  node_Name : string
}.

Record Relationship : Type := {
  rel_From : Node;
  rel_Label : string;
  rel_To : Node
}.

Record Graph : Type := {
  Nodes : list Node;
  Relationships : list Relationship
}.

Global Instance GroupVersionKind_eq_dec : EqDecision GroupVersionKind.
Proof. solve_decision. Defined.
Global Instance Node_eq_dec : EqDecision Node.
Proof. solve_decision. Defined.
Global Instance Relationship_eq_dec : EqDecision Relationship.
Proof. solve_decision. Defined.

Definition nodeOf (gvk : GroupVersionKind) (o : Unstructured) : Node :=
  {| node_gvk := gvk; node_Namespace := GetNamespace o; node_Name := GetName o |}.

Definition addNode (n : Node) (g : Graph) : Graph :=
  if decide (n ∈ Nodes g) then g
  else {| Nodes := Nodes g ++ [n]; Relationships := Relationships g |}.

Definition addRelationship (r : Relationship) (g : Graph) : Graph :=
  if decide (r ∈ Relationships g) then g
  else {| Nodes := Nodes g; Relationships := Relationships g ++ [r] |}.

(** ** Worlds and the result monad *)

Record World : Type := {
  store : list Unstructured;
  graph : Graph
}.

Definition emptyGraph : Graph := {| Nodes := []; Relationships := [] |}.

Definition error : Type := string.

(** What a call of the engine can do: return a value, leave the enclosing
    resolver with [return n, err] ([Raise]; [n] may be nil), panic, or need
    more fuel than it was given ([Diverge], only produced by [resolve]). *)
Inductive res (A : Type) : Type :=
| Ret (a : A) (w : World)
| Raise (n : option Node) (err : error) (w : World)
| Panic
| Diverge.

Arguments Ret {A} a w.
Arguments Raise {A} n err w.
Arguments Panic {A}.
Arguments Diverge {A}.

Definition M (A : Type) : Type := World → res A.

Definition ret {A} (a : A) : M A := λ w, Ret a w.

Definition bind {A B} (m : M A) (k : A → M B) : M B :=
  λ w, match m w with
       | Ret a w' => k a w'
       | Raise n e w' => Raise n e w'
       | Panic => Panic
       | Diverge => Diverge
       end.

Declare Scope engine_scope.
Delimit Scope engine_scope with engine.
Notation "x <- m ; k" := (bind m (λ x, k))
  (at level 20, m at level 100, k at level 200, only parsing) : engine_scope.
Notation "' x <- m ; k" := (bind m (λ x, k))
  (at level 20, x pattern, m at level 100, k at level 200, only parsing) : engine_scope.
Notation "m ;; k" := (bind m (λ _, k))
  (at level 100, k at level 200, only parsing, right associativity) : engine_scope.
Local Open Scope engine_scope.

(** [return n, err] / [return nil, err]. *)
Definition raise {A} (n : option Node) (err : error) : M A := λ w, Raise n err w.

Definition panic {A} : M A := λ _, Panic.

(** Reading through a pointer; a pointer outside the store is a nil
    dereference. *)
Definition deref (p : ptr) : M Unstructured :=
  λ w, match store w !! p with
       | Some o => Ret o w
       | None => Panic
       end.

(** [x, err := call; if err != nil { return n, err }]: the callee's own
    partial node is dropped and [n] is returned with its error. *)
Definition orReturn {A} (n : option Node) (call : M A) : M A :=
  λ w, match call w with
       | Raise _ e w' => Raise n e w'
       | r => r
       end.

(** Modelled from the spec: [Graph.Node], get-or-create of the node of an
    object. *)
Definition graph_Node (p : ptr) : M Node :=
  o <- deref p;
  λ w, let n := nodeOf (GroupVersionKindOf o) o in
       Ret n {| store := store w; graph := addNode n (graph w) |}.

(** Modelled from the spec: [Graph.Relationship], an idempotent insertion of
    a labelled edge. *)
Definition graph_Relationship (from : Node) (label : string) (to : Node) : M unit :=
  λ w, Ret tt {| store := store w;
                 graph := addRelationship
                            {| rel_From := from; rel_Label := label; rel_To := to |}
                            (graph w) |}.

Arguments graph_Relationship _ _ _ _ /.

(** ** The cluster client *)

Record APIResource : Type := {
  api_Name : string;
  api_Kind : string
}.

Record APIResourceList : Type := {
  GroupVersion : string;
  APIResources : list APIResource
}.

(** [schema.GroupVersion]; the underscore keeps the name apart from the
    field of [APIResourceList]. *)
Record GroupVersion_ : Type := {
  gv_Group : string;
  gv_Version : string
}.

Record GroupVersionResource : Type := {
  Group : string;
  Version : string;
  Resource : string
}.

(** [schema.GroupVersionResource.String]. *)
Definition gvr_String (gvr : GroupVersionResource) : string :=
  Group gvr +:+ "/" +:+ Version gvr +:+ ", Resource=" +:+ Resource gvr.

Definition WithResource (gv : GroupVersion_) (resource : string) : GroupVersionResource :=
  {| Group := gv_Group gv; Version := gv_Version gv; Resource := resource |}.

(** What the engine sees of the cluster during one graph build: the answer
    of the discovery client and, for each resource type, the answer of the
    dynamic client's [List]. *)
Record Cluster : Type := {
  ServerPreferredResources : list APIResourceList * option error;
  List : GroupVersionResource → list Unstructured + error
}.

(** The items a list call contributes: nothing when it fails. *)
Definition listed (c : Cluster) (gvr : GroupVersionResource) : list Unstructured :=
  match List c gvr with
  | inl items => items
  | inr _ => []
  end.

Definition applicationsGVR : GroupVersionResource :=
  {| Group := "argoproj.io"; Version := "v1alpha1"; Resource := "applications" |}.

Definition trackingIDAnnotation : string := "argocd.argoproj.io/tracking-id".
Definition instanceLabel : string := "app.kubernetes.io/instance".

(** ** The engine *)

Module ApplicationV1alpha1Graph.
Section Engine.

(** [schema.FromAPIVersionAndKind(gv, kind).GroupVersion()]: the parse of
    a "group/version" string by the apimachinery library. *)
Variable ParseGroupVersion : string → GroupVersion_.

Variable cluster : Cluster.

(** The order in which [range] visits a Go map and in which [Slice]
    lists a set is not specified; both are left open. *)
Variable mapRange : gmap string (list ptr) → list (list ptr).
Variable Slice : gset ptr → list ptr.

(** [Graph.Unstructured], the dispatcher of the whole graph (graph.go),
    through which every child is resolved. *)
Variable graph_Unstructured : ptr → M Node.

(** *** Harvesting *)

(** One list call.  The result slice holds the addresses of fresh copies
    of the items (the loop variable [obj] is per-iteration, as in Go 1.22
    and later, which the set package imported by the file needs),
    registered under the key of the resource type; after a failure the
    key holds the empty slice.  The goroutines of one harvest are run one
    after the other, in the order they are started: they share only the
    result map, written under the lock, and the caller reads it after
    [wg.Wait()]. *)
Definition getObjectsForAResource (gvr : GroupVersionResource)
    (results : gmap string (list ptr)) : M (gmap string (list ptr) * option error) :=
  match List cluster gvr with
  | inr err => ret (<[gvr_String gvr := []]> results, Some err)
  | inl items =>
      λ w, let result := seq (length (store w)) (length items) in
           Ret (<[gvr_String gvr := result]> results, None)
               {| store := store w ++ items; graph := graph w |}
  end.

Definition getChildApplications : M (list ptr * option error) :=
  '(results, err) <- getObjectsForAResource applicationsGVR ∅;
  match err with
  | Some e => ret ([], Some e)
  | None => ret (mjoin (mapRange results), None)
  end.

(** The inner loop of [getAllObjects]: one list call per resource of the
    group, Events skipped, the error of the call dropped. *)
Fixpoint listGroup (apiResource : APIResourceList) (apis : list APIResource)
    (results : gmap string (list ptr)) : M (gmap string (list ptr)) :=
  match apis with
  | [] => ret results
  | api :: apis' =>
      if decide (api_Kind api = "Event") then listGroup apiResource apis' results
      else
        let gv := ParseGroupVersion (GroupVersion apiResource) in
        let gvr := WithResource gv (api_Name api) in
        '(results', _) <- getObjectsForAResource gvr results;
        listGroup apiResource apis' results'
  end.

(** The outer loop of [getAllObjects]. *)
Fixpoint listGroups (apiResources : list APIResourceList) (objs : list ptr)
    : M (list ptr) :=
  match apiResources with
  | [] => ret objs
  | apiResource :: rest =>
      results <- listGroup apiResource (APIResources apiResource) ∅;
      listGroups rest (objs ++ mjoin (mapRange results))
  end.

Definition getAllObjects : M (list ptr * option error) :=
  match ServerPreferredResources cluster with
  | (_, Some err) => ret ([], Some err)
  | (apiResources, None) =>
      objs <- listGroups apiResources [];
      ret (objs, None)
  end.

(** *** The Application resolver *)

(** Signal (2): a tracking-id annotation prefixed with the name and a colon. *)
Definition hasTrackingID (appName : string) (o : Unstructured) : bool :=
  match GetAnnotations o !! trackingIDAnnotation with
  | Some trackingID => String.prefix (appName +:+ ":") trackingID
  | None => false
  end.

(** Signal (3): an instance label equal to the name. *)
Definition hasInstanceLabel (appName : string) (o : Unstructured) : bool :=
  match GetLabels o !! instanceLabel with
  | Some trackingLabel => bool_decide (trackingLabel = appName)
  | None => false
  end.

Definition isProject (projName : string) (o : Unstructured) : bool :=
  bool_decide (GetKind o = "AppProject")
  && bool_decide (GetAPIVersion o = "argoproj.io/v1alpha1")
  && bool_decide (GetName o = projName).

(** The body of [if ... { children.Insert(obj); if len(ns) > 0 { ... } }]. *)
Definition track (obj : ptr) (o : Unstructured)
    (acc : gset ptr * gset string) : gset ptr * gset string :=
  ({[obj]} ∪ acc.1,
   if decide (0 < String.length (GetNamespace o))
   then {[GetNamespace o]} ∪ acc.2 else acc.2).

(** First loop: the project edge and the directly tracked children. *)
Fixpoint trackChildren (n : Node) (app : ptr) (projName : string)
    (objs : list ptr) (acc : gset ptr * gset string)
    : M (gset ptr * gset string) :=
  match objs with
  | [] => ret acc
  | obj :: objs' =>
      o <- deref obj;
      (if isProject projName o then
         childNode <- orReturn (Some n) (graph_Unstructured obj);
         o <- deref obj;
         graph_Relationship n (GetKind o) childNode
       else ret tt);;
      o <- deref obj;
      a <- deref app;
      let acc := if hasTrackingID (GetName a) o then track obj o acc else acc in
      let acc := if hasInstanceLabel (GetName a) o then track obj o acc else acc in
      trackChildren n app projName objs' acc
  end.

(** Second loop: every object of a tracked namespace. *)
Fixpoint closeNamespaces (namespaces : gset string) (objs : list ptr)
    (children : gset ptr) : M (gset ptr) :=
  match objs with
  | [] => ret children
  | obj :: objs' =>
      o <- deref obj;
      closeNamespaces namespaces objs'
        (if decide (GetNamespace o ∈ namespaces) then {[obj]} ∪ children else children)
  end.

(** Third loop: resolve each child and register its edge. *)
Fixpoint addChildren (n : Node) (children : list ptr) : M unit :=
  match children with
  | [] => ret tt
  | child :: children' =>
      childNode <- orReturn (Some n) (graph_Unstructured child);
      c <- deref child;
      graph_Relationship n (GetKind c) childNode;;
      addChildren n children'
  end.

Definition Application (app : ptr) : M Node :=
  n <- graph_Node app;
  a <- deref app;
  match assertMap (index (Object a) "spec") with
  | None => panic
  | Some spec =>
  match assertString (index spec "project") with
  | None => panic
  | Some projName =>
      '(objs, err) <- getAllObjects;
      match err with
      | Some e => raise None e
      | None =>
          '(children, namespaces) <- trackChildren n app projName objs (∅, ∅);
          children <- closeNamespaces namespaces objs children;
          addChildren n (Slice children);;
          ret n
      end
  end
  end.

(** The phases of a run of [Application] on [app] from [w] that returns
    [n] in [w']: the object [a] behind [app], the universe [objs]
    harvested into [w1], the children [direct] and the [namespaces]
    recorded by the first loop, and the [children] after the second. *)
Definition ApplicationRun (app : ptr) (w : World) (n : Node) (w' : World)
    (a : Unstructured) (objs : list ptr) (w1 : World)
    (direct : gset ptr) (namespaces : gset string) (children : gset ptr) : Prop :=
  ∃ projName w0 w2,
    store w !! app = Some a ∧
    graph_Node app w = Ret n w0 ∧
    assertMap (index (Object a) "spec") ≫= (λ spec, assertString (index spec "project"))
      = Some projName ∧
    getAllObjects w0 = Ret (objs, None) w1 ∧
    trackChildren n app projName objs (∅, ∅) w1 = Ret (direct, namespaces) w2 ∧
    closeNamespaces namespaces objs direct w2 = Ret children w2 ∧
    addChildren n (Slice children) w2 = Ret tt w'.

(** *** The ApplicationSet resolver *)

Fixpoint matchOwners (n : Node) (appset obj : ptr)
    (ownerReferences : list OwnerReference) : M unit :=
  match ownerReferences with
  | [] => ret tt
  | ownerRef :: rest =>
      s <- deref appset;
      (if decide (ownerRef_UID ownerRef = GetUID s) then
         childNode <- orReturn None (graph_Unstructured obj);
         o <- deref obj;
         graph_Relationship n (GetKind o) childNode
       else ret tt);;
      matchOwners n appset obj rest
  end.

Fixpoint ownedApplications (n : Node) (appset : ptr) (objs : list ptr) : M unit :=
  match objs with
  | [] => ret tt
  | obj :: objs' =>
      o <- deref obj;
      matchOwners n appset obj (GetOwnerReferences o);;
      ownedApplications n appset objs'
  end.

Definition ApplicationSet (appset : ptr) : M Node :=
  '(objs, err) <- getChildApplications;
  match err with
  | Some e => raise None e
  | None =>
      n <- graph_Node appset;
      ownedApplications n appset objs;;
      ret n
  end.

(** *** The Project resolver and the dispatcher *)

Definition AppProject (obj : ptr) : M Node := graph_Node obj.

(** [ApplicationV1alpha1Graph.Unstructured]; the underscore keeps the name
    apart from the type of the objects. *)
Definition Unstructured_ (unstr : ptr) : M Node :=
  u <- deref unstr;
  if decide (GetKind u = "ApplicationSet") then ApplicationSet unstr
  else if decide (GetKind u = "Application") then Application unstr
  else if decide (GetKind u = "AppProject") then AppProject unstr
  else graph_Node unstr.

End Engine.
End ApplicationV1alpha1Graph.

Import ApplicationV1alpha1Graph.

(** ** The other revision of the engine *)

(** The sources hold a second revision of the engine
    (src/unnamed/part_000).  Its harvest lists the Events as well and
    drops the result of every list call; its Application resolver
    registers an edge for the project and for each object that shows
    signal (2) or (3) as it meets them, to the node of the object itself,
    without going through the dispatcher of the graph and without the
    closure over the namespaces; it returns its node with the error of a
    failed harvest; and its ApplicationSet resolver registers the node and
    nothing else. *)
Module Part000.
Section Engine.

Variable ParseGroupVersion : string → GroupVersion_.
Variable cluster : Cluster.
Variable mapRange : gmap string (list ptr) → list (list ptr).

Definition getObjectsForAResource (gvr : GroupVersionResource)
    (results : gmap string (list ptr)) : M (gmap string (list ptr)) :=
  match List cluster gvr with
  | inr _ => ret (<[gvr_String gvr := []]> results)
  | inl items =>
      λ w, let result := seq (length (store w)) (length items) in
           Ret (<[gvr_String gvr := result]> results)
               {| store := store w ++ items; graph := graph w |}
  end.

Fixpoint listGroup (apiResource : APIResourceList) (apis : list APIResource)
    (results : gmap string (list ptr)) : M (gmap string (list ptr)) :=
  match apis with
  | [] => ret results
  | api :: apis' =>
      let gv := ParseGroupVersion (GroupVersion apiResource) in
      let gvr := WithResource gv (api_Name api) in
      results' <- getObjectsForAResource gvr results;
      listGroup apiResource apis' results'
  end.

Fixpoint listGroups (apiResources : list APIResourceList) (objs : list ptr)
    : M (list ptr) :=
  match apiResources with
  | [] => ret objs
  | apiResource :: rest =>
      results <- listGroup apiResource (APIResources apiResource) ∅;
      listGroups rest (objs ++ mjoin (mapRange results))
  end.

Definition getAllObjects : M (list ptr * option error) :=
  match ServerPreferredResources cluster with
  | (_, Some err) => ret ([], Some err)
  | (apiResources, None) =>
      objs <- listGroups apiResources [];
      ret (objs, None)
  end.

(** [g.graph.Relationship(n, obj.GetKind(), g.graph.Node(obj.GroupVersionKind(), obj))]. *)
Definition relate (n : Node) (obj : ptr) : M unit :=
  o <- deref obj;
  childNode <- graph_Node obj;
  graph_Relationship n (GetKind o) childNode.

(** The loop of [Application]. *)
Fixpoint addEdges (n : Node) (app : ptr) (projName : string) (objs : list ptr) : M unit :=
  match objs with
  | [] => ret tt
  | obj :: objs' =>
      o <- deref obj;
      (if isProject projName o then relate n obj else ret tt);;
      o <- deref obj;
      a <- deref app;
      (if hasTrackingID (GetName a) o then relate n obj else ret tt);;
      o <- deref obj;
      a <- deref app;
      (if hasInstanceLabel (GetName a) o then relate n obj else ret tt);;
      addEdges n app projName objs'
  end.

Definition Application (app : ptr) : M Node :=
  n <- graph_Node app;
  a <- deref app;
  match assertMap (index (Object a) "spec") with
  | None => panic
  | Some spec =>
  match assertString (index spec "project") with
  | None => panic
  | Some projName =>
      '(objs, err) <- getAllObjects;
      match err with
      | Some e => raise (Some n) e
      | None => addEdges n app projName objs;; ret n
      end
  end
  end.

Definition ApplicationSet (appset : ptr) : M Node := graph_Node appset.

Definition AppProject (obj : ptr) : M Node := graph_Node obj.

Definition Unstructured_ (unstr : ptr) : M Node :=
  u <- deref unstr;
  if decide (GetKind u = "ApplicationSet") then ApplicationSet unstr
  else if decide (GetKind u = "Application") then Application unstr
  else if decide (GetKind u = "AppProject") then AppProject unstr
  else graph_Node unstr.

End Engine.
End Part000.

(** A cluster as the harvest of the other revision has to see it to
    harvest what this revision does: the catalog without its Events. *)
Definition withoutEvents (c : Cluster) : Cluster :=
  {| ServerPreferredResources :=
       ((λ apiResource,
           {| GroupVersion := GroupVersion apiResource;
              APIResources := filter (λ api, api_Kind api ≠ "Event")
                                     (APIResources apiResource) |})
        <$> (ServerPreferredResources c).1,
        (ServerPreferredResources c).2);
     List := List c |}.

(** ** The closed engine *)

Section Resolve.

Variable ParseGroupVersion : string → GroupVersion_.
Variable cluster : Cluster.
Variable mapRange : gmap string (list ptr) → list (list ptr).
Variable Slice : gset ptr → list ptr.

(** Modelled from the spec: [Graph.Unstructured] (graph.go is not part of
    the sources) hands every object to the dispatcher of this engine, the
    single recursion point of the resolution.  The recursion is not
    bounded by the code; [fuel] bounds its depth here and [Diverge]
    reports that the bound was reached. *)
Fixpoint resolve (fuel : nat) (unstr : ptr) : M Node :=
  match fuel with
  | 0 => λ _, Diverge
  | S fuel' =>
      Unstructured_ ParseGroupVersion cluster mapRange Slice (resolve fuel') unstr
  end.

End Resolve.

(** ** A small cluster to run the engine on *)

Module Scenario.

Definition object (apiVersion kind namespace name uid : string)
    (labels annotations : list (string * string))
    (owners : list string) (fields : list (string * value)) : Unstructured :=
  {| Object := fields;
     GetAPIVersion := apiVersion; GetKind := kind;
     GetNamespace := namespace; GetName := name; GetUID := uid;
     GetLabels := list_to_map labels;
     GetAnnotations := list_to_map annotations;
     GetOwnerReferences :=
       (λ u, {| ownerRef_APIVersion := "argoproj.io/v1alpha1";
                ownerRef_Kind := "ApplicationSet";
                ownerRef_Name := "set1"; ownerRef_UID := u |}) <$> owners |}.

Definition project (name : string) : list (string * value) :=
  [("spec", VMap [("project", VString name)])].

(** The roots. *)
Definition app1 : Unstructured :=
  object "argoproj.io/v1alpha1" "Application" "argocd" "app1" "a1" [] [] [] (project "proj1").
Definition bad : Unstructured :=
  object "argoproj.io/v1alpha1" "Application" "argocd" "bad" "a2" [] [] []
         [("spec", VMap [("project", VInt64 7)])].
Definition set1 : Unstructured :=
  object "argoproj.io/v1alpha1" "ApplicationSet" "argocd" "set1" "u1" [] [] [] [].

(** What the cluster holds. *)
Definition proj1 : Unstructured :=
  object "argoproj.io/v1alpha1" "AppProject" "" "proj1" "p1" [] [] [] [].
Definition proj2 : Unstructured :=
  object "argoproj.io/v1alpha1" "AppProject" "argocd" "other" "p2"
         [(instanceLabel, "app1")] [] [] [].
Definition cm1 : Unstructured :=
  object "v1" "ConfigMap" "ns1" "cm1" "c1" [(instanceLabel, "app1")] [] [] [].
Definition sec1 : Unstructured :=
  object "v1" "Secret" "ns1" "sec1" "s1" [] [] [] [].
Definition svc1 : Unstructured :=
  object "v1" "Service" "ns2" "svc1" "s2" []
         [(trackingIDAnnotation, "app1:/Service:ns2/svc1")] [] [].
Definition pv1 : Unstructured :=
  object "v1" "PersistentVolume" "" "pv1" "v1" [] [] [] [].
Definition cr1 : Unstructured :=
  object "rbac.authorization.k8s.io/v1" "ClusterRole" "" "cr1" "r1"
         [(instanceLabel, "app1")] [] [] [].
Definition child1 : Unstructured :=
  object "argoproj.io/v1alpha1" "Application" "argocd" "child1" "a3" [] [] ["u1"]
         (project "proj1").
Definition child2 : Unstructured :=
  object "argoproj.io/v1alpha1" "Application" "argocd" "child2" "a4"
         [(instanceLabel, "set1")] [] [] (project "proj1").

Definition parse (gv : string) : GroupVersion_ :=
  if decide (gv = "v1") then {| gv_Group := ""; gv_Version := "v1" |}
  else if decide (gv = "rbac.authorization.k8s.io/v1")
       then {| gv_Group := "rbac.authorization.k8s.io"; gv_Version := "v1" |}
       else {| gv_Group := "argoproj.io"; gv_Version := "v1alpha1" |}.

Definition catalog : list APIResourceList :=
  [ {| GroupVersion := "v1";
       APIResources := [ {| api_Name := "configmaps"; api_Kind := "ConfigMap" |};
                         {| api_Name := "events"; api_Kind := "Event" |};
                         {| api_Name := "secrets"; api_Kind := "Secret" |};
                         {| api_Name := "services"; api_Kind := "Service" |};
                         {| api_Name := "persistentvolumes";
                            api_Kind := "PersistentVolume" |};
                         {| api_Name := "bindings"; api_Kind := "Binding" |} ] |};
    {| GroupVersion := "rbac.authorization.k8s.io/v1";
       APIResources := [ {| api_Name := "clusterroles"; api_Kind := "ClusterRole" |} ] |};
    {| GroupVersion := "argoproj.io/v1alpha1";
       APIResources := [ {| api_Name := "appprojects"; api_Kind := "AppProject" |} ] |} ].

Definition notFound : error := "the server could not find the requested resource".

Definition items (applications : list Unstructured + error)
    (gvr : GroupVersionResource) : list Unstructured + error :=
  if decide (Resource gvr = "configmaps") then inl [cm1]
  else if decide (Resource gvr = "secrets") then inl [sec1]
  else if decide (Resource gvr = "services") then inl [svc1]
  else if decide (Resource gvr = "persistentvolumes") then inl [pv1]
  else if decide (Resource gvr = "clusterroles") then inl [cr1]
  else if decide (Resource gvr = "appprojects") then inl [proj1; proj2]
  else if decide (Resource gvr = "applications") then applications
  else inr notFound.

(** A cluster in which every call but the listing of bindings succeeds. *)
Definition cluster : Cluster :=
  {| ServerPreferredResources := (catalog, None);
     List := items (inl [child1; child2]) |}.

(** The same cluster when Applications cannot be listed. *)
Definition noApplications : Cluster :=
  {| ServerPreferredResources := (catalog, None);
     List := items (inr notFound) |}.

(** The same cluster when the discovery fails. *)
Definition noDiscovery : Cluster :=
  {| ServerPreferredResources := ([], Some "discovery failed");
     List := items (inl [child1; child2]) |}.

(** A cluster that serves one ApplicationSet, tracked by [app1], and in
    which Applications cannot be listed. *)
Definition set2 : Unstructured :=
  object "argoproj.io/v1alpha1" "ApplicationSet" "argocd" "set2" "u2"
         [(instanceLabel, "app1")] [] [] [].

Definition failingChild : Cluster :=
  {| ServerPreferredResources :=
       ([ {| GroupVersion := "argoproj.io/v1alpha1";
             APIResources := [ {| api_Name := "applicationsets";
                                  api_Kind := "ApplicationSet" |} ] |} ], None);
     List := λ gvr, if decide (Resource gvr = "applicationsets") then inl [set2]
                    else inr notFound |}.

Definition values (m : gmap string (list ptr)) : list (list ptr) := (map_to_list m).*2.

(** The roots are at the addresses 0, 1 and 2. *)
Definition world0 : World := {| store := [app1; bad; set1]; graph := emptyGraph |}.

Definition engine (c : Cluster) (fuel : nat) : ptr → M Node :=
  resolve parse c values elements fuel.

Definition valueOf {A} (d : A) (r : res A) : A :=
  match r with Ret a _ => a | _ => d end.

Definition worldOf {A} (r : res A) : World :=
  match r with Ret _ w | Raise _ _ w => w | _ => world0 end.

(** The phases of the resolution of [app1], evaluated. *)
Definition node1 : Node := Eval vm_compute in nodeOf (GroupVersionKindOf app1) app1.

Definition created : World :=
  Eval vm_compute in worldOf (graph_Node 0 world0).

Definition universe : list ptr :=
  Eval vm_compute in (valueOf ([], None) (getAllObjects parse cluster values created)).1.

Definition harvested : World :=
  Eval vm_compute in worldOf (getAllObjects parse cluster values created).

Definition direct : gset ptr :=
  Eval vm_compute in
    (valueOf (∅, ∅)
       (trackChildren (engine cluster 1) node1 0 "proj1" universe (∅, ∅) harvested)).1.

Definition namespaces : gset string :=
  Eval vm_compute in
    (valueOf (∅, ∅)
       (trackChildren (engine cluster 1) node1 0 "proj1" universe (∅, ∅) harvested)).2.

Definition tracked1 : World :=
  Eval vm_compute in
    worldOf (trackChildren (engine cluster 1) node1 0 "proj1" universe (∅, ∅) harvested).

Definition children : gset ptr :=
  Eval vm_compute in valueOf ∅ (closeNamespaces namespaces universe direct tracked1).

Definition resolved1 : World :=
  Eval vm_compute in
    worldOf (addChildren (engine cluster 1) node1 (elements children) tracked1).

(** The resolution of [set1], evaluated. *)
Definition node2 : Node := Eval vm_compute in nodeOf (GroupVersionKindOf set1) set1.

Definition resolved2 : World :=
  Eval vm_compute in worldOf (ApplicationSet cluster values (engine cluster 2) 2 world0).

(** The same cluster when it also serves an Event that carries the
    instance label of [app1]. *)
Definition ev1 : Unstructured :=
  object "v1" "Event" "ns1" "ev1" "e1" [(instanceLabel, "app1")] [] [] [].

Definition withEvents : Cluster :=
  {| ServerPreferredResources := (catalog, None);
     List := λ gvr, if decide (Resource gvr = "events") then inl [ev1]
                    else items (inl [child1; child2]) gvr |}.

(** The same cluster when the only Application is the merely labelled one. *)
Definition labelledOnly : Cluster :=
  {| ServerPreferredResources := (catalog, None);
     List := items (inl [child2]) |}.

(** A cluster with one Application that manages itself: it carries its
    own instance label. *)
Definition root : Unstructured :=
  object "argoproj.io/v1alpha1" "Application" "argocd" "root" "a0"
         [(instanceLabel, "root")] [] [] (project "default").

Definition applications : list APIResourceList :=
  [ {| GroupVersion := "argoproj.io/v1alpha1";
       APIResources := [ {| api_Name := "applications"; api_Kind := "Application" |} ] |} ].

Definition selfManaged : Cluster :=
  {| ServerPreferredResources := (applications, None);
     List := λ gvr, if decide (Resource gvr = "applications") then inl [root]
                    else inr notFound |}.

Definition world1 : World := {| store := [root]; graph := emptyGraph |}.

(** The resolution of [set1] when the discovery fails: the Applications
    are listed, and the resolution of the owned one fails on its harvest. *)
Definition failed2 : World :=
  Eval vm_compute in worldOf (ApplicationSet noDiscovery values (engine noDiscovery 1) 2 world0).

(** The resolution of [app1] on the cluster with the failing child: the
    universe is [set2] alone, at the address 3, and the resolution ends
    when [set2] is resolved. *)
Definition universe1 : list ptr :=
  Eval vm_compute in (valueOf ([], None) (getAllObjects parse failingChild values created)).1.

Definition harvested1 : World :=
  Eval vm_compute in worldOf (getAllObjects parse failingChild values created).

Definition failed1 : World :=
  Eval vm_compute in
    worldOf (Application parse failingChild values elements (engine failingChild 2) 0 world0).

(** What the list calls of the small cluster return, in the order of
    the catalog. *)
Definition contents : list Unstructured := [cm1; sec1; svc1; pv1; cr1; proj1; proj2].

End Scenario.

(** ** The vocabulary of the specification *)

(** The resource types one group of the catalog is harvested for: its
    resources other than Events, each type once. *)
Definition harvestedNames (apiResource : APIResourceList) : list string :=
  remove_dups (api_Name <$> filter (λ api, api_Kind api ≠ "Event") (APIResources apiResource)).

(** The concatenation of the per-type list results, a failed call
    contributing nothing. *)
Definition concatenation (ParseGroupVersion : string → GroupVersion_) (cluster : Cluster)
    (apiResources : list APIResourceList) : list Unstructured :=
  mjoin ((λ apiResource,
            mjoin ((λ name, listed cluster
                              (WithResource (ParseGroupVersion (GroupVersion apiResource)) name))
                   <$> harvestedNames apiResource))
         <$> apiResources).

(** An object shows signal (2) or signal (3) for the Application of that name. *)
Definition tracked (appName : string) (o : Unstructured) : bool :=
  hasTrackingID appName o || hasInstanceLabel appName o.

Definition edge (from : Node) (label : string) (to : Node) : Relationship :=
  {| rel_From := from; rel_Label := label; rel_To := to |}.

(** [w'] extends [w]: the objects of [w] are where they were and as they
    were, and no node or edge was taken out of the sink. *)
Record world_le (w w' : World) : Prop := {
  le_store : store w `prefix_of` store w';
  le_Nodes : Nodes (graph w) ⊆ Nodes (graph w');
  le_Relationships : Relationships (graph w) ⊆ Relationships (graph w')
}.

(** [c] is the node to which the object [o] at [p] was resolved between
    the worlds [w] and [w']: the dispatcher of the graph was called on
    [p] in a world [wi] that extends [w] and in which [p] points to [o],
    it returned [c], and the world [wj] it left is part of [w']. *)
Definition resolved (graph_Unstructured : ptr → M Node) (w w' : World)
    (p : ptr) (o : Unstructured) (c : Node) : Prop :=
  ∃ wi wj, world_le w wi ∧ store wi !! p = Some o ∧
           graph_Unstructured p wi = Ret c wj ∧ world_le wj w'.

(** The value under a key of a map, if the key is present. *)
Fixpoint lookupKey (k : string) (m : list (string * value)) : option value :=
  match m with
  | [] => None
  | (k', v) :: m' => if decide (k' = k) then Some v else lookupKey k m'
  end.

(** [spec.project] as the specification reads it: the string found under
    [project] in the map found under [spec]; [None] when it is missing or
    is not a string. *)
Definition spec_project (a : Unstructured) : option string :=
  match lookupKey "spec" (Object a) with
  | Some (VMap spec) =>
      match lookupKey "project" spec with
      | Some (VString projName) => Some projName
      | _ => None
      end
  | _ => None
  end.

(** The owner-reference list of [o] has an entry with the UID of [s]. *)
Definition owned (s o : Unstructured) : Prop :=
  ∃ ownerRef, ownerRef ∈ GetOwnerReferences o ∧ ownerRef_UID ownerRef = GetUID s.

(** The edge [r] was put into the sink while the object [o] at [p] was
    being resolved between the worlds [w] and [w']: by a call of the
    dispatcher of the graph on [p], in a world [wi] that extends [w] and
    in which [p] points to [o], that left a world [wj] that is part of
    [w']. *)
Definition addedBy (graph_Unstructured : ptr → M Node) (w w' : World)
    (p : ptr) (o : Unstructured) (r : Relationship) : Prop :=
  ∃ wi c wj, world_le w wi ∧ store wi !! p = Some o ∧
             graph_Unstructured p wi = Ret c wj ∧ world_le wj w' ∧
             (r ∉ Relationships (graph wi)) ∧ r ∈ Relationships (graph wj).

(** The world after [Graph.Relationship]. *)
Definition withEdge (r : Relationship) (w : World) : World :=
  {| store := store w; graph := addRelationship r (graph w) |}.

(** The resource types the other revision lists for a group: all of
    them, each once. *)
Definition allNames (apiResource : APIResourceList) : list string :=
  remove_dups (api_Name <$> APIResources apiResource).

(** The concatenation of the per-type list results, Events included. *)
Definition concatenationAll (ParseGroupVersion : string → GroupVersion_) (cluster : Cluster)
    (apiResources : list APIResourceList) : list Unstructured :=
  mjoin ((λ apiResource,
            mjoin ((λ name, listed cluster
                              (WithResource (ParseGroupVersion (GroupVersion apiResource)) name))
                   <$> allNames apiResource))
         <$> apiResources).

(** ** The vocabulary of the proofs *)

(** [wp m w Q E]: if [m] run in [w] returns, [Q] holds of its value and
    final world; if it leaves with an error, [E] holds. *)
Definition wp {A} (m : M A) (w : World)
    (Q : A → World → Prop) (E : option Node → error → World → Prop) : Prop :=
  match m w with
  | Ret a w' => Q a w'
  | Raise n e w' => E n e w'
  | Panic | Diverge => True
  end.

Definition extends {A} (m : M A) : Prop :=
  ∀ w, wp m w (λ _ w', world_le w w') (λ _ _ w', world_le w w').

(** The invariant of the inner loop: what the result map of a group
    holds once the types [names] were listed, in a store [st] that had
    [base] objects when the group was started. *)
Record harvested (ParseGroupVersion : string → GroupVersion_) (cluster : Cluster)
    (apiResource : APIResourceList) (names : list string) (base : nat)
    (results : gmap string (list ptr)) (st : list Unstructured) : Prop := {
  hv_contents : ∀ k ptrs, results !! k = Some ptrs →
    ∃ name,
      name ∈ names ∧
      k = gvr_String (WithResource (ParseGroupVersion (GroupVersion apiResource)) name) ∧
      (λ p, st !! p) <$> ptrs
      = Some <$> listed cluster
                   (WithResource (ParseGroupVersion (GroupVersion apiResource)) name) ∧
      NoDup ptrs ∧ ∀ p, p ∈ ptrs → base ≤ p < length st;
  hv_dom : ∀ name, name ∈ names →
    is_Some (results !!
               gvr_String (WithResource (ParseGroupVersion (GroupVersion apiResource)) name));
  hv_disjoint : ∀ k1 k2 ptrs1 ptrs2 p,
    k1 ≠ k2 → results !! k1 = Some ptrs1 → results !! k2 = Some ptrs2 →
    p ∈ ptrs1 → p ∉ ptrs2
}.

(** The same for the loops, which do not look at the object before they
    call the dispatcher: a call on [p] between [w] and [w'] returned
    [c], and a call on [p] between [w] and [w'] added [r]. *)
Definition called (graph_Unstructured : ptr → M Node) (w w' : World)
    (p : ptr) (c : Node) : Prop :=
  ∃ wi wj, world_le w wi ∧ graph_Unstructured p wi = Ret c wj ∧ world_le wj w'.

Definition addedIn (graph_Unstructured : ptr → M Node) (w w' : World)
    (p : ptr) (r : Relationship) : Prop :=
  ∃ wi c wj, world_le w wi ∧ graph_Unstructured p wi = Ret c wj ∧ world_le wj w' ∧
             (r ∉ Relationships (graph wi)) ∧ r ∈ Relationships (graph wj).

(** [r1] is [r2] unless it ran out of fuel. *)
Definition le_res {A} (r1 r2 : res A) : Prop := r1 = Diverge ∨ r1 = r2.

(** The dispatcher [g2] does what [g1] does wherever [g1] does not run out
    of fuel. *)
Definition refines (g1 g2 : ptr → M Node) : Prop :=
  ∀ p w, le_res (g1 p w) (g2 p w).

(** The kinds the dispatcher resolves to a node without looking further. *)
Definition leaf (o : Unstructured) : Prop :=
  GetKind o ≠ "ApplicationSet" ∧ GetKind o ≠ "Application".

(** A name holds a colon; the names of Kubernetes objects do not. *)
Fixpoint hasColon (s : string) : bool :=
  match s with
  | EmptyString => false
  | String a s' => bool_decide (String a EmptyString = ":") || hasColon s'
  end.

(** A catalog with the kinds blanked, so that none of its resources is
    taken for an Event. *)
Definition unkinded (apiResource : APIResourceList) : APIResourceList :=
  {| GroupVersion := GroupVersion apiResource;
     APIResources := (λ api, {| api_Name := api_Name api; api_Kind := "" |})
                     <$> APIResources apiResource |}.

Definition unkindedCluster (c : Cluster) : Cluster :=
  {| ServerPreferredResources :=
       (unkinded <$> (ServerPreferredResources c).1, (ServerPreferredResources c).2);
     List := List c |}.

(** [c'] is to the harvest of the other revision what [c] is to the
    harvest of this one. *)
Definition sameHarvest (c' c : Cluster) : Prop :=
  (∀ gvr, List c' gvr = List c gvr) ∧
  (ServerPreferredResources c').2 = (ServerPreferredResources c).2 ∧
  Forall2 (λ apiResource' apiResource,
             GroupVersion apiResource' = GroupVersion apiResource ∧
             api_Name <$> APIResources apiResource'
             = api_Name <$> filter (λ api, api_Kind api ≠ "Event")
                                   (APIResources apiResource))
          (ServerPreferredResources c').1 (ServerPreferredResources c).1.

(** The sink after the conditional [Relationship(n, kind, Node(obj))] of
    the other revision. *)
Definition relateGraph (b : bool) (n : Node) (o : Unstructured) (g : Graph) : Graph :=
  if b then addRelationship (edge n (GetKind o) (nodeOf (GroupVersionKindOf o) o))
                            (addNode (nodeOf (GroupVersionKindOf o) o) g)
  else g.

(** The two ways in which a call can end without returning to its caller. *)
Inductive ending : Type := Panics | Diverges.

Definition endsIn {A} (r : res A) (x : ending) : Prop :=
  match x with
  | Panics => r = Panic
  | Diverges => r = Diverge
  end.

(** [wpx m w Q X]: if [m] run in [w] returns, [Q] holds of its value and
    final world; if it panics or runs out of fuel, [X] holds of that
    ending. *)
Definition wpx {A} (m : M A) (w : World) (Q : A → World → Prop) (X : ending → Prop) : Prop :=
  match m w with
  | Ret a w' => Q a w'
  | Raise _ _ _ => True
  | Panic => X Panics
  | Diverge => X Diverges
  end.

(** * Reasoning about runs *)

Lemma bind_Ret {A B} (m : M A) (k : A → M B) w b w' :
  bind m k w = Ret b w' → ∃ a w1, m w = Ret a w1 ∧ k a w1 = Ret b w'.
Proof. unfold bind. destruct (m w) as [a w1| | |]; intros H; try done. eauto. Qed.

Lemma bind_Raise {A B} (m : M A) (k : A → M B) w n e w' :
  bind m k w = Raise n e w' →
  m w = Raise n e w' ∨ ∃ a w1, m w = Ret a w1 ∧ k a w1 = Raise n e w'.
Proof.
  unfold bind. destruct (m w) as [a w1| | |]; intros H; try done.
  - right. by exists a, w1.
  - left. by injection H as -> -> ->.
Qed.

Lemma deref_Ret p w o w' : deref p w = Ret o w' → w' = w ∧ store w !! p = Some o.
Proof. unfold deref. destruct (store w !! p); [| done]. by intros [= -> ->]. Qed.

Lemma deref_Raise p w n e w' : deref p w = Raise n e w' → False.
Proof. unfold deref. by destruct (store w !! p). Qed.

Lemma graph_Node_Ret p w n w' :
  graph_Node p w = Ret n w' →
  ∃ o, store w !! p = Some o ∧ n = nodeOf (GroupVersionKindOf o) o ∧
       w' = {| store := store w; graph := addNode n (graph w) |}.
Proof.
  intros (o & w1 & [-> Ho]%deref_Ret & [= <- <-])%bind_Ret. by exists o.
Qed.

Lemma graph_Node_Raise p w n e w' : graph_Node p w = Raise n e w' → False.
Proof.
  intros [H|(o & w1 & _ & H)]%bind_Raise; [by apply deref_Raise in H | done].
Qed.

Lemma bind_eq {A B} (m : M A) (k : A → M B) w a w1 :
  m w = Ret a w1 → bind m k w = k a w1.
Proof. unfold bind. by intros ->. Qed.

Lemma bind_agree {A B} (m m' : M A) (k k' : A → M B) w :
  m' w = m w → (∀ a w1, m w = Ret a w1 → k' a w1 = k a w1) → bind m' k' w = bind m k w.
Proof.
  intros Hm Hk. unfold bind. rewrite Hm.
  destruct (m w) as [a w1| | |]; [by apply Hk | done..].
Qed.

Lemma deref_eq p w o : store w !! p = Some o → deref p w = Ret o w.
Proof. unfold deref. by intros ->. Qed.

Lemma wp_ret {A} (a : A) w Q E : Q a w → wp (ret a) w Q E.
Proof. done. Qed.

Lemma wp_raise {A} n e w (Q : A → World → Prop) E : E n e w → wp (raise n e) w Q E.
Proof. done. Qed.

Lemma wp_panic {A} w (Q : A → World → Prop) E : wp panic w Q E.
Proof. done. Qed.

Lemma wp_bind {A B} (m : M A) (k : A → M B) w Q E :
  wp m w (λ a w1, wp (k a) w1 Q E) E → wp (bind m k) w Q E.
Proof. unfold wp, bind. by destruct (m w). Qed.

(** Splitting a block of three steps from what follows it. *)
Lemma wp_bind_assoc {A B C D} (m : M A) (k1 : A → M B) (k2 : A → B → M C) (k3 : M D) w Q E :
  wp (bind (bind m (λ a, bind (k1 a) (k2 a))) (λ _, k3)) w Q E →
  wp (bind m (λ a, bind (k1 a) (λ b, bind (k2 a b) (λ _, k3)))) w Q E.
Proof.
  unfold wp, bind. destruct (m w) as [a w1| | |]; [| done..].
  destruct (k1 a w1) as [b w2| | |]; [| done..].
  by destruct (k2 a b w2).
Qed.

Lemma wp_mono {A} (m : M A) w (Q Q' : A → World → Prop) (E E' : option Node → error → World → Prop) :
  wp m w Q E → (∀ a w', Q a w' → Q' a w') → (∀ n e w', E n e w' → E' n e w') →
  wp m w Q' E'.
Proof. unfold wp. destruct (m w); auto. Qed.

Lemma wp_and {A} (m : M A) w (Q1 Q2 : A → World → Prop) E1 E2 :
  wp m w Q1 E1 → wp m w Q2 E2 →
  wp m w (λ a w', Q1 a w' ∧ Q2 a w') (λ n e w', E1 n e w' ∧ E2 n e w').
Proof. unfold wp. destruct (m w); auto. Qed.

Lemma wp_deref p w Q E :
  (∀ o, store w !! p = Some o → Q o w) → wp (deref p) w Q E.
Proof. unfold wp, deref. destruct (store w !! p); auto. Qed.

Lemma wp_orReturn {A} n (call : M A) w Q E :
  wp call w Q (λ _ e w', E n e w') → wp (orReturn n call) w Q E.
Proof. unfold wp, orReturn. by destruct (call w). Qed.

Lemma wp_Ret {A} (m : M A) w Q E a w' : wp m w Q E → m w = Ret a w' → Q a w'.
Proof. unfold wp. intros H Hm. by rewrite Hm in H. Qed.

Lemma wp_Raise {A} (m : M A) w Q E n e w' : wp m w Q E → m w = Raise n e w' → E n e w'.
Proof. unfold wp. intros H Hm. by rewrite Hm in H. Qed.

Lemma wp_run {A} (m : M A) w (Q : A → World → Prop) (E : option Node → error → World → Prop) :
  (∀ a w', m w = Ret a w' → Q a w') → (∀ n e w', m w = Raise n e w' → E n e w') →
  wp m w Q E.
Proof. unfold wp. destruct (m w); auto. Qed.

(** ** Endings *)

Lemma wpx_ret {A} (a : A) w Q X : Q a w → wpx (ret a) w Q X.
Proof. done. Qed.

Lemma wpx_raise {A} n e w (Q : A → World → Prop) X : wpx (raise n e) w Q X.
Proof. done. Qed.

Lemma wpx_bind {A B} (m : M A) (k : A → M B) w Q X :
  wpx m w (λ a w1, wpx (k a) w1 Q X) X → wpx (bind m k) w Q X.
Proof. unfold wpx, bind. by destruct (m w). Qed.

Lemma wpx_mono {A} (m : M A) w (Q Q' : A → World → Prop) (X X' : ending → Prop) :
  wpx m w Q X → (∀ a w', Q a w' → Q' a w') → (∀ x, X x → X' x) → wpx m w Q' X'.
Proof. unfold wpx. destruct (m w); auto. Qed.

Lemma wpx_wp {A} (m : M A) w (Q Q' : A → World → Prop) X E :
  wpx m w Q X → wp m w Q' E → wpx m w (λ a w', Q a w' ∧ Q' a w') X.
Proof. unfold wpx, wp. destruct (m w); auto. Qed.

Lemma wpx_deref p o w Q X : store w !! p = Some o → Q o w → wpx (deref p) w Q X.
Proof. unfold wpx, deref. by intros ->. Qed.

Lemma wpx_graph_Node p o w Q X :
  store w !! p = Some o →
  Q (nodeOf (GroupVersionKindOf o) o)
    {| store := store w; graph := addNode (nodeOf (GroupVersionKindOf o) o) (graph w) |} →
  wpx (graph_Node p) w Q X.
Proof. intros Ho HQ. unfold wpx, graph_Node, bind, deref. by rewrite Ho. Qed.

Lemma wpx_returns {A} (m : M A) w a w' (Q : A → World → Prop) X :
  m w = Ret a w' → Q a w' → wpx m w Q X.
Proof. unfold wpx. by intros ->. Qed.

Lemma wpx_ending {A} (m : M A) w Q X x : wpx m w Q X → endsIn (m w) x → X x.
Proof. unfold wpx, endsIn. destruct x; intros H Hx; by rewrite Hx in H. Qed.

(** ** Worlds only grow *)

Global Instance world_le_preorder : PreOrder world_le.
Proof.
  split.
  - intros w. by split.
  - intros w1 w2 w3 [] []. split; by etrans.
Qed.

Lemma world_le_lookup w w' p o :
  world_le w w' → store w !! p = Some o → store w' !! p = Some o.
Proof. intros [Hs _ _] Hp. by eapply prefix_lookup_Some. Qed.

Lemma world_le_Relationship w w' r :
  world_le w w' → r ∈ Relationships (graph w) → r ∈ Relationships (graph w').
Proof. intros [_ _ Hr]. apply Hr. Qed.

Lemma called_here g w w1 w' p c :
  g p w = Ret c w1 → world_le w1 w' → called g w w' p c.
Proof. intros Hc Hle. by exists w, w1. Qed.

Lemma called_mono g w0 w1 w2 w3 p c :
  world_le w0 w1 → world_le w2 w3 → called g w1 w2 p c → called g w0 w3 p c.
Proof.
  intros Hle0 Hle3 (wi & wj & Hlei & Hc & Hlej). exists wi, wj.
  split; [by etrans |]. split; [done | by etrans].
Qed.

Lemma addedIn_mono g w0 w1 w2 w3 p r :
  world_le w0 w1 → world_le w2 w3 → addedIn g w1 w2 p r → addedIn g w0 w3 p r.
Proof.
  intros Hle0 Hle3 (wi & c & wj & Hlei & Hc & Hlej & Hnew). exists wi, c, wj.
  split; [by etrans |]. split; [done |]. split; [by etrans | done].
Qed.

(** Worlds only grow, so a call between [w] and [w'] on an address that
    is in use in [w] is a call on the object that it points to there. *)
Lemma called_resolved g w w' p o c :
  store w !! p = Some o → called g w w' p c → resolved g w w' p o c.
Proof.
  intros Ho (wi & wj & Hlei & Hc & Hlej). exists wi, wj.
  split; [done |]. split; [by eapply world_le_lookup | done].
Qed.

Lemma edgeCase_mono g w0 w1 w2 w3 n (o : Unstructured) p r :
  world_le w0 w1 → world_le w2 w3 →
  (∃ c, r = edge n (GetKind o) c ∧ called g w1 w2 p c) ∨ addedIn g w1 w2 p r →
  (∃ c, r = edge n (GetKind o) c ∧ called g w0 w3 p c) ∨ addedIn g w0 w3 p r.
Proof.
  intros Hle0 Hle3 [(c & -> & Hc)|Hadd].
  - left. exists c. split; [done |]. by eapply called_mono.
  - right. by eapply addedIn_mono.
Qed.

Lemma addedIn_addedBy g w w' p o r :
  store w !! p = Some o → addedIn g w w' p r → addedBy g w w' p o r.
Proof.
  intros Ho (wi & c & wj & Hlei & Hc & Hlej & Hnew). exists wi, c, wj.
  split; [done |]. split; [by eapply world_le_lookup | done].
Qed.

Lemma addNode_Nodes n g : Nodes g ⊆ Nodes (addNode n g).
Proof. unfold addNode. case_decide; simpl; set_solver. Qed.

Lemma addNode_Relationships n g : Relationships (addNode n g) = Relationships g.
Proof. unfold addNode. by case_decide. Qed.

Lemma addRelationship_Nodes r g : Nodes (addRelationship r g) = Nodes g.
Proof. unfold addRelationship. by case_decide. Qed.

Lemma elem_of_addRelationship r r' g :
  r' ∈ Relationships (addRelationship r g) ↔ r' = r ∨ r' ∈ Relationships g.
Proof.
  unfold addRelationship. case_decide; simpl.
  - split; [by right | by intros [->|]].
  - rewrite elem_of_app, list_elem_of_singleton. tauto.
Qed.

Lemma world_le_withEdge r w : world_le w (withEdge r w).
Proof.
  split; simpl; [done | by rewrite addRelationship_Nodes |].
  intros r' Hr'. apply elem_of_addRelationship. by right.
Qed.

Lemma elem_of_withEdge r w : r ∈ Relationships (graph (withEdge r w)).
Proof. apply elem_of_addRelationship. by left. Qed.

Lemma index_lookupKey m k : index m k = default VNil (lookupKey k m).
Proof.
  induction m as [|[k' v] m IH]; simpl; [done |].
  destruct (String.eqb_spec k' k); case_decide; simplify_eq; done.
Qed.

(** The chain of index expressions and type assertions at the head of
    [Application] reads [spec.project]. *)
Lemma assert_spec_project a :
  assertMap (index (Object a) "spec") ≫= (λ spec, assertString (index spec "project"))
  = spec_project a.
Proof.
  unfold spec_project. rewrite index_lookupKey.
  destruct (lookupKey "spec" (Object a)) as [[]|]; simpl; try done.
  rewrite index_lookupKey. by destruct (lookupKey "project" m) as [[]|].
Qed.

Lemma length_pos_nonempty (s : string) : 0 < String.length s ↔ s ≠ "".
Proof. destruct s; simpl; [split; [lia | done] | split; [done | lia]]. Qed.

(** What one pass of the first loop adds to the children and to the
    namespaces for the object at [obj]. *)
Lemma tracked_acc appName (obj : ptr) o (acc : gset ptr * gset string) :
  let acc1 := if hasTrackingID appName o then track obj o acc else acc in
  let acc2 := if hasInstanceLabel appName o then track obj o acc1 else acc1 in
  (∀ p, p ∈ acc2.1 ↔ p ∈ acc.1 ∨ (p = obj ∧ tracked appName o)) ∧
  (∀ ns, ns ∈ acc2.2 ↔
         ns ∈ acc.2 ∨ (ns ≠ "" ∧ tracked appName o ∧ GetNamespace o = ns)).
Proof.
  unfold tracked, track.
  destruct (hasTrackingID appName o), (hasInstanceLabel appName o); simpl;
    (split; [set_solver |]); intros ns;
    try (case_decide as Hlen; rewrite length_pos_nonempty in Hlen);
    set_solver.
Qed.

Lemma extends_ret {A} (a : A) : extends (ret a).
Proof. intros w. by apply wp_ret. Qed.

Lemma extends_raise {A} n e : extends (@raise A n e).
Proof. intros w. by apply wp_raise. Qed.

Lemma extends_panic {A} : extends (@panic A).
Proof. intros w. apply wp_panic. Qed.

Lemma extends_bind {A B} (m : M A) (k : A → M B) :
  extends m → (∀ a, extends (k a)) → extends (bind m k).
Proof.
  intros Hm Hk w. apply wp_bind. eapply wp_mono; [apply Hm | | done].
  intros a w1 Hw1. eapply wp_mono; [apply Hk | |]; simpl; intros; by transitivity w1.
Qed.

Lemma extends_deref p : extends (deref p).
Proof. intros w. by apply wp_deref. Qed.

Lemma extends_orReturn {A} n (call : M A) : extends call → extends (orReturn n call).
Proof. intros H w. apply wp_orReturn, H. Qed.

Lemma extends_graph_Node p : extends (graph_Node p).
Proof.
  apply extends_bind; [apply extends_deref |].
  intros o w. unfold wp. split; simpl; [done | apply addNode_Nodes |].
  by rewrite addNode_Relationships.
Qed.

Lemma extends_graph_Relationship n l c : extends (graph_Relationship n l c).
Proof.
  intros w. unfold wp, graph_Relationship. split; simpl; [done | |].
  - by rewrite addRelationship_Nodes.
  - intros r Hr. apply elem_of_addRelationship. by right.
Qed.

Section EngineFacts.

Variable ParseGroupVersion : string → GroupVersion_.
Variable cluster : Cluster.
Variable mapRange : gmap string (list ptr) → list (list ptr).
Variable Slice : gset ptr → list ptr.
Variable graph_Unstructured : ptr → M Node.

(** The sink and the resolvers behind [Graph.Unstructured] only add to
    the graph and leave the stored objects alone. *)
Hypothesis graph_Unstructured_extends : ∀ p, extends (graph_Unstructured p).

(** [Slice] lists each member of the set once; [range] visits each entry
    of the map once. *)
Hypothesis Slice_perm : ∀ X, Slice X ≡ₚ elements X.
Hypothesis mapRange_perm : ∀ m, mapRange m ≡ₚ (map_to_list m).*2.

Abbreviation getObjectsForAResource := (getObjectsForAResource cluster).
Abbreviation getChildApplications := (getChildApplications cluster mapRange).
Abbreviation listGroup := (listGroup ParseGroupVersion cluster).
Abbreviation listGroups := (listGroups ParseGroupVersion cluster mapRange).
Abbreviation getAllObjects := (getAllObjects ParseGroupVersion cluster mapRange).
Abbreviation trackChildren := (trackChildren graph_Unstructured).
Abbreviation addChildren := (addChildren graph_Unstructured).
Abbreviation Application :=
  (Application ParseGroupVersion cluster mapRange Slice graph_Unstructured).
Abbreviation matchOwners := (matchOwners graph_Unstructured).
Abbreviation ownedApplications := (ownedApplications graph_Unstructured).
Abbreviation ApplicationSet := (ApplicationSet cluster mapRange graph_Unstructured).
Abbreviation Unstructured_ :=
  (Unstructured_ ParseGroupVersion cluster mapRange Slice graph_Unstructured).

(** *** Every step extends the world *)

Lemma extends_getObjectsForAResource gvr results :
  extends (getObjectsForAResource gvr results).
Proof.
  unfold ApplicationV1alpha1Graph.getObjectsForAResource. destruct (List cluster gvr) as [items|err].
  - intros w. unfold wp. split; simpl; [by apply prefix_app_r | done | done].
  - apply extends_ret.
Qed.

Lemma extends_getChildApplications : extends getChildApplications.
Proof.
  apply extends_bind; [apply extends_getObjectsForAResource |].
  intros [results [e|]]; apply extends_ret.
Qed.

Lemma extends_listGroup apiResource apis results :
  extends (listGroup apiResource apis results).
Proof.
  revert results. induction apis as [|api apis IH]; intros results; simpl.
  - apply extends_ret.
  - case_decide; [apply IH |].
    apply extends_bind; [apply extends_getObjectsForAResource |].
    intros [results' _]. apply IH.
Qed.

Lemma extends_listGroups apiResources objs :
  extends (listGroups apiResources objs).
Proof.
  revert objs. induction apiResources as [|apiResource rest IH]; intros objs; simpl.
  - apply extends_ret.
  - apply extends_bind; [apply extends_listGroup |]. intros results. apply IH.
Qed.

Lemma extends_getAllObjects : extends getAllObjects.
Proof.
  unfold ApplicationV1alpha1Graph.getAllObjects.
  destruct (ServerPreferredResources cluster) as [apiResources [err|]].
  - apply extends_ret.
  - apply extends_bind; [apply extends_listGroups |]. intros objs. apply extends_ret.
Qed.

Lemma extends_trackChildren n app projName objs acc :
  extends (trackChildren n app projName objs acc).
Proof using graph_Unstructured_extends.
  revert acc. induction objs as [|obj objs IH]; intros acc; simpl.
  - apply extends_ret.
  - apply extends_bind; [apply extends_deref |]. intros o.
    apply extends_bind.
    { destruct (isProject projName o); [| apply extends_ret].
      apply extends_bind; [by apply extends_orReturn |]. intros childNode.
      apply extends_bind; [apply extends_deref |]. intros o'.
      apply extends_graph_Relationship. }
    intros _. apply extends_bind; [apply extends_deref |]. intros o'.
    apply extends_bind; [apply extends_deref |]. intros a. apply IH.
Qed.

Lemma extends_closeNamespaces namespaces objs children :
  extends (closeNamespaces namespaces objs children).
Proof.
  revert children. induction objs as [|obj objs IH]; intros children; simpl.
  - apply extends_ret.
  - apply extends_bind; [apply extends_deref |]. intros o. apply IH.
Qed.

Lemma extends_addChildren n children : extends (addChildren n children).
Proof using graph_Unstructured_extends.
  induction children as [|child children IH]; simpl.
  - apply extends_ret.
  - apply extends_bind; [by apply extends_orReturn |]. intros childNode.
    apply extends_bind; [apply extends_deref |]. intros c.
    apply extends_bind; [apply extends_graph_Relationship |]. by intros _.
Qed.

Lemma extends_Application app : extends (Application app).
Proof using graph_Unstructured_extends.
  apply extends_bind; [apply extends_graph_Node |]. intros n.
  apply extends_bind; [apply extends_deref |]. intros a.
  destruct (assertMap _) as [spec|]; [| apply extends_panic].
  destruct (assertString _) as [projName|]; [| apply extends_panic].
  apply extends_bind; [apply extends_getAllObjects |]. intros [objs [e|]].
  { apply extends_raise. }
  apply extends_bind; [apply extends_trackChildren |]. intros [children namespaces].
  apply extends_bind; [apply extends_closeNamespaces |]. intros children'.
  apply extends_bind; [apply extends_addChildren |]. intros _. apply extends_ret.
Qed.

Lemma extends_matchOwners n appset obj ownerReferences :
  extends (matchOwners n appset obj ownerReferences).
Proof using graph_Unstructured_extends.
  induction ownerReferences as [|ownerRef rest IH]; simpl.
  - apply extends_ret.
  - apply extends_bind; [apply extends_deref |]. intros s.
    apply extends_bind; [| by intros _].
    case_decide; [| apply extends_ret].
    apply extends_bind; [by apply extends_orReturn |]. intros childNode.
    apply extends_bind; [apply extends_deref |]. intros o.
    apply extends_graph_Relationship.
Qed.

Lemma extends_ownedApplications n appset objs :
  extends (ownedApplications n appset objs).
Proof using graph_Unstructured_extends.
  induction objs as [|obj objs IH]; simpl.
  - apply extends_ret.
  - apply extends_bind; [apply extends_deref |]. intros o.
    apply extends_bind; [apply extends_matchOwners |]. by intros _.
Qed.

Lemma extends_ApplicationSet appset : extends (ApplicationSet appset).
Proof using graph_Unstructured_extends.
  apply extends_bind; [apply extends_getChildApplications |]. intros [objs [e|]].
  { apply extends_raise. }
  apply extends_bind; [apply extends_graph_Node |]. intros n.
  apply extends_bind; [apply extends_ownedApplications |]. intros _. apply extends_ret.
Qed.

Lemma extends_Unstructured unstr : extends (Unstructured_ unstr).
Proof using graph_Unstructured_extends.
  apply extends_bind; [apply extends_deref |]. intros u.
  repeat case_decide.
  - apply extends_ApplicationSet.
  - apply extends_Application.
  - apply extends_graph_Node.
  - apply extends_graph_Node.
Qed.

(** *** The harvest *)

Lemma gvr_String_inj gv name1 name2 :
  gvr_String (WithResource gv name1) = gvr_String (WithResource gv name2) →
  name1 = name2.
Proof.
  unfold gvr_String; simpl. intros H.
  by repeat apply (inj (String.app _)) in H.
Qed.

(** A list call, failed or not, registers the addresses of fresh copies
    of what it [listed]. *)
Lemma getObjectsForAResource_run gvr results w :
  getObjectsForAResource gvr results w
  = Ret (<[gvr_String gvr := seq (length (store w)) (length (listed cluster gvr))]> results,
         match List cluster gvr with inl _ => None | inr e => Some e end)
        {| store := store w ++ listed cluster gvr; graph := graph w |}.
Proof.
  unfold ApplicationV1alpha1Graph.getObjectsForAResource, listed.
  destruct (List cluster gvr) as [items|e]; [done |].
  destruct w as [st g]; unfold ret; simpl. by rewrite app_nil_r.
Qed.

Lemma fmap_mjoin {A B} (f : A → B) (ls : list (list A)) :
  f <$> mjoin ls = mjoin (fmap f <$> ls).
Proof. induction ls as [|l ls IH]; simpl; [done |]. by rewrite fmap_app, IH. Qed.

Lemma lookup_fresh (st items : list Unstructured) :
  (λ p, (st ++ items) !! p) <$> seq (length st) (length items) = Some <$> items.
Proof.
  apply list_eq. intros i. rewrite !list_lookup_fmap.
  destruct (items !! i) as [o|] eqn:Hi; simpl.
  - rewrite lookup_seq_lt by (by eapply lookup_lt_Some). simpl.
    rewrite lookup_app_r by lia.
    replace (length st + i - length st) with i by lia. by rewrite Hi.
  - rewrite lookup_seq_ge; [done |]. by apply lookup_ge_None.
Qed.

Abbreviation gvrOf apiResource name :=
  (WithResource (ParseGroupVersion (GroupVersion apiResource)) name).
Abbreviation harvested := (harvested ParseGroupVersion cluster).

Lemma harvested_empty apiResource base st : harvested apiResource [] base ∅ st.
Proof.
  split.
  - intros k ptrs Hk. by rewrite lookup_empty in Hk.
  - intros name Hn. by apply elem_of_nil in Hn.
  - intros k1 k2 ptrs1 ptrs2 p _ Hk. by rewrite lookup_empty in Hk.
Qed.

Lemma harvested_step apiResource names base results st name :
  harvested apiResource names base results st → base ≤ length st →
  harvested apiResource (name :: names) base
    (<[gvr_String (gvrOf apiResource name) :=
         seq (length st) (length (listed cluster (gvrOf apiResource name)))]> results)
    (st ++ listed cluster (gvrOf apiResource name)).
Proof.
  intros [Hc Hd Hdis] Hbase.
  assert (∀ k ptrs p, results !! k = Some ptrs → p ∈ ptrs → p < length st) as Hold.
  { intros k ptrs p Hk Hp. destruct (Hc _ _ Hk) as (_ & _ & _ & _ & _ & Hr).
    by apply Hr. }
  split.
  - intros k ptrs. rewrite lookup_insert. case_decide as Hk.
    + intros [= <-]. exists name. split; [by left |]. split; [done |].
      split; [apply lookup_fresh |]. split; [apply NoDup_seq |].
      intros p Hp%elem_of_seq. rewrite length_app. lia.
    + intros Hl. destruct (Hc _ _ Hl) as (name' & Hn & -> & Hv & Hnd & Hr).
      exists name'. split; [by right |]. split; [done |]. split; [| split; [done |]].
      * rewrite <- Hv. apply list_fmap_ext. intros i p Hp.
        apply lookup_app_l. apply Hr. by eapply list_elem_of_lookup_2.
      * intros p Hp. rewrite length_app. specialize (Hr p Hp). lia.
  - intros name' [->|Hn]%elem_of_cons; apply lookup_insert_is_Some'; [by left |].
    right. by apply Hd.
  - intros k1 k2 ptrs1 ptrs2 p Hne. rewrite !lookup_insert.
    repeat case_decide; simplify_eq.
    + intros [= <-] Hl2 Hp1%elem_of_seq Hp2. specialize (Hold _ _ _ Hl2 Hp2). lia.
    + intros Hl1 [= <-] Hp1 Hp2%elem_of_seq. specialize (Hold _ _ _ Hl1 Hp1). lia.
    + by apply Hdis.
Qed.

Lemma harvested_names apiResource names names' base results st :
  (∀ name, name ∈ names ↔ name ∈ names') →
  harvested apiResource names base results st →
  harvested apiResource names' base results st.
Proof.
  intros Heq [Hc Hd Hdis]. split; [| | done].
  - intros k ptrs Hk. destruct (Hc _ _ Hk) as (name & Hn & ?). exists name.
    by rewrite <- Heq.
  - intros name Hn. apply Hd. by rewrite Heq.
Qed.

Abbreviation namesOf apis :=
  (api_Name <$> filter (λ api, api_Kind api ≠ "Event") apis).

(** The inner loop always completes; it only appends to the store. *)
Lemma listGroup_run apiResource apis names base results w :
  harvested apiResource names base results (store w) → base ≤ length (store w) →
  ∃ results' st',
    listGroup apiResource apis results w
    = Ret results' {| store := st'; graph := graph w |} ∧
    store w `prefix_of` st' ∧
    harvested apiResource (namesOf apis ++ names) base results' st'.
Proof.
  revert names results w. induction apis as [|api apis IH]; intros names results w Hh Hb.
  { exists results, (store w). by destruct w. }
  simpl. rewrite filter_cons. case_decide as Hev.
  - rewrite decide_False by (by intros ?). by apply IH.
  - rewrite decide_True by done. unfold bind at 1.
    rewrite getObjectsForAResource_run.
    destruct (IH (api_Name api :: names)
                (<[gvr_String (gvrOf apiResource (api_Name api)) :=
                     seq (length (store w))
                         (length (listed cluster (gvrOf apiResource (api_Name api))))]>
                   results)
                {| store := store w ++ listed cluster (gvrOf apiResource (api_Name api));
                   graph := graph w |})
      as (results' & st' & Hrun & Hpre & Hh').
    { by apply harvested_step. }
    { simpl. rewrite length_app. lia. }
    exists results', st'. split; [exact Hrun |]. split.
    + simpl in Hpre. etrans; [| exact Hpre]. by apply prefix_app_r.
    + eapply harvested_names; [| exact Hh']. intros name. simpl.
      rewrite !elem_of_app, !elem_of_cons, elem_of_app. tauto.
Qed.

(** The addresses in the result map of a group are pairwise distinct. *)
Lemma harvested_NoDup apiResource names base results st :
  harvested apiResource names base results st →
  NoDup (mjoin (map_to_list results).*2).
Proof.
  intros [Hc _ Hdis].
  assert (∀ k ptrs, results !! k = Some ptrs → NoDup ptrs) as Hnd.
  { intros k ptrs Hk. by destruct (Hc _ _ Hk) as (_ & _ & _ & _ & ? & _). }
  clear Hc. induction results as [|k ptrs m Hk IH] using map_ind.
  { rewrite map_to_list_empty. constructor. }
  rewrite map_to_list_insert by done. simpl.
  apply NoDup_app. split; [| split].
  - apply (Hnd k). apply lookup_insert_eq.
  - intros p Hp (ptrs' & Hp' & Hin)%list_elem_of_join.
    apply list_elem_of_fmap in Hin as ([k' ?] & -> & Hin%elem_of_map_to_list).
    simpl in *. assert (k ≠ k') as Hne by (intros ->; congruence).
    eapply (Hdis k k'); [done | apply lookup_insert_eq | | done..].
    by rewrite lookup_insert_ne.
  - apply IH.
    + intros k1 k2 ptrs1 ptrs2 p Hne H1 H2.
      apply (Hdis k1 k2); [done | |];
        (rewrite lookup_insert_ne; [done | intros ->; congruence]).
    + intros k' ptrs' Hk'. apply (Hnd k').
      rewrite lookup_insert_ne; [done | intros ->; congruence].
Qed.

Lemma harvested_range apiResource names base results st p :
  harvested apiResource names base results st →
  p ∈ mjoin (map_to_list results).*2 → base ≤ p < length st.
Proof.
  intros [Hc _ _] (ptrs & Hp & Hin)%list_elem_of_join.
  apply list_elem_of_fmap in Hin as ([k ?] & -> & Hin%elem_of_map_to_list).
  destruct (Hc _ _ Hin) as (_ & _ & _ & _ & _ & Hr). by apply Hr.
Qed.

(** What the addresses in the result map of a group point to: the
    items listed for each of its types, each type once. *)
Lemma harvested_contents apiResource names base results st :
  harvested apiResource names base results st →
  (λ p, st !! p) <$> mjoin (map_to_list results).*2
  ≡ₚ Some <$> mjoin ((λ name, listed cluster (gvrOf apiResource name))
                      <$> remove_dups names).
Proof.
  intros [Hc Hd _].
  set (g := λ name, (gvr_String (gvrOf apiResource name),
                     listed cluster (gvrOf apiResource name))).
  set (L := g <$> remove_dups names).
  assert (NoDup L.*1) as HL.
  { unfold L. rewrite <- list_fmap_compose. apply NoDup_fmap_2_strong.
    - intros n1 n2 _ _ Heq. by apply gvr_String_inj in Heq.
    - apply NoDup_remove_dups. }
  set (VM := list_to_map L : gmap string (list Unstructured)).
  set (F := λ ptrs : list nat, (λ p, st !! p) <$> ptrs).
  set (G := λ items : list Unstructured, Some <$> items).
  assert (F <$> results = G <$> VM) as Heq.
  { apply map_eq. intros k. rewrite !lookup_fmap.
    destruct (results !! k) as [ptrs|] eqn:Hk; simpl.
    - destruct (Hc _ _ Hk) as (name & Hn & -> & Hv & _).
      unfold VM.
      rewrite (elem_of_list_to_map_1 L _ (listed cluster (gvrOf apiResource name)));
        [| done |].
      + simpl. unfold F, G. by rewrite Hv.
      + apply (list_elem_of_fmap_2' g _ name); [| done]. by apply elem_of_remove_dups.
    - unfold VM. rewrite (not_elem_of_list_to_map_1 L k); [done |].
      intros ([k' v] & -> & Hin)%list_elem_of_fmap.
      apply list_elem_of_fmap in Hin as (name & [= -> ->] & Hn).
      rewrite elem_of_remove_dups in Hn.
      destruct (Hd _ Hn) as [? ?]. simpl in *. congruence. }
  assert (∀ {A B} (f : list A → list B) (m : gmap string (list A)),
            mjoin (map_to_list (f <$> m)).*2 = mjoin (f <$> (map_to_list m).*2)) as Hvals.
  { intros A B f m. by rewrite map_to_list_fmap, <- !list_fmap_compose. }
  rewrite fmap_mjoin.
  change (mjoin (F <$> (map_to_list results).*2)
          ≡ₚ Some <$> mjoin ((λ name, listed cluster (gvrOf apiResource name))
                              <$> remove_dups names)).
  rewrite <- Hvals, Heq, Hvals.
  change (mjoin (fmap Some <$> (map_to_list VM).*2)
          ≡ₚ Some <$> mjoin ((λ name, listed cluster (gvrOf apiResource name))
                              <$> remove_dups names)).
  rewrite <- fmap_mjoin. unfold VM. rewrite (map_to_list_to_map L HL). unfold L.
  by rewrite <- !list_fmap_compose.
Qed.

(** The outer loop always completes: it appends, to the objects it was
    given, distinct fresh addresses that point to the concatenation of
    the per-type results. *)
Lemma listGroups_run apiResources objs w :
  ∃ new st',
    listGroups apiResources objs w
    = Ret (objs ++ new) {| store := st'; graph := graph w |} ∧
    store w `prefix_of` st' ∧
    NoDup new ∧
    (∀ p, p ∈ new → length (store w) ≤ p < length st') ∧
    (λ p, st' !! p) <$> new
    ≡ₚ Some <$> concatenation ParseGroupVersion cluster apiResources.
Proof using mapRange_perm.
  revert objs w. induction apiResources as [|apiResource rest IH]; intros objs w.
  { exists [], (store w). rewrite app_nil_r. destruct w. simpl.
    split; [done |]. split; [done |]. split; [constructor |].
    split; [| done]. by intros p Hp%elem_of_nil. }
  destruct (listGroup_run apiResource (APIResources apiResource) [] (length (store w)) ∅ w)
    as (results & st1 & Hrun & Hpre & Hh); [apply harvested_empty | done |].
  rewrite app_nil_r in Hh.
  destruct (IH (objs ++ mjoin (mapRange results)) {| store := st1; graph := graph w |})
    as (new & st' & Hrest & Hpre' & Hnd & Hrange & Hcont).
  simpl in *. exists (mjoin (mapRange results) ++ new), st'.
  assert (∀ p, p ∈ mjoin (mapRange results) → length (store w) ≤ p < length st1) as Hr1.
  { intros p Hp. rewrite (mapRange_perm results) in Hp.
    by eapply harvested_range. }
  split; [| split; [| split; [| split]]].
  - unfold bind at 1. rewrite Hrun. by rewrite app_assoc.
  - by etrans.
  - apply NoDup_app. split; [| split; [| done]].
    + rewrite (mapRange_perm results). by eapply harvested_NoDup.
    + intros p Hp1 Hp2. specialize (Hr1 p Hp1). specialize (Hrange p Hp2). lia.
  - intros p [Hp|Hp]%elem_of_app.
    + specialize (Hr1 p Hp). apply prefix_length in Hpre'. lia.
    + specialize (Hrange p Hp). apply prefix_length in Hpre. lia.
  - unfold concatenation. rewrite fmap_app, !fmap_cons. simpl. rewrite fmap_app.
    apply Permutation_app; [| exact Hcont].
    assert ((λ p, st' !! p) <$> mjoin (mapRange results)
            = (λ p, st1 !! p) <$> mjoin (mapRange results)) as ->.
    { apply list_fmap_ext. intros i p Hp.
      symmetry. apply prefix_lookup_lt; [| done].
      apply Hr1. by eapply list_elem_of_lookup_2. }
    rewrite (mapRange_perm results). by eapply harvested_contents.
Qed.

(** The harvest: it fails only when the discovery does. *)
Lemma getAllObjects_run w :
  match ServerPreferredResources cluster with
  | (_, Some err) => getAllObjects w = Ret ([], Some err) w
  | (apiResources, None) =>
      ∃ objs st',
        getAllObjects w = Ret (objs, None) {| store := st'; graph := graph w |} ∧
        store w `prefix_of` st' ∧
        NoDup objs ∧
        (∀ p, p ∈ objs → length (store w) ≤ p < length st') ∧
        (λ p, st' !! p) <$> objs
        ≡ₚ Some <$> concatenation ParseGroupVersion cluster apiResources
  end.
Proof using mapRange_perm.
  unfold ApplicationV1alpha1Graph.getAllObjects.
  destruct (ServerPreferredResources cluster) as [apiResources [err|]]; [done |].
  destruct (listGroups_run apiResources [] w) as (new & st' & Hrun & Hrest).
  exists new, st'. split; [| done]. unfold bind. by rewrite Hrun.
Qed.

(** *** The loops of the Application resolver *)

Lemma wp_call p w Q E :
  (∀ c w', graph_Unstructured p w = Ret c w' → world_le w w' → Q c w') →
  (∀ x e w', graph_Unstructured p w = Raise x e w' → world_le w w' → E x e w') →
  wp (graph_Unstructured p) w Q E.
Proof using graph_Unstructured_extends.
  intros HQ HE. apply wp_run.
  - intros c w' Hc. apply HQ; [done |].
    exact (wp_Ret _ _ _ _ _ _ (graph_Unstructured_extends p w) Hc).
  - intros x e w' Hc. apply HE; [done |].
    exact (wp_Raise _ _ _ _ _ _ _ (graph_Unstructured_extends p w) Hc).
Qed.

(** The step shared by the three loops: resolve an object, then register
    the edge to its node, labelled with its kind. *)
Lemma wp_resolveEdge on n p w :
  wp (childNode <- orReturn on (graph_Unstructured p);
      c <- deref p;
      graph_Relationship n (GetKind c) childNode) w
    (λ _ w', ∃ c w1 o, graph_Unstructured p w = Ret c w1 ∧ world_le w w1 ∧
                       store w1 !! p = Some o ∧
                       w' = withEdge (edge n (GetKind o) c) w1)
    (λ n' e w', n' = on ∧ world_le w w' ∧ ∃ x, graph_Unstructured p w = Raise x e w').
Proof using graph_Unstructured_extends.
  apply wp_bind, wp_orReturn, wp_call.
  - intros c w1 Hc Hle. apply wp_bind, wp_deref. intros o Ho.
    unfold wp; simpl. by exists c, w1, o.
  - intros x e w' Hc Hle. split; [done |]. split; [done |]. by exists x.
Qed.

Lemma trackChildren_spec n app projName objs acc w :
  wp (trackChildren n app projName objs acc) w
    (λ r w',
       world_le w w' ∧
       (∀ ns, ns ∈ r.2 → ns ∈ acc.2 ∨ ns ≠ "") ∧
       (∀ a, store w' !! app = Some a →
          (∀ p, p ∈ r.1 ↔
                p ∈ acc.1 ∨
                (p ∈ objs ∧ ∃ o, store w' !! p = Some o ∧ tracked (GetName a) o)) ∧
          (∀ ns, ns ∈ r.2 ↔
                 ns ∈ acc.2 ∨
                 (ns ≠ "" ∧ ∃ p o, p ∈ objs ∧ store w' !! p = Some o ∧
                                   tracked (GetName a) o ∧ GetNamespace o = ns))) ∧
       (∀ p o, p ∈ objs → store w' !! p = Some o → isProject projName o →
               ∃ c, called graph_Unstructured w w' p c ∧
                    edge n (GetKind o) c ∈ Relationships (graph w')))
    (λ n' e w', n' = Some n ∧ world_le w w' ∧
                ∃ p x wi, p ∈ objs ∧ world_le w wi ∧
                          graph_Unstructured p wi = Raise x e w').
Proof using graph_Unstructured_extends.
  clear Slice_perm mapRange_perm. clear ParseGroupVersion cluster mapRange Slice.
  revert acc w. induction objs as [|obj objs IH]; intros acc w; simpl.
  { apply wp_ret. split; [done |]. set_solver. }
  apply wp_bind, wp_deref. intros o Ho. apply wp_bind.
  apply (wp_mono _ _
           (λ _ w1, world_le w w1 ∧
                    (isProject projName o →
                     ∃ c, called graph_Unstructured w w1 obj c ∧
                          edge n (GetKind o) c ∈ Relationships (graph w1)))
           _
           (λ n' e w', n' = Some n ∧ world_le w w' ∧
                       ∃ x wi, world_le w wi ∧ graph_Unstructured obj wi = Raise x e w')).
  - destruct (isProject projName o).
    + eapply wp_mono; [apply wp_resolveEdge | |]; simpl.
      * intros _ w' (c & w1 & o1 & Hc & Hle & Ho1 & ->).
        pose proof (world_le_lookup _ _ _ _ Hle Ho) as Ho1'.
        assert (o1 = o) as -> by congruence. split.
        { etrans; [exact Hle | apply world_le_withEdge]. }
        intros _. exists c. split; [| apply elem_of_withEdge].
        eapply called_here; [exact Hc | apply world_le_withEdge].
      * intros n' e w' (-> & Hle & x & Hx). split; [done |]. split; [done |].
        by exists x, w.
    + apply wp_ret. split; [done |]. intros [].
  - intros _ w1 [Hle Hedge].
    pose proof (world_le_lookup _ _ _ _ Hle Ho) as Ho1.
    apply wp_bind, wp_deref. intros o' Ho'.
    assert (o' = o) as -> by congruence.
    apply wp_bind, wp_deref. intros a Ha.
    eapply wp_mono; [apply (IH _ w1) | |]; simpl.
    + intros [children namespaces] w' (Hle' & Hinv & Hchar & Hproj); simpl in *.
      pose proof (world_le_lookup _ _ _ _ Hle' Ho1) as Ho2.
      pose proof (world_le_lookup _ _ _ _ Hle' Ha) as Ha2.
      pose proof (tracked_acc (GetName a) obj o acc) as [Hacc1 Hacc2].
      split; [by etrans |]. split; [| split].
      * intros ns [Hns|Hns]%Hinv; [| by right].
        apply Hacc2 in Hns as [?|[? ?]]; eauto.
      * intros a' Ha'. assert (a' = a) as -> by congruence.
        destruct (Hchar a Ha2) as [Hch Hns]. split.
        -- intros p. rewrite Hch, Hacc1, elem_of_cons. split.
           ++ intros [[|[-> ?]]|[? ?]]; eauto 10.
           ++ intros [|[[->|?] (o2 & Ho2' & ?)]]; simplify_eq; eauto 10.
        -- intros ns. rewrite Hns, Hacc2. split.
           ++ intros [[|(? & ? & ?)]|(? & p & o2 & ? & ?)]; [eauto | |].
              ** right. split; [done |]. exists obj, o. rewrite elem_of_cons. eauto.
              ** right. split; [done |]. exists p, o2. rewrite elem_of_cons. eauto.
           ++ intros [|(? & p & o2 & [->|?]%elem_of_cons & Ho2' & ? & ?)];
                simplify_eq; eauto 10.
      * intros p o2 [->|Hp]%elem_of_cons Ho2' Hisp.
        -- simplify_eq. destruct (Hedge Hisp) as (c & Hc & Hin).
           exists c. split; [| by eapply world_le_Relationship].
           eapply called_mono; [reflexivity | exact Hle' | exact Hc].
        -- destruct (Hproj p o2 Hp Ho2' Hisp) as (c & Hc & Hin).
           exists c. split; [| done].
           eapply called_mono; [exact Hle | reflexivity | exact Hc].
    + intros n' e w' (-> & Hle' & p & x & wi & Hp & Hlei & Hx).
      split; [done |]. split; [by etrans |]. exists p, x, wi.
      split; [by right |]. split; [by etrans | done].
  - simpl. intros n' e w' (-> & Hle & x & wi & Hlei & Hx).
    split; [done |]. split; [done |]. exists obj, x, wi. split; [by left | done].
Qed.

Lemma closeNamespaces_spec namespaces objs children w :
  wp (closeNamespaces namespaces objs children) w
    (λ r w',
       w' = w ∧
       ∀ p, p ∈ r ↔
            p ∈ children ∨
            (p ∈ objs ∧ ∃ o, store w !! p = Some o ∧ GetNamespace o ∈ namespaces))
    (λ _ _ _, False).
Proof.
  clear Slice_perm mapRange_perm. clear ParseGroupVersion cluster mapRange Slice.
  clear graph_Unstructured_extends. clear graph_Unstructured.
  revert children. induction objs as [|obj objs IH]; intros children; simpl.
  { apply wp_ret. split; [done |]. set_solver. }
  apply wp_bind, wp_deref. intros o Ho.
  eapply wp_mono; [apply IH | | done]; simpl.
  intros r w' [-> Hr]. split; [done |]. intros p. rewrite Hr, elem_of_cons.
  case_decide as Hns.
  - rewrite elem_of_union, elem_of_singleton. split.
    + intros [[->|?]|[? ?]]; eauto 10.
    + intros [?|[[->|?] ?]]; eauto 10.
  - split.
    + intros [?|[? ?]]; eauto 10.
    + intros [?|[[->|?] (o' & Ho' & ?)]]; simplify_eq; [eauto 10 | done | eauto 10].
Qed.

Lemma addChildren_spec n children w :
  wp (addChildren n children) w
    (λ _ w',
       world_le w w' ∧
       ∀ p, p ∈ children →
            ∃ o c, store w' !! p = Some o ∧ called graph_Unstructured w w' p c ∧
                   edge n (GetKind o) c ∈ Relationships (graph w'))
    (λ n' e w', n' = Some n ∧ world_le w w' ∧
                ∃ p x wi, p ∈ children ∧ world_le w wi ∧
                          graph_Unstructured p wi = Raise x e w').
Proof using graph_Unstructured_extends.
  clear Slice_perm mapRange_perm. clear ParseGroupVersion cluster mapRange Slice.
  revert w. induction children as [|child children IH]; intros w; simpl.
  { apply wp_ret. split; [done |]. set_solver. }
  apply wp_bind_assoc, wp_bind.
  eapply wp_mono; [apply wp_resolveEdge | |]; simpl.
  - intros _ w2 (c & w1 & o & Hc & Hle & Ho & ->).
    assert (world_le w (withEdge (edge n (GetKind o) c) w1)) as Hle2.
    { etrans; [exact Hle | apply world_le_withEdge]. }
    eapply wp_mono; [apply IH | |]; simpl.
    + intros _ w' [Hle' Hall]. split; [by etrans |].
      intros p [->|Hp]%elem_of_cons.
      * exists o, c. split; [| split].
        -- eapply world_le_lookup; [exact Hle' |]. done.
        -- eapply called_here; [exact Hc |].
           etrans; [apply world_le_withEdge | exact Hle'].
        -- eapply world_le_Relationship; [exact Hle' |]. apply elem_of_withEdge.
      * destruct (Hall p Hp) as (o' & c' & Ho' & Hc' & Hin).
        exists o', c'. split; [done |]. split; [| done].
        eapply called_mono; [exact Hle2 | reflexivity | exact Hc'].
    + intros n' e w' (-> & Hle' & p & x & wi & Hp & Hlei & Hx).
      split; [done |]. split; [by etrans |]. exists p, x, wi.
      split; [by right |]. split; [by etrans | done].
  - intros n' e w' (-> & Hle & x & Hx). split; [done |]. split; [done |].
    exists child, x, w. split; [by left | done].
Qed.

Abbreviation ApplicationRun :=
  (ApplicationRun ParseGroupVersion cluster mapRange Slice graph_Unstructured).

Lemma Application_Ret app w n w' :
  Application app w = Ret n w' →
  ∃ a objs w1 direct namespaces children,
    ApplicationRun app w n w' a objs w1 direct namespaces children.
Proof.
  intros (n0 & w0 & Hn & H)%bind_Ret.
  apply bind_Ret in H as (a & ? & [-> Ha]%deref_Ret & H).
  destruct (graph_Node_Ret _ _ _ _ Hn) as (a' & Ha' & -> & Hw0).
  assert (a' = a) as -> by (subst w0; simpl in Ha; congruence).
  destruct (assertMap _) as [spec|] eqn:Hspec; [| done].
  destruct (assertString _) as [projName|] eqn:Hproj; [| done].
  apply bind_Ret in H as ([objs [e|]] & w1 & Hobjs & H); [done |].
  apply bind_Ret in H as ([direct namespaces] & w2 & Htrack & H).
  apply bind_Ret in H as (children & w2' & Hclose & H).
  apply bind_Ret in H as ([] & w3 & Hadd & [= <- <-]).
  assert (w2' = w2) as ->.
  { by destruct (wp_Ret _ _ _ _ _ _ (closeNamespaces_spec _ _ _ _) Hclose). }
  exists a, objs, w1, direct, namespaces, children, projName, w0, w2.
  rewrite Hspec; simpl. by rewrite Hproj.
Qed.

Lemma world_le_lookup_iff w1 w2 p o :
  world_le w1 w2 → is_Some (store w1 !! p) →
  store w2 !! p = Some o ↔ store w1 !! p = Some o.
Proof.
  intros Hle [o' Ho']. pose proof (world_le_lookup _ _ _ _ Hle Ho'). split; congruence.
Qed.

(** The universe of a run consists of valid, pairwise distinct addresses. *)
Lemma getAllObjects_valid w objs w1 :
  getAllObjects w = Ret (objs, None) w1 →
  NoDup objs ∧ ∀ p, p ∈ objs → is_Some (store w1 !! p).
Proof using mapRange_perm.
  intros Hrun. pose proof (getAllObjects_run w) as H.
  destruct (ServerPreferredResources cluster) as [apiResources [err|]].
  { rewrite H in Hrun. discriminate. }
  destruct H as (objs' & st' & H & _ & Hnd & Hrange & _).
  rewrite H in Hrun. injection Hrun as <- <-. split; [done |].
  intros p Hp. apply lookup_lt_is_Some; simpl. by apply Hrange.
Qed.

(** What a run of [Application] that returns has established. *)
Lemma ApplicationRun_facts app w n w' a objs w1 direct namespaces children :
  ApplicationRun app w n w' a objs w1 direct namespaces children →
  n = nodeOf (GroupVersionKindOf a) a ∧
  world_le w w1 ∧ world_le w1 w' ∧
  (∀ p, p ∈ objs → is_Some (store w1 !! p)) ∧
  (∀ p, p ∈ direct ↔
        p ∈ objs ∧ ∃ o, store w1 !! p = Some o ∧ tracked (GetName a) o) ∧
  (∀ ns, ns ∈ namespaces ↔
         ns ≠ "" ∧ ∃ p o, p ∈ objs ∧ store w1 !! p = Some o ∧
                          tracked (GetName a) o ∧ GetNamespace o = ns) ∧
  (∀ p, p ∈ children ↔
        p ∈ direct ∨
        (p ∈ objs ∧ ∃ o, store w1 !! p = Some o ∧ GetNamespace o ∈ namespaces)) ∧
  (∀ p o, p ∈ children → store w1 !! p = Some o →
          ∃ c, resolved graph_Unstructured w1 w' p o c ∧
               edge n (GetKind o) c ∈ Relationships (graph w')) ∧
  (∀ p o projName,
     assertMap (index (Object a) "spec") ≫= (λ spec, assertString (index spec "project"))
       = Some projName →
     p ∈ objs → store w1 !! p = Some o → isProject projName o →
     ∃ c, resolved graph_Unstructured w1 w' p o c ∧
          edge n (GetKind o) c ∈ Relationships (graph w')).
Proof using graph_Unstructured_extends Slice_perm mapRange_perm.
  intros (projName & w0 & w2 & Ha & Hn & Hproj & Hobjs & Htrack & Hclose & Hadd).
  destruct (graph_Node_Ret _ _ _ _ Hn) as (a' & Ha' & Hnode & _).
  assert (a' = a) as -> by congruence.
  pose proof (wp_Ret _ _ _ _ _ _ (extends_graph_Node app w) Hn) as Hle0.
  pose proof (wp_Ret _ _ _ _ _ _ (extends_getAllObjects w0) Hobjs) as Hle1.
  destruct (getAllObjects_valid _ _ _ Hobjs) as [_ Hvalid].
  destruct (wp_Ret _ _ _ _ _ _ (trackChildren_spec _ _ _ _ _ _) Htrack)
    as (Hle2 & _ & Hchar & Hprojs); simpl in *.
  destruct (wp_Ret _ _ _ _ _ _ (closeNamespaces_spec _ _ _ _) Hclose) as [_ Hcl].
  destruct (wp_Ret _ _ _ _ _ _ (addChildren_spec _ _ _) Hadd) as [Hle3 Hedges].
  assert (world_le w w1) as Hle01 by (by etrans).
  assert (world_le w1 w') as Hle13 by (by etrans).
  assert (store w2 !! app = Some a) as Ha2.
  { eapply world_le_lookup; [| exact Ha]. by etrans. }
  destruct (Hchar a Ha2) as [Hdir Hns].
  assert (∀ p, p ∈ objs → ∀ o, store w2 !! p = Some o ↔ store w1 !! p = Some o) as Hv2.
  { intros p Hp o. apply world_le_lookup_iff; auto. }
  split; [done |]. split; [done |]. split; [done |]. split; [done |].
  split; [| split; [| split; [| split]]].
  - intros p. rewrite Hdir. split.
    + intros [[]%elem_of_empty|[Hp (o & Ho & ?)]]. split; [done |].
      exists o. by rewrite <- Hv2.
    + intros [Hp (o & Ho & ?)]. right. split; [done |]. exists o. by rewrite Hv2.
  - intros ns. rewrite Hns. split.
    + intros [[]%elem_of_empty|[? (p & o & Hp & Ho & ?)]]. split; [done |].
      exists p, o. by rewrite <- Hv2.
    + intros [? (p & o & Hp & Ho & ?)]. right. split; [done |].
      exists p, o. by rewrite Hv2.
  - intros p. rewrite Hcl. split.
    + intros [?|[Hp (o & Ho & ?)]]; [by left |]. right. split; [done |].
      exists o. by rewrite <- Hv2.
    + intros [?|[Hp (o & Ho & ?)]]; [by left |]. right. split; [done |].
      exists o. by rewrite Hv2.
  - intros p o Hp Ho.
    destruct (Hedges p) as (o' & c & Ho' & Hres & Hin).
    { rewrite (Slice_perm children). by apply elem_of_elements. }
    pose proof (world_le_lookup _ _ _ _ Hle13 Ho) as Ho3.
    assert (o' = o) as -> by congruence. exists c. split; [| done].
    apply called_resolved; [done |].
    eapply called_mono; [exact Hle2 | reflexivity | exact Hres].
  - intros p o projName' Hproj' Hp Ho Hisp.
    assert (projName' = projName) as -> by congruence.
    destruct (Hprojs p o Hp) as (c & Hres & Hin); [by rewrite Hv2 | done |].
    exists c. split; [| eapply world_le_Relationship; [exact Hle3 | done]].
    apply called_resolved; [done |].
    eapply called_mono; [reflexivity | exact Hle3 | exact Hres].
Qed.

(** *** Runs that return *)

Section Returns.

(** The objects the dispatcher of the graph is known to resolve. *)
Variable resolvable : Unstructured → Prop.

Hypothesis graph_Unstructured_returns :
  ∀ p o wi, store wi !! p = Some o → resolvable o →
            ∃ c wj, graph_Unstructured p wi = Ret c wj.

Lemma resolveEdge_returns on n p o w :
  store w !! p = Some o → resolvable o →
  ∃ w', (childNode <- orReturn on (graph_Unstructured p);
         c <- deref p;
         graph_Relationship n (GetKind c) childNode) w = Ret tt w' ∧
        world_le w w'.
Proof using graph_Unstructured_extends graph_Unstructured_returns.
  intros Ho Hr. destruct (graph_Unstructured_returns p o w Ho Hr) as (c & w1 & Hc).
  pose proof (wp_Ret _ _ _ _ _ _ (graph_Unstructured_extends p w) Hc) as Hle.
  simpl in Hle. pose proof (world_le_lookup _ _ _ _ Hle Ho) as Ho1.
  exists (withEdge (edge n (GetKind o) c) w1). split.
  - erewrite bind_eq; [| unfold orReturn; by rewrite Hc].
    erewrite bind_eq; [| by apply deref_eq]. done.
  - etrans; [exact Hle | apply world_le_withEdge].
Qed.

Lemma trackChildren_returns n app a projName objs acc w :
  store w !! app = Some a →
  (∀ p, p ∈ objs → ∃ o, store w !! p = Some o ∧ resolvable o) →
  ∃ r w', trackChildren n app projName objs acc w = Ret r w'.
Proof using graph_Unstructured_extends graph_Unstructured_returns.
  revert acc w. induction objs as [|obj objs IH]; intros acc w Ha Hvalid; simpl.
  { by exists acc, w. }
  destruct (Hvalid obj) as (o & Ho & Hr); [by left |].
  erewrite bind_eq; [| by apply deref_eq].
  assert (∃ w1, (if isProject projName o
                 then childNode <- orReturn (Some n) (graph_Unstructured obj);
                      o0 <- deref obj;
                      graph_Relationship n (GetKind o0) childNode
                 else ret tt) w = Ret tt w1 ∧ world_le w w1) as (w1 & Hstep & Hle).
  { destruct (isProject projName o); [by apply (resolveEdge_returns _ _ _ o) |].
    by exists w. }
  erewrite bind_eq; [| exact Hstep].
  erewrite bind_eq; [| by apply deref_eq, (world_le_lookup _ _ _ _ Hle Ho)].
  erewrite bind_eq; [| by apply deref_eq, (world_le_lookup _ _ _ _ Hle Ha)].
  apply IH; [by eapply world_le_lookup |].
  intros p Hp. destruct (Hvalid p) as (o' & Ho' & Hr'); [by right |].
  exists o'. split; [by eapply world_le_lookup | done].
Qed.

Lemma closeNamespaces_returns namespaces objs children w :
  (∀ p, p ∈ objs → is_Some (store w !! p)) →
  ∃ r, closeNamespaces namespaces objs children w = Ret r w.
Proof.
  revert children. induction objs as [|obj objs IH]; intros children Hvalid; simpl.
  { by exists children. }
  destruct (Hvalid obj) as [o Ho]; [by left |].
  erewrite bind_eq; [| by apply deref_eq].
  apply IH. intros p Hp. apply Hvalid. by right.
Qed.

Lemma addChildren_returns n children w :
  (∀ p, p ∈ children → ∃ o, store w !! p = Some o ∧ resolvable o) →
  ∃ w', addChildren n children w = Ret tt w'.
Proof using graph_Unstructured_extends graph_Unstructured_returns.
  revert w. induction children as [|child children IH]; intros w Hvalid; simpl.
  { by exists w. }
  destruct (Hvalid child) as (o & Ho & Hr); [by left |].
  destruct (resolveEdge_returns (Some n) n child o w Ho Hr) as (w1 & Hstep & Hle).
  assert (addChildren n (child :: children) w = addChildren n children w1) as Heq.
  { simpl. revert Hstep. unfold bind.
    destruct (orReturn _ _ w) as [c w2| | |]; [| done..].
    destruct (deref child w2) as [o2 w3| | |]; [| done..].
    by intros ->. }
  simpl in Heq. rewrite Heq. apply IH.
  intros p Hp. destruct (Hvalid p) as (o' & Ho' & Hr'); [by right |].
  exists o'. split; [by eapply world_le_lookup | done].
Qed.

(** When the discovery succeeds and the dispatcher of the graph resolves
    every object the cluster lists, the resolution of an Application with
    a well-formed spec returns. *)
Lemma Application_returns app w a projName apiResources :
  store w !! app = Some a → spec_project a = Some projName →
  ServerPreferredResources cluster = (apiResources, None) →
  (∀ o, o ∈ concatenation ParseGroupVersion cluster apiResources → resolvable o) →
  ∃ n w', Application app w = Ret n w'.
Proof using All.
  intros Ha Hspec Hdisc Hall. rewrite <- assert_spec_project in Hspec.
  set (n := nodeOf (GroupVersionKindOf a) a).
  set (w0 := {| store := store w; graph := addNode n (graph w) |}).
  pose proof (getAllObjects_run w0) as H. rewrite Hdisc in H.
  destruct H as (objs & st' & Hobjs & Hpre & _ & _ & Hcont).
  set (w1 := {| store := st'; graph := graph w0 |}) in *.
  assert (∀ p, p ∈ objs → ∃ o, store w1 !! p = Some o ∧ resolvable o) as Hvalid.
  { intros p Hp.
    assert (st' !! p ∈ (λ p, st' !! p) <$> objs) as Hin
      by (by apply (list_elem_of_fmap_2 (λ p, st' !! p))).
    rewrite Hcont in Hin. apply list_elem_of_fmap in Hin as (o & Ho & Hin).
    exists o. split; [done | by apply Hall]. }
  assert (store w1 !! app = Some a) as Ha1.
  { eapply prefix_lookup_Some; [exact Ha | exact Hpre]. }
  destruct (trackChildren_returns n app a projName objs (∅, ∅) w1 Ha1 Hvalid)
    as ([direct namespaces] & w2 & Htrack).
  destruct (wp_Ret _ _ _ _ _ _ (trackChildren_spec _ _ _ _ _ _) Htrack)
    as (Hle2 & _ & Hchar & _); simpl in *.
  destruct (Hchar a (world_le_lookup _ _ _ _ Hle2 Ha1)) as [Hdir _].
  destruct (closeNamespaces_returns namespaces objs direct w2) as [children Hclose].
  { intros p Hp. destruct (Hvalid p Hp) as (o & Ho & _).
    exists o. by eapply world_le_lookup. }
  destruct (wp_Ret _ _ _ _ _ _ (closeNamespaces_spec _ _ _ _) Hclose) as [_ Hcl].
  destruct (addChildren_returns n (Slice children) w2) as [w' Hadd].
  { intros p Hp. rewrite (Slice_perm children) in Hp. apply elem_of_elements in Hp.
    assert (p ∈ objs) as Hobj.
    { apply Hcl in Hp as [Hp|[Hp _]]; [| done].
      by apply Hdir in Hp as [[]%elem_of_empty|[Hp _]]. }
    destruct (Hvalid p Hobj) as (o & Ho & Hr).
    exists o. split; [by eapply world_le_lookup | done]. }
  exists n, w'. unfold ApplicationV1alpha1Graph.Application.
  erewrite bind_eq; [| unfold graph_Node; erewrite bind_eq; [| by apply deref_eq]; done].
  erewrite bind_eq; [| by apply deref_eq].
  destruct (assertMap (index (Object a) "spec")) as [spec|]; [| done]. simpl in Hspec.
  rewrite Hspec.
  erewrite bind_eq; [| exact Hobjs]. simpl.
  erewrite bind_eq; [| exact Htrack]. simpl.
  erewrite bind_eq; [| exact Hclose].
  erewrite bind_eq; [| exact Hadd]. done.
Qed.

End Returns.

(** *** The loops of the ApplicationSet resolver *)

Lemma matchOwners_spec n appset obj ownerReferences w :
  wp (matchOwners n appset obj ownerReferences) w
    (λ _ w',
       world_le w w' ∧
       (∀ ownerRef, ownerRef ∈ ownerReferences →
          ∃ s, store w !! appset = Some s ∧
               (ownerRef_UID ownerRef = GetUID s →
                ∃ o c, store w' !! obj = Some o ∧ called graph_Unstructured w w' obj c ∧
                       edge n (GetKind o) c ∈ Relationships (graph w'))) ∧
       (∀ r, r ∈ Relationships (graph w') →
          r ∈ Relationships (graph w) ∨
          ∃ s o ownerRef,
            store w !! appset = Some s ∧ store w' !! obj = Some o ∧
            ownerRef ∈ ownerReferences ∧ ownerRef_UID ownerRef = GetUID s ∧
            ((∃ c, r = edge n (GetKind o) c ∧ called graph_Unstructured w w' obj c) ∨
             addedIn graph_Unstructured w w' obj r)))
    (λ n' e w', n' = None ∧ world_le w w' ∧
                ∃ x wi, graph_Unstructured obj wi = Raise x e w').
Proof using graph_Unstructured_extends.
  clear Slice_perm mapRange_perm. clear ParseGroupVersion cluster mapRange Slice.
  revert w. induction ownerReferences as [|ownerRef rest IH]; intros w; simpl.
  { apply wp_ret. split; [done |]. split; [by intros ? ?%elem_of_nil | by left]. }
  apply wp_bind, wp_deref. intros s Hs. apply wp_bind.
  apply (wp_mono _ _
           (λ _ w1,
              world_le w w1 ∧
              (ownerRef_UID ownerRef = GetUID s →
               ∃ o c, store w1 !! obj = Some o ∧ called graph_Unstructured w w1 obj c ∧
                      edge n (GetKind o) c ∈ Relationships (graph w1)) ∧
              (∀ r, r ∈ Relationships (graph w1) →
                 r ∈ Relationships (graph w) ∨
                 (ownerRef_UID ownerRef = GetUID s ∧
                  ∃ o, store w1 !! obj = Some o ∧
                       ((∃ c, r = edge n (GetKind o) c ∧
                              called graph_Unstructured w w1 obj c) ∨
                        addedIn graph_Unstructured w w1 obj r))))
           _
           (λ n' e w', n' = None ∧ world_le w w' ∧
                       ∃ x wi, graph_Unstructured obj wi = Raise x e w')).
  - case_decide as Huid.
    + eapply wp_mono; [apply wp_resolveEdge | |]; simpl.
      * intros _ w' (c & w1 & o & Hc & Hle & Ho & ->).
        assert (called graph_Unstructured w (withEdge (edge n (GetKind o) c) w1) obj c)
          as Hcall by (eapply called_here; [exact Hc | apply world_le_withEdge]).
        split; [| split].
        -- etrans; [exact Hle | apply world_le_withEdge].
        -- intros _. exists o, c. split; [done |]. split; [done |].
           apply elem_of_withEdge.
        -- intros r [->|Hr]%elem_of_addRelationship.
           ++ right. split; [done |]. exists o. split; [done |]. left.
              by exists c.
           ++ destruct (decide (r ∈ Relationships (graph w))) as [|Hnew]; [by left |].
              right. split; [done |]. exists o. split; [done |]. right.
              exists w, c, w1. split; [done |]. split; [done |].
              split; [apply world_le_withEdge | done].
      * intros n' e w' (-> & Hle & x & Hx). split; [done |]. split; [done |].
        by exists x, w.
    + apply wp_ret. split; [done |]. split; [done | by left].
  - intros _ w1 (Hle & Hedge & Hnew).
    eapply wp_mono; [apply (IH w1) | |]; simpl.
    + intros _ w' (Hle' & Hall & Hnew'). split; [by etrans |]. split.
      * intros ref [->|Hin]%elem_of_cons.
        -- exists s. split; [done |]. intros Huid.
           destruct (Hedge Huid) as (o & c & Ho & Hres & Hin).
           exists o, c. split; [by eapply world_le_lookup |].
           split; [| by eapply world_le_Relationship].
           eapply called_mono; [reflexivity | exact Hle' | exact Hres].
        -- destruct (Hall ref Hin) as (s' & Hs' & Hcase).
           pose proof (world_le_lookup _ _ _ _ Hle Hs) as Hs1.
           assert (s' = s) as -> by congruence. exists s. split; [done |].
           intros Huid. destruct (Hcase Huid) as (o & c & Ho & Hres & Hin').
           exists o, c. split; [done |]. split; [| done].
           eapply called_mono; [exact Hle | reflexivity | exact Hres].
      * intros r Hr. destruct (Hnew' r Hr) as [Hr1|(s' & o & ref & Hs' & Ho & Hin & Huid & Hcase)].
        -- destruct (Hnew r Hr1) as [?|(Huid & o & Ho & Hcase)]; [by left |].
           right. exists s, o, ownerRef. split; [done |].
           split; [by eapply world_le_lookup |]. split; [by left |]. split; [done |].
           eapply edgeCase_mono; [reflexivity | exact Hle' | exact Hcase].
        -- pose proof (world_le_lookup _ _ _ _ Hle Hs) as Hs1.
           assert (s' = s) as -> by congruence.
           right. exists s, o, ref. split; [done |]. split; [done |].
           split; [by right |]. split; [done |].
           eapply edgeCase_mono; [exact Hle | reflexivity | exact Hcase].
    + intros n' e w' (-> & Hle' & x & wi & Hx). split; [done |].
      split; [by etrans |]. by exists x, wi.
  - simpl. intros n' e w' (-> & Hle & x & wi & Hx). split; [done |].
    split; [done |]. by exists x, wi.
Qed.

Lemma ownedApplications_spec n appset objs w :
  wp (ownedApplications n appset objs) w
    (λ _ w',
       world_le w w' ∧
       (∀ s p o, store w' !! appset = Some s → p ∈ objs → store w' !! p = Some o →
                 owned s o →
                 ∃ c, called graph_Unstructured w w' p c ∧
                      edge n (GetKind o) c ∈ Relationships (graph w')) ∧
       (∀ r, r ∈ Relationships (graph w') →
          r ∈ Relationships (graph w) ∨
          ∃ s p o,
            store w' !! appset = Some s ∧ p ∈ objs ∧ store w' !! p = Some o ∧
            owned s o ∧
            ((∃ c, r = edge n (GetKind o) c ∧ called graph_Unstructured w w' p c) ∨
             addedIn graph_Unstructured w w' p r)))
    (λ n' e w', n' = None ∧ world_le w w' ∧
                ∃ p x wi, p ∈ objs ∧ graph_Unstructured p wi = Raise x e w').
Proof using graph_Unstructured_extends.
  clear Slice_perm mapRange_perm. clear ParseGroupVersion cluster mapRange Slice.
  revert w. induction objs as [|obj objs IH]; intros w; simpl.
  { apply wp_ret. split; [done |]. split; [by intros ? ? ? ? ?%elem_of_nil | by left]. }
  apply wp_bind, wp_deref. intros o0 Ho0. apply wp_bind.
  eapply wp_mono; [apply matchOwners_spec | |]; simpl.
  - intros _ w1 (Hle & Hedge & Hnew).
    eapply wp_mono; [apply (IH w1) | |]; simpl.
    + intros _ w' (Hle' & Hall & Hnew').
      assert (world_le w w') as Hle2 by (by etrans).
      pose proof (world_le_lookup _ _ _ _ Hle2 Ho0) as Ho2.
      split; [done |]. split.
      * intros s p o Hs [->|Hin]%elem_of_cons Ho Hown.
        2:{ destruct (Hall s p o Hs Hin Ho Hown) as (c & Hres & Hr).
            exists c. split; [| done].
            eapply called_mono; [exact Hle | reflexivity | exact Hres]. }
        assert (o = o0) as -> by congruence.
        destruct Hown as (ref & Href & Huid).
        destruct (Hedge ref Href) as (s0 & Hs0 & Hcase).
        pose proof (world_le_lookup _ _ _ _ Hle2 Hs0) as Hs2.
        assert (s0 = s) as -> by congruence.
        destruct (Hcase Huid) as (o & c & Ho1 & Hres & Hr).
        pose proof (world_le_lookup _ _ _ _ Hle' Ho1) as Ho1'.
        assert (o = o0) as -> by congruence.
        exists c. split; [| eapply world_le_Relationship; [exact Hle' | done]].
        eapply called_mono; [reflexivity | exact Hle' | exact Hres].
      * intros r Hr. destruct (Hnew' r Hr) as [Hr1|(s & p & o & Hs & Hp & Ho & Hown & Hcase)].
        -- destruct (Hnew r Hr1) as [?|(s & o & ref & Hs & Ho & Href & Huid & Hcase)];
             [by left |].
           pose proof (world_le_lookup _ _ _ _ Hle' Ho) as Ho'.
           assert (o = o0) as -> by congruence.
           right. exists s, obj, o0. split; [by eapply world_le_lookup |].
           split; [by left |]. split; [done |]. split; [by exists ref |].
           eapply edgeCase_mono; [reflexivity | exact Hle' | exact Hcase].
        -- right. exists s, p, o. split; [done |]. split; [by right |].
           split; [done |]. split; [done |].
           eapply edgeCase_mono; [exact Hle | reflexivity | exact Hcase].
    + intros n' e w' (-> & Hle' & p & x & wi & Hp & Hx). split; [done |].
      split; [by etrans |]. exists p, x, wi. split; [by right | done].
  - intros n' e w' (-> & Hle & x & wi & Hx). split; [done |]. split; [done |].
    exists obj, x, wi. split; [by left | done].
Qed.

(** *** The objects on which the dispatcher is called *)

(** The loops call the dispatcher on some objects only: run with another
    dispatcher that does on those objects what this one does, they do
    the same. *)
Lemma resolveEdge_agree (g' : ptr → M Node) on n p w :
  g' p w = graph_Unstructured p w →
  (childNode <- orReturn on (g' p);
   c <- deref p;
   graph_Relationship n (GetKind c) childNode) w
  = (childNode <- orReturn on (graph_Unstructured p);
     c <- deref p;
     graph_Relationship n (GetKind c) childNode) w.
Proof. intros H. unfold bind, orReturn. by rewrite H. Qed.

Lemma extends_resolveEdge on n p :
  extends (childNode <- orReturn on (graph_Unstructured p);
           c <- deref p;
           graph_Relationship n (GetKind c) childNode).
Proof using graph_Unstructured_extends.
  apply extends_bind; [by apply extends_orReturn |]. intros childNode.
  apply extends_bind; [apply extends_deref |]. intros o.
  apply extends_graph_Relationship.
Qed.

Lemma trackChildren_agree (g' : ptr → M Node) n app projName objs acc w :
  (∀ p o wi, p ∈ objs → world_le w wi → store wi !! p = Some o →
             isProject projName o → g' p wi = graph_Unstructured p wi) →
  ApplicationV1alpha1Graph.trackChildren g' n app projName objs acc w
  = trackChildren n app projName objs acc w.
Proof using graph_Unstructured_extends.
  clear Slice_perm mapRange_perm. clear ParseGroupVersion cluster mapRange Slice.
  revert acc w. induction objs as [|obj objs IH]; intros acc w Hagree; simpl; [done |].
  apply bind_agree; [done |]. intros o w0 [-> Ho]%deref_Ret.
  apply bind_agree.
  { destruct (isProject projName o) eqn:Hisp; [| done].
    apply resolveEdge_agree, (Hagree obj o w); [by left | done | done |].
    by rewrite Hisp. }
  intros [] w1 Hstep.
  assert (world_le w w1) as Hle.
  { destruct (isProject projName o).
    - exact (wp_Ret _ _ _ _ _ _ (extends_resolveEdge _ _ _ w) Hstep).
    - by injection Hstep as <-. }
  apply bind_agree; [done |]. intros o' w2 [-> _]%deref_Ret.
  apply bind_agree; [done |]. intros a w3 [-> _]%deref_Ret.
  apply IH. intros p o2 wi Hp Hlei. apply Hagree; [by right | by etrans].
Qed.

Lemma addChildren_agree (g' : ptr → M Node) n children w :
  (∀ p wi, p ∈ children → world_le w wi → g' p wi = graph_Unstructured p wi) →
  ApplicationV1alpha1Graph.addChildren g' n children w = addChildren n children w.
Proof using graph_Unstructured_extends.
  clear Slice_perm mapRange_perm. clear ParseGroupVersion cluster mapRange Slice.
  revert w. induction children as [|child children IH]; intros w Hagree; simpl; [done |].
  apply bind_agree.
  { unfold orReturn. rewrite (Hagree child w); [done | by left | done]. }
  intros c w1 Hc.
  pose proof (wp_Ret _ _ _ _ _ _
                (extends_orReturn (Some n) _ (graph_Unstructured_extends child) w) Hc)
    as Hle.
  apply bind_agree; [done |]. intros o w2 [-> _]%deref_Ret.
  apply bind_agree; [done |]. intros [] w3 [= <-].
  apply IH. intros p wi Hp Hlei. apply Hagree; [by right |].
  etrans; [exact Hle |]. etrans; [| exact Hlei]. apply world_le_withEdge.
Qed.



(** The one list call of an ApplicationSet resolution. *)
Lemma getChildApplications_run w :
  getChildApplications w =
  match List cluster applicationsGVR with
  | inl items =>
      Ret (seq (length (store w)) (length items), None)
          {| store := store w ++ items; graph := graph w |}
  | inr e => Ret ([], Some e) w
  end.
Proof using mapRange_perm.
  unfold ApplicationV1alpha1Graph.getChildApplications, bind.
  rewrite getObjectsForAResource_run. unfold listed.
  destruct (List cluster applicationsGVR) as [items|e].
  - pose proof (mapRange_perm
                  (<[gvr_String applicationsGVR :=
                       seq (length (store w)) (length items)]> ∅)) as Hperm.
    rewrite insert_empty, map_to_list_singleton in Hperm. simpl in Hperm.
    apply Permutation_singleton_r in Hperm. rewrite insert_empty, Hperm.
    unfold ret; simpl. by rewrite app_nil_r.
  - unfold ret. destruct w. simpl. by rewrite app_nil_r.
Qed.

(** *** The ApplicationSet resolver *)


(** *** Failures *)

(** C5, as amended.  An Application whose [spec.project] is missing or is
    not a string makes the resolver panic on the failed type assertion:
    no error value is returned to the caller. *)
Theorem Application_malformed_spec app w a :
  store w !! app = Some a → spec_project a = None →
  Application app w = Panic.
Proof.
  intros Ha Hspec. rewrite <- assert_spec_project in Hspec.
  unfold ApplicationV1alpha1Graph.Application, graph_Node, bind, deref; simpl. rewrite Ha; simpl.
  rewrite Ha.
  destruct (assertMap (index (Object a) "spec")) as [spec|]; [| done].
  simpl in Hspec. by rewrite Hspec.
Qed.

Lemma getAllObjects_Raise w n e w' : getAllObjects w = Raise n e w' → False.
Proof using mapRange_perm.
  intros Hrun. pose proof (getAllObjects_run w) as H.
  destruct (ServerPreferredResources cluster) as [apiResources [err|]].
  - rewrite H in Hrun. discriminate.
  - destruct H as (objs & st' & H & _). rewrite H in Hrun. discriminate.
Qed.

(** The third loop stops at the first child whose resolution fails. *)
Lemma addChildren_abort n done_ p rest w w1 x e w2 :
  addChildren n done_ w = Ret tt w1 →
  graph_Unstructured p w1 = Raise x e w2 →
  addChildren n (done_ ++ p :: rest) w = Raise (Some n) e w2.
Proof.
  revert w. induction done_ as [|child children IH]; intros w Hdone Hp; simpl in *.
  - injection Hdone as ->. unfold bind, orReturn. by rewrite Hp.
  - revert Hdone. unfold bind.
    destruct (orReturn _ _ w) as [c w3| | |]; [| done..].
    destruct (deref child w3) as [o w4| | |]; [| done..].
    destruct (graph_Relationship n (GetKind o) c w4) as [[] w5| | |] eqn:Hrel; [| done..].
    intros Hdone. by apply IH.
Qed.

(** C6, as amended.  For an Application with a well-formed spec: when the
    harvest fails, its error is returned and no node with it; when the
    harvest succeeds, an error the resolution returns is the error with
    which a call of the dispatcher on an object of the universe, made
    after the harvest, ended, nothing is done after it, and the node of
    the Application is returned with it; the resolution does not return
    normally when a tracked object of the universe cannot be resolved
    after the harvest; and the loop over the children stops at the first
    child whose resolution fails, with the node and that error. *)
Theorem Application_failure app w a projName :
  store w !! app = Some a → spec_project a = Some projName →
  let n := nodeOf (GroupVersionKindOf a) a in
  let w0 := {| store := store w; graph := addNode n (graph w) |} in
  (∀ l err, ServerPreferredResources cluster = (l, Some err) →
            Application app w = Raise None err w0) ∧
  (∀ l n' e w', ServerPreferredResources cluster = (l, None) →
                Application app w = Raise n' e w' →
                n' = Some n ∧
                ∃ objs w1 p x wi,
                  getAllObjects w0 = Ret (objs, None) w1 ∧ p ∈ objs ∧
                  world_le w1 wi ∧ graph_Unstructured p wi = Raise x e w') ∧
  (∀ objs w1 p o, getAllObjects w0 = Ret (objs, None) w1 →
                  p ∈ objs → store w1 !! p = Some o → tracked (GetName a) o →
                  (∀ wi c wj, world_le w1 wi → graph_Unstructured p wi ≠ Ret c wj) →
                  ∀ n' w', Application app w ≠ Ret n' w') ∧
  (∀ done_ p rest w2 w3 x e w4,
     addChildren n done_ w2 = Ret tt w3 →
     graph_Unstructured p w3 = Raise x e w4 →
     addChildren n (done_ ++ p :: rest) w2 = Raise (Some n) e w4).
Proof using graph_Unstructured_extends Slice_perm mapRange_perm.
  intros Ha Hspec n w0. rewrite <- assert_spec_project in Hspec.
  assert (graph_Node app w = Ret n w0) as Hnode.
  { unfold graph_Node, bind, deref. by rewrite Ha. }
  assert (∀ r, Application app w = r →
               r = ('(objs, err) <- getAllObjects;
                    match err with
                    | Some e => raise None e
                    | None =>
                        '(children, namespaces) <-
                          trackChildren n app projName objs (∅, ∅);
                        children <- closeNamespaces namespaces objs children;
                        addChildren n (Slice children);; ret n
                    end) w0) as Hbody.
  { intros r <-. unfold ApplicationV1alpha1Graph.Application. unfold bind at 1. rewrite Hnode.
    unfold bind at 1, deref. subst w0; simpl. rewrite Ha.
    destruct (assertMap (index (Object a) "spec")) as [spec|]; [| done].
    simpl in Hspec. by rewrite Hspec. }
  split; [| split; [| split]]; [| | | by intros; eapply addChildren_abort].
  - intros l err Hdisc. rewrite (Hbody _ eq_refl).
    pose proof (getAllObjects_run w0) as H. rewrite Hdisc in H.
    unfold bind. by rewrite H.
  - intros l n' e w' Hdisc Hrun. rewrite (Hbody _ eq_refl) in Hrun.
    pose proof (getAllObjects_run w0) as H. rewrite Hdisc in H.
    destruct H as (objs & st' & H & _).
    unfold bind at 1 in Hrun. rewrite H in Hrun.
    set (w1 := {| store := st'; graph := graph w0 |}) in *.
    assert (store w1 !! app = Some a) as Ha1.
    { eapply (world_le_lookup w0); [| done].
      exact (wp_Ret _ _ _ _ _ _ (extends_getAllObjects w0) H). }
    apply bind_Raise in Hrun as [Hrun|([direct namespaces] & w2 & Htrack & Hrun)].
    { destruct (wp_Raise _ _ _ _ _ _ _ (trackChildren_spec _ _ _ _ _ _) Hrun)
        as (-> & _ & p & x & wi & Hp & Hlei & Hx).
      split; [done |]. by exists objs, w1, p, x, wi. }
    destruct (wp_Ret _ _ _ _ _ _ (trackChildren_spec _ _ _ _ _ _) Htrack)
      as (Hle2 & _ & Hchar & _); simpl in *.
    apply bind_Raise in Hrun as [Hrun|(children & w2' & Hclose & Hrun)].
    { destruct (wp_Raise _ _ _ _ _ _ _ (closeNamespaces_spec _ _ _ _) Hrun). }
    destruct (wp_Ret _ _ _ _ _ _ (closeNamespaces_spec _ _ _ _) Hclose) as [-> Hcl].
    apply bind_Raise in Hrun as [Hrun|([] & w3 & _ & Hrun)]; [| done].
    destruct (wp_Raise _ _ _ _ _ _ _ (addChildren_spec _ _ _) Hrun)
      as (-> & _ & p & x & wi & Hp & Hlei & Hx).
    split; [done |]. exists objs, w1, p, x, wi. split; [done |].
    split; [| split; [by etrans | done]].
    rewrite (Slice_perm children) in Hp. apply elem_of_elements in Hp.
    destruct (Hchar a (world_le_lookup _ _ _ _ Hle2 Ha1)) as [Hdir _].
    apply Hcl in Hp as [Hp|[Hp _]]; [| done].
    by apply Hdir in Hp as [[]%elem_of_empty|[Hp _]].
  - intros objs w1 p o Hobjs Hp Ho Htr Hnever n' w' Hret.
    apply Application_Ret in Hret
      as (a' & objs' & w1' & direct & namespaces & children & Hrun).
    destruct (ApplicationRun_facts _ _ _ _ _ _ _ _ _ _ Hrun)
      as (_ & _ & _ & _ & Hdir & _ & Hch & Hedges & _).
    destruct Hrun as (projName' & w0' & w2 & Ha' & Hnode' & _ & Hobjs' & _).
    assert (a' = a) as -> by congruence.
    rewrite Hnode in Hnode'. injection Hnode' as <- <-.
    rewrite Hobjs in Hobjs'. injection Hobjs' as <- <-.
    destruct (Hedges p o) as (c & (wi & wj & Hlei & _ & Hres & _) & _); [| done |].
    + apply Hch. left. apply Hdir. eauto.
    + by apply (Hnever wi c wj).
Qed.

(** *** The universe *)

(** C8.  When the discovery succeeds, the harvest returns pairwise
    distinct addresses, and what they point to is, up to the order, the
    concatenation of the per-type list results; in particular every
    object returned by a successful list call is in the universe. *)
Theorem getAllObjects_concatenation apiResources w :
  ServerPreferredResources cluster = (apiResources, None) →
  ∃ objs w',
    getAllObjects w = Ret (objs, None) w' ∧
    NoDup objs ∧
    (λ p, store w' !! p) <$> objs
    ≡ₚ Some <$> concatenation ParseGroupVersion cluster apiResources ∧
    (∀ apiResource api items o,
       apiResource ∈ apiResources → api ∈ APIResources apiResource →
       api_Kind api ≠ "Event" →
       List cluster (gvrOf apiResource (api_Name api)) = inl items → o ∈ items →
       ∃ p, p ∈ objs ∧ store w' !! p = Some o).
Proof using mapRange_perm.
  intros Hdisc. pose proof (getAllObjects_run w) as H. rewrite Hdisc in H.
  destruct H as (objs & st' & Hrun & _ & Hnd & _ & Hcont).
  exists objs, {| store := st'; graph := graph w |}. simpl.
  split; [done |]. split; [done |]. split; [done |].
  intros apiResource api items o Hgroup Hapi Hkind Hlist Ho.
  assert (Some o ∈ (λ p, st' !! p) <$> objs) as Hin.
  { rewrite Hcont. apply list_elem_of_fmap_2.
    unfold concatenation. apply list_elem_of_join.
    eexists. split; [| by apply (list_elem_of_fmap_2 _ _ apiResource)].
    apply list_elem_of_join. exists items. split; [done |].
    apply list_elem_of_fmap. exists (api_Name api). split.
    - unfold listed. by rewrite Hlist.
    - apply elem_of_remove_dups, list_elem_of_fmap_2.
      by apply list_elem_of_filter. }
  apply list_elem_of_fmap in Hin as (p & Hp & Hin). by exists p.
Qed.

(** *** The Application resolver: tracked children and their edges *)




(** C10.  The first loop of the resolver never puts the empty namespace
    into the set, from whatever state it is run; so when the resolution
    of an Application returns, the recorded namespaces do not contain the
    empty string, and an object added by the second loop alone is not
    cluster-scoped. *)
Theorem Application_namespaces_nonempty app w n w' :
  Application app w = Ret n w' →
  (∀ n0 app0 projName objs acc w0 r w0',
     trackChildren n0 app0 projName objs acc w0 = Ret r w0' →
     "" ∉ snd acc → "" ∉ snd r) ∧
  ∃ a objs w1 direct namespaces children,
    ApplicationRun app w n w' a objs w1 direct namespaces children ∧
    ("" ∉ namespaces) ∧
    (∀ p o, p ∈ children → p ∉ direct → store w1 !! p = Some o →
            GetNamespace o ≠ "").
Proof using graph_Unstructured_extends Slice_perm mapRange_perm.
  intros Hret. split.
  { intros n0 app0 projName objs acc w0 r w0' Hrun Hacc Hr.
    destruct (wp_Ret _ _ _ _ _ _ (trackChildren_spec _ _ _ _ _ _) Hrun)
      as (_ & Hinv & _).
    by destruct (Hinv _ Hr). }
  apply Application_Ret in Hret
    as (a & objs & w1 & direct & namespaces & children & Hrun).
  exists a, objs, w1, direct, namespaces, children. split; [done |].
  destruct (ApplicationRun_facts _ _ _ _ _ _ _ _ _ _ Hrun)
    as (_ & _ & _ & _ & _ & Hns & Hch & _).
  assert ("" ∉ namespaces) as Hempty.
  { rewrite Hns. by intros [? _]. }
  split; [done |].
  intros p o [?|[_ (o' & Ho' & Hin)]]%Hch Hnd Ho Heq; [done |].
  simplify_eq. by rewrite Heq in Hin.
Qed.

(** *** More on the harvest *)

(** One list call writes the slot of its own resource type and no other:
    the slot holds the addresses of fresh copies of the items, in the
    order of the list; a failed call resets the slot to the empty slice,
    whatever it held, returns the error of the list call and changes
    nothing else.  The graph is not touched. *)
Theorem getObjectsForAResource_slot gvr results w :
  ∃ results' err w',
    getObjectsForAResource gvr results w = Ret (results', err) w' ∧
    graph w' = graph w ∧
    store w' = store w ++ listed cluster gvr ∧
    (∀ k, k ≠ gvr_String gvr → results' !! k = results !! k) ∧
    (∃ ptrs, results' !! gvr_String gvr = Some ptrs ∧
             (λ p, store w' !! p) <$> ptrs = Some <$> listed cluster gvr ∧
             ∀ p, p ∈ ptrs → store w !! p = None) ∧
    match List cluster gvr with
    | inl _ => err = None
    | inr e => err = Some e ∧ results' !! gvr_String gvr = Some [] ∧ w' = w
    end.
Proof.
  rewrite getObjectsForAResource_run. eexists _, _, _. split; [done |]. simpl.
  split; [done |]. split; [done |]. split; [| split].
  - intros k Hk. by rewrite lookup_insert_ne.
  - eexists. split; [apply lookup_insert_eq |]. split; [apply lookup_fresh |].
    intros p Hp%elem_of_seq. apply lookup_ge_None. lia.
  - unfold listed. destruct (List cluster gvr) as [items|e]; [done |]. simpl.
    split; [done |]. split; [apply lookup_insert_eq |].
    destruct w; simpl. by rewrite app_nil_r.
Qed.

(** The harvest of an ApplicationSet: when the Applications can be
    listed, it returns the addresses of fresh copies of them in the order
    of the list, whatever the order in which the result map is visited,
    and leaves the graph alone; when they cannot, it returns the empty
    slice with the error and changes nothing. *)
Theorem getChildApplications_order w :
  match List cluster applicationsGVR with
  | inl items =>
      ∃ objs w',
        getChildApplications w = Ret (objs, None) w' ∧
        graph w' = graph w ∧ store w' = store w ++ items ∧
        (λ p, store w' !! p) <$> objs = Some <$> items ∧
        NoDup objs ∧ ∀ p, p ∈ objs → store w !! p = None
  | inr e => getChildApplications w = Ret ([], Some e) w
  end.
Proof using mapRange_perm.
  rewrite getChildApplications_run.
  destruct (List cluster applicationsGVR) as [items|e]; [| done].
  eexists _, _. split; [done |]. simpl. split; [done |]. split; [done |].
  split; [apply lookup_fresh |]. split; [apply NoDup_seq |].
  intros p Hp%elem_of_seq. apply lookup_ge_None. lia.
Qed.

(** The outer loop, group by group: the universe is the concatenation,
    in the order of the catalog, of one block per group. *)
Lemma listGroups_blocks apiResources objs w :
  ∃ blocks st',
    listGroups apiResources objs w
    = Ret (objs ++ mjoin blocks) {| store := st'; graph := graph w |} ∧
    store w `prefix_of` st' ∧
    Forall2 (λ block apiResource,
               (λ p, st' !! p) <$> block
               ≡ₚ Some <$> mjoin ((λ name, listed cluster (gvrOf apiResource name))
                                   <$> harvestedNames apiResource))
            blocks apiResources.
Proof using mapRange_perm.
  revert objs w. induction apiResources as [|apiResource rest IH]; intros objs w.
  { exists [], (store w). simpl. rewrite app_nil_r. destruct w. simpl.
    split; [done |]. split; [done | constructor]. }
  destruct (listGroup_run apiResource (APIResources apiResource) [] (length (store w)) ∅ w)
    as (results & st1 & Hrun & Hpre & Hh); [apply harvested_empty | done |].
  rewrite app_nil_r in Hh.
  destruct (IH (objs ++ mjoin (mapRange results)) {| store := st1; graph := graph w |})
    as (blocks & st' & Hrest & Hpre' & Hall).
  simpl in *. exists (mjoin (mapRange results) :: blocks), st'.
  split; [| split].
  - unfold bind at 1. rewrite Hrun. simpl. by rewrite app_assoc.
  - by etrans.
  - constructor; [| done].
    assert ((λ p, st' !! p) <$> mjoin (mapRange results)
            = (λ p, st1 !! p) <$> mjoin (mapRange results)) as ->.
    { apply list_fmap_ext. intros i p Hp.
      symmetry. apply prefix_lookup_lt; [| done].
      assert (p ∈ mjoin (mapRange results)) as Hin by (by eapply list_elem_of_lookup_2).
      rewrite (mapRange_perm results) in Hin.
      by eapply harvested_range. }
    rewrite (mapRange_perm results). by eapply harvested_contents.
Qed.

(** The order of the universe is fixed between the groups of the
    catalog: the objects of an earlier group come before those of a later
    one, and the block of a group holds, up to the order, what the list
    calls for its resource types returned. *)
Theorem getAllObjects_group_order apiResources w :
  ServerPreferredResources cluster = (apiResources, None) →
  ∃ blocks w',
    getAllObjects w = Ret (mjoin blocks, None) w' ∧
    Forall2 (λ block apiResource,
               (λ p, store w' !! p) <$> block
               ≡ₚ Some <$> mjoin ((λ name, listed cluster (gvrOf apiResource name))
                                   <$> harvestedNames apiResource))
            blocks apiResources.
Proof using mapRange_perm.
  intros Hdisc. unfold ApplicationV1alpha1Graph.getAllObjects. rewrite Hdisc.
  destruct (listGroups_blocks apiResources [] w) as (blocks & st' & Hrun & _ & Hall).
  exists blocks, {| store := st'; graph := graph w |}. split; [| done].
  unfold bind. by rewrite Hrun.
Qed.

Lemma getAllObjects_graph w r w1 : getAllObjects w = Ret r w1 → graph w1 = graph w.
Proof using mapRange_perm.
  intros Hrun. pose proof (getAllObjects_run w) as H.
  destruct (ServerPreferredResources cluster) as [apiResources [err|]].
  - rewrite H in Hrun. by injection Hrun as <- <-.
  - destruct H as (objs & st' & H & _). rewrite H in Hrun. by injection Hrun as <- <-.
Qed.

(** Nothing is kept between two harvests: the second one lists the
    cluster again and returns addresses of its own, none of which the
    first one returned, that point to the same objects up to the order;
    the addresses of a harvest were not in use before it, and the graph
    is what it was. *)
Theorem getAllObjects_no_cache apiResources w :
  ServerPreferredResources cluster = (apiResources, None) →
  ∃ objs1 w1 objs2 w2,
    getAllObjects w = Ret (objs1, None) w1 ∧
    getAllObjects w1 = Ret (objs2, None) w2 ∧
    (∀ p, p ∈ objs1 → store w !! p = None) ∧
    (∀ p, p ∈ objs1 → p ∉ objs2) ∧
    (λ p, store w2 !! p) <$> objs1 ≡ₚ (λ p, store w2 !! p) <$> objs2 ∧
    graph w2 = graph w.
Proof using mapRange_perm.
  intros Hdisc. pose proof (getAllObjects_run w) as H1. rewrite Hdisc in H1.
  destruct H1 as (objs1 & st1 & Hrun1 & Hpre1 & _ & Hr1 & Hc1).
  pose proof (getAllObjects_run {| store := st1; graph := graph w |}) as H2.
  rewrite Hdisc in H2. destruct H2 as (objs2 & st2 & Hrun2 & Hpre2 & _ & Hr2 & Hc2).
  simpl in *. eexists objs1, _, objs2, _.
  split; [exact Hrun1 |]. split; [exact Hrun2 |]. simpl.
  split; [| split; [| split; [| done]]].
  - intros p Hp. apply lookup_ge_None. apply Hr1 in Hp. lia.
  - intros p Hp1 Hp2. apply Hr1 in Hp1. apply Hr2 in Hp2. lia.
  - assert ((λ p, st2 !! p) <$> objs1 = (λ p, st1 !! p) <$> objs1) as ->.
    { apply list_fmap_ext. intros i p Hp.
      symmetry. apply prefix_lookup_lt; [| done].
      apply Hr1. by eapply list_elem_of_lookup_2. }
    by rewrite Hc1, Hc2.
Qed.

(** *** The edges of an Application, and only those *)

Lemma elem_of_addNode n g : n ∈ Nodes (addNode n g).
Proof.
  unfold addNode. case_decide; simpl; [done |].
  apply elem_of_app. right. by apply list_elem_of_singleton.
Qed.

Lemma wp_resolveEdge_only on n p w :
  wp (childNode <- orReturn on (graph_Unstructured p);
      c <- deref p;
      graph_Relationship n (GetKind c) childNode) w
    (λ _ w', ∃ o, store w' !! p = Some o ∧ world_le w w' ∧
                  ∀ r, r ∈ Relationships (graph w') →
                       r ∈ Relationships (graph w) ∨
                       ((∃ c, r = edge n (GetKind o) c ∧
                              called graph_Unstructured w w' p c) ∨
                        addedIn graph_Unstructured w w' p r))
    (λ _ _ _, True).
Proof using graph_Unstructured_extends.
  eapply wp_mono; [apply wp_resolveEdge | | done]. simpl.
  intros _ w' (c & w1 & o & Hc & Hle & Ho & ->). exists o. split; [done |].
  split; [etrans; [exact Hle | apply world_le_withEdge] |].
  intros r [->|Hr]%elem_of_addRelationship.
  - right; left. exists c. split; [done |].
    eapply called_here; [exact Hc | apply world_le_withEdge].
  - destruct (decide (r ∈ Relationships (graph w))) as [|Hnew]; [by left |].
    right; right. exists w, c, w1. split; [done |]. split; [done |].
    split; [apply world_le_withEdge | done].
Qed.

Lemma trackChildren_only n app projName objs acc w :
  wp (trackChildren n app projName objs acc) w
    (λ _ w', ∀ r, r ∈ Relationships (graph w') →
       r ∈ Relationships (graph w) ∨
       ∃ p o, p ∈ objs ∧ store w' !! p = Some o ∧ isProject projName o ∧
              ((∃ c, r = edge n (GetKind o) c ∧ called graph_Unstructured w w' p c) ∨
               addedIn graph_Unstructured w w' p r))
    (λ _ _ _, True).
Proof using graph_Unstructured_extends.
  clear Slice_perm mapRange_perm. clear ParseGroupVersion cluster mapRange Slice.
  revert acc w. induction objs as [|obj objs IH]; intros acc w; simpl.
  { apply wp_ret. by left. }
  apply wp_bind, wp_deref. intros o Ho. apply wp_bind.
  apply (wp_mono _ _
           (λ _ w1, world_le w w1 ∧
                    ∀ r, r ∈ Relationships (graph w1) →
                         r ∈ Relationships (graph w) ∨
                         (isProject projName o ∧
                          ((∃ c, r = edge n (GetKind o) c ∧
                                 called graph_Unstructured w w1 obj c) ∨
                           addedIn graph_Unstructured w w1 obj r)))
           _ (λ _ _ _, True)).
  - destruct (isProject projName o).
    + eapply wp_mono; [apply wp_resolveEdge_only | | done]. simpl.
      intros _ w1 (o1 & Ho1 & Hle & Hall).
      pose proof (world_le_lookup _ _ _ _ Hle Ho) as Ho'.
      assert (o1 = o) as -> by congruence. split; [done |].
      intros r Hr. destruct (Hall r Hr) as [?|?]; [by left | by right].
    + apply wp_ret. split; [done |]. by left.
  - intros _ w1 [Hle Hnew].
    apply wp_bind, wp_deref. intros o' Ho'. apply wp_bind, wp_deref. intros a Ha.
    eapply wp_mono;
      [apply (wp_and _ _ _ _ _ _ (IH _ w1) (extends_trackChildren _ _ _ _ _ w1)) | | done].
    simpl. intros r' w' [Hall Hle'] r Hr.
    destruct (Hall r Hr) as [Hr1|(p & o2 & Hp & Ho2 & Hisp & Hcase)].
    + destruct (Hnew r Hr1) as [?|[Hisp Hcase]]; [by left |].
      right. exists obj, o. split; [by left |]. split.
      { eapply world_le_lookup; [exact Hle' |]. by eapply world_le_lookup. }
      split; [done |].
      eapply edgeCase_mono; [reflexivity | exact Hle' | exact Hcase].
    + right. exists p, o2. split; [by right |]. split; [done |]. split; [done |].
      eapply edgeCase_mono; [exact Hle | reflexivity | exact Hcase].
  - done.
Qed.

Lemma addChildren_only n children w :
  wp (addChildren n children) w
    (λ _ w', ∀ r, r ∈ Relationships (graph w') →
       r ∈ Relationships (graph w) ∨
       ∃ p o, p ∈ children ∧ store w' !! p = Some o ∧
              ((∃ c, r = edge n (GetKind o) c ∧ called graph_Unstructured w w' p c) ∨
               addedIn graph_Unstructured w w' p r))
    (λ _ _ _, True).
Proof using graph_Unstructured_extends.
  clear Slice_perm mapRange_perm. clear ParseGroupVersion cluster mapRange Slice.
  revert w. induction children as [|child children IH]; intros w; simpl.
  { apply wp_ret. by left. }
  apply wp_bind_assoc, wp_bind.
  eapply wp_mono; [apply wp_resolveEdge_only | | done]. simpl.
  intros _ w1 (o & Ho & Hle & Hnew).
  eapply wp_mono;
    [apply (wp_and _ _ _ _ _ _ (IH w1) (extends_addChildren n children w1)) | | done].
  simpl. intros _ w' [Hall Hle'] r Hr.
  destruct (Hall r Hr) as [Hr1|(p & o2 & Hp & Ho2 & Hcase)].
  - destruct (Hnew r Hr1) as [?|Hcase]; [by left |].
    right. exists child, o. split; [by left |]. split; [by eapply world_le_lookup |].
    eapply edgeCase_mono; [reflexivity | exact Hle' | exact Hcase].
  - right. exists p, o2. split; [by right |]. split; [done |].
    eapply edgeCase_mono; [exact Hle | reflexivity | exact Hcase].
Qed.

(** When the resolution of an Application returns, the node it returns
    is in the sink, and an edge that was not in the sink before leads
    from that node, labelled with the kind of an object of the universe
    that is the project of the Application, shows signal (2) or (3) or
    lies in a recorded namespace, to the node that the dispatcher
    returned when it was called on that object after the harvest and
    within this resolution; or it was put into the sink by such a call.
    The resolver adds no other edge, and it calls the dispatcher on no
    other object: with any other dispatcher that does on those objects
    what this one does, the resolution is the same. *)
Theorem Application_edges_only app w n w' :
  Application app w = Ret n w' →
  ∃ a projName objs w1 direct namespaces children,
    ApplicationRun app w n w' a objs w1 direct namespaces children ∧
    spec_project a = Some projName ∧
    n ∈ Nodes (graph w') ∧
    (∀ r, r ∈ Relationships (graph w') →
       r ∈ Relationships (graph w) ∨
       ∃ p o, p ∈ objs ∧ store w1 !! p = Some o ∧
              (isProject projName o ∨ tracked (GetName a) o ∨
               GetNamespace o ∈ namespaces) ∧
              ((∃ c, r = edge n (GetKind o) c ∧
                     resolved graph_Unstructured w1 w' p o c) ∨
               addedBy graph_Unstructured w1 w' p o r)) ∧
    (∀ g' : ptr → M Node,
       (∀ p o wi, p ∈ objs → world_le w1 wi → store wi !! p = Some o →
                  isProject projName o ∨ tracked (GetName a) o ∨
                  GetNamespace o ∈ namespaces →
                  g' p wi = graph_Unstructured p wi) →
       ApplicationV1alpha1Graph.Application ParseGroupVersion cluster mapRange Slice g' app w
       = Ret n w').
Proof using graph_Unstructured_extends Slice_perm mapRange_perm.
  intros (a & objs & w1 & direct & namespaces & children & Hrun)%Application_Ret.
  destruct (ApplicationRun_facts _ _ _ _ _ _ _ _ _ _ Hrun)
    as (_ & _ & Hle13 & Hvalid & Hdir & _ & Hch & _).
  pose proof Hrun as (projName & w0 & w2 & Ha & Hn & Hproj & Hobjs & Htrack & Hclose & Hadd).
  exists a, projName, objs, w1, direct, namespaces, children. split; [done |].
  split; [by rewrite <- assert_spec_project |].
  destruct (graph_Node_Ret _ _ _ _ Hn) as (a' & _ & _ & Hw0).
  pose proof (wp_Ret _ _ _ _ _ _ (extends_getAllObjects w0) Hobjs) as Hle01.
  pose proof (wp_Ret _ _ _ _ _ _ (extends_trackChildren _ _ _ _ _ _) Htrack) as Hle12.
  pose proof (wp_Ret _ _ _ _ _ _ (extends_addChildren _ _ _) Hadd) as Hle23.
  simpl in Hle01, Hle12, Hle23.
  assert (∀ p, p ∈ objs → ∀ w3 o, world_le w1 w3 →
               store w3 !! p = Some o → store w1 !! p = Some o) as Hback.
  { intros p Hp w3 o Hle Ho. by apply (world_le_lookup_iff w1 w3); [| apply Hvalid |]. }
  split.
  { apply (le_Nodes w0 w'); [by repeat (etrans; [eassumption |]) |].
    rewrite Hw0. apply elem_of_addNode. }
  assert (∀ p o r wa wb,
            store w1 !! p = Some o → world_le w1 wa → world_le wb w' →
            (∃ c, r = edge n (GetKind o) c ∧ called graph_Unstructured wa wb p c) ∨
            addedIn graph_Unstructured wa wb p r →
            (∃ c, r = edge n (GetKind o) c ∧ resolved graph_Unstructured w1 w' p o c) ∨
            addedBy graph_Unstructured w1 w' p o r) as Htied.
  { intros p o r wa wb Ho Hlea Hleb Hcase.
    apply (edgeCase_mono _ w1 wa wb w') in Hcase as [(c & -> & Hc)|Hin]; [| | done..].
    - left. exists c. split; [done |]. by apply called_resolved.
    - right. by apply addedIn_addedBy. }
  split.
  { intros r Hr.
  destruct (wp_Ret _ _ _ _ _ _ (addChildren_only _ _ _) Hadd r Hr)
    as [Hr2|(p & o & Hp & Ho & Hcase)].
  - destruct (wp_Ret _ _ _ _ _ _ (trackChildren_only _ _ _ _ _ _) Htrack r Hr2)
      as [Hr1|(p & o & Hp & Ho & Hisp & Hcase)].
    + left. rewrite (getAllObjects_graph _ _ _ Hobjs), Hw0 in Hr1. simpl in Hr1.
      by rewrite addNode_Relationships in Hr1.
    + assert (store w1 !! p = Some o) as Ho1 by (by eapply Hback).
      right. exists p, o. split; [done |]. split; [done |]. split; [by left |].
      by apply (Htied p o r w1 w2).
  - right. rewrite (Slice_perm children) in Hp. apply elem_of_elements in Hp.
    assert (p ∈ objs) as Hobj.
    { apply Hch in Hp as [Hp|[Hp _]]; [| done]. by apply Hdir in Hp as [Hp _]. }
    assert (store w1 !! p = Some o) as Ho1.
    { eapply Hback; [done | | exact Ho]. by etrans. }
    exists p, o. split; [done |]. split; [done |]. split.
    + right. apply Hch in Hp as [Hp|[_ (o' & Ho' & Hns)]].
      * apply Hdir in Hp as [_ (o' & Ho' & Htr)]. left. congruence.
      * right. congruence.
    + by apply (Htied p o r w2 w'). }
  intros g' Hagree. unfold ApplicationV1alpha1Graph.Application.
  erewrite bind_eq; [| exact Hn].
  erewrite bind_eq; [| apply deref_eq; rewrite Hw0; exact Ha].
  destruct (assertMap (index (Object a) "spec")) as [spec|]; [| done]. simpl in Hproj.
  rewrite Hproj.
  erewrite bind_eq; [| exact Hobjs]. cbv beta iota.
  erewrite bind_eq.
  2:{ rewrite (trackChildren_agree g'); [exact Htrack |].
      intros p o wi Hp Hlei Ho Hisp. apply (Hagree p o wi); auto. }
  cbv beta iota. erewrite bind_eq; [| exact Hclose].
  erewrite bind_eq; [done |].
  rewrite (addChildren_agree g'); [exact Hadd |].
  intros p wi Hp Hlei. rewrite (Slice_perm children) in Hp. apply elem_of_elements in Hp.
  assert (world_le w1 wi) as Hle1i by (by etrans).
  apply Hch in Hp as [Hp|[Hp (o & Ho & Hns)]].
  - apply Hdir in Hp as [Hp (o & Ho & Htr)].
    apply (Hagree p o wi); [done | done | by eapply world_le_lookup | auto].
  - apply (Hagree p o wi); [done | done | by eapply world_le_lookup | auto].
Qed.

(** *** Nothing to resolve *)

Lemma trackChildren_none n app a projName objs acc w :
  store w !! app = Some a →
  (∀ p, p ∈ objs → ∃ o, store w !! p = Some o ∧
                        tracked (GetName a) o = false ∧ isProject projName o = false) →
  trackChildren n app projName objs acc w = Ret acc w.
Proof.
  intros Ha. revert acc. induction objs as [|obj objs IH]; intros acc Hall; simpl; [done |].
  destruct (Hall obj) as (o & Ho & Htr & Hisp); [by left |].
  apply orb_false_elim in Htr as [Hid Hlabel].
  erewrite bind_eq; [| by apply deref_eq]. rewrite Hisp.
  erewrite bind_eq; [| done].
  erewrite bind_eq; [| by apply deref_eq].
  erewrite bind_eq; [| by apply deref_eq].
  rewrite Hid, Hlabel. apply IH. intros p Hp. apply Hall. by right.
Qed.

Lemma closeNamespaces_empty objs children w :
  (∀ p, p ∈ objs → is_Some (store w !! p)) →
  closeNamespaces ∅ objs children w = Ret children w.
Proof.
  revert children. induction objs as [|obj objs IH]; intros children Hvalid; simpl; [done |].
  destruct (Hvalid obj) as [o Ho]; [by left |].
  erewrite bind_eq; [| by apply deref_eq].
  rewrite decide_False by apply not_elem_of_empty. apply IH. intros p Hp. apply Hvalid. by right.
Qed.

(** An Application with a well-formed spec none of whose universe
    objects is its project or shows signal (2) or (3) resolves to its own
    node and nothing else: the sink gains that node, no edge is added and
    the dispatcher of the graph is never called, so the outcome does not
    depend on it. *)
Theorem Application_untracked app w a projName apiResources :
  store w !! app = Some a → spec_project a = Some projName →
  ServerPreferredResources cluster = (apiResources, None) →
  (∀ o, o ∈ concatenation ParseGroupVersion cluster apiResources →
        tracked (GetName a) o = false ∧ isProject projName o = false) →
  let n := nodeOf (GroupVersionKindOf a) a in
  ∃ objs st',
    getAllObjects {| store := store w; graph := addNode n (graph w) |}
    = Ret (objs, None) {| store := st'; graph := addNode n (graph w) |} ∧
    Application app w = Ret n {| store := st'; graph := addNode n (graph w) |}.
Proof using Slice_perm mapRange_perm.
  intros Ha Hspec Hdisc Hnone n. rewrite <- assert_spec_project in Hspec.
  set (w0 := {| store := store w; graph := addNode n (graph w) |}).
  pose proof (getAllObjects_run w0) as H. rewrite Hdisc in H.
  destruct H as (objs & st' & Hobjs & Hpre & _ & _ & Hcont).
  set (w1 := {| store := st'; graph := graph w0 |}) in *.
  exists objs, st'. split; [done |].
  assert (store w1 !! app = Some a) as Ha1.
  { eapply prefix_lookup_Some; [exact Ha | exact Hpre]. }
  assert (∀ p, p ∈ objs → ∃ o, store w1 !! p = Some o ∧
                               tracked (GetName a) o = false ∧
                               isProject projName o = false) as Hvalid.
  { intros p Hp.
    assert (st' !! p ∈ (λ p, st' !! p) <$> objs) as Hin
      by (by apply (list_elem_of_fmap_2 (λ p, st' !! p))).
    rewrite Hcont in Hin. apply list_elem_of_fmap in Hin as (o & Ho & Hin).
    exists o. split; [done | by apply Hnone]. }
  assert (Slice ∅ = []) as Hnil.
  { apply Permutation_nil_r. by rewrite (Slice_perm ∅), elements_empty. }
  unfold ApplicationV1alpha1Graph.Application.
  erewrite bind_eq; [| unfold graph_Node; erewrite bind_eq; [| by apply deref_eq]; done].
  erewrite bind_eq; [| by apply deref_eq].
  destruct (assertMap (index (Object a) "spec")) as [spec|]; [| done]. simpl in Hspec.
  rewrite Hspec.
  erewrite bind_eq; [| exact Hobjs]. simpl.
  erewrite bind_eq; [| by apply (trackChildren_none _ _ a)]. simpl.
  erewrite bind_eq; [| apply closeNamespaces_empty; intros p Hp;
                       destruct (Hvalid p Hp) as (o & Ho & _); by exists o].
  by rewrite Hnil.
Qed.

(** *** The ApplicationSet resolver: failures and the empty case *)

Lemma matchOwners_raise n appset obj ownerReferences w :
  wp (matchOwners n appset obj ownerReferences) w
    (λ _ w', world_le w w')
    (λ n' e w', n' = None ∧
                ∃ s ownerRef x wi,
                  store w' !! appset = Some s ∧ ownerRef ∈ ownerReferences ∧
                  ownerRef_UID ownerRef = GetUID s ∧
                  world_le w wi ∧ graph_Unstructured obj wi = Raise x e w' ∧
                  world_le wi w').
Proof using graph_Unstructured_extends.
  clear Slice_perm mapRange_perm. clear ParseGroupVersion cluster mapRange Slice.
  revert w. induction ownerReferences as [|ownerRef rest IH]; intros w; simpl.
  { by apply wp_ret. }
  apply wp_bind, wp_deref. intros s Hs. apply wp_bind.
  apply (wp_mono _ _ (λ _ w1, world_le w w1) _
           (λ n' e w', n' = None ∧ ownerRef_UID ownerRef = GetUID s ∧ world_le w w' ∧
                       ∃ x, graph_Unstructured obj w = Raise x e w')).
  - case_decide as Huid; [| by apply wp_ret].
    eapply wp_mono; [apply wp_resolveEdge | |]; simpl.
    + intros _ w' (c & w1 & o & _ & Hle & _ & ->).
      etrans; [exact Hle | apply world_le_withEdge].
    + intros n' e w' (-> & Hle & x & Hx). by eauto.
  - intros _ w1 Hle. eapply wp_mono; [apply (IH w1) | |]; simpl.
    + intros _ w' Hle'. by etrans.
    + intros n' e w' (-> & s' & ref & x & wi & Hs' & Href & Huid & Hle' & Hx & Hle'').
      split; [done |]. exists s', ref, x, wi. split; [done |]. split; [by right |].
      split; [done |]. split; [by etrans | done].
  - simpl. intros n' e w' (-> & Huid & Hle & x & Hx). split; [done |].
    exists s, ownerRef, x, w. split; [by eapply world_le_lookup |].
    split; [by left |]. done.
Qed.

Lemma ownedApplications_raise n appset objs w :
  wp (ownedApplications n appset objs) w
    (λ _ w', world_le w w')
    (λ n' e w', n' = None ∧
                ∃ s p o x wi,
                  store w' !! appset = Some s ∧ p ∈ objs ∧ store w' !! p = Some o ∧
                  owned s o ∧
                  world_le w wi ∧ graph_Unstructured p wi = Raise x e w').
Proof using graph_Unstructured_extends.
  clear Slice_perm mapRange_perm. clear ParseGroupVersion cluster mapRange Slice.
  revert w. induction objs as [|obj objs IH]; intros w; simpl.
  { by apply wp_ret. }
  apply wp_bind, wp_deref. intros o Ho. apply wp_bind.
  eapply wp_mono; [apply matchOwners_raise | |]; simpl.
  - intros _ w1 Hle. eapply wp_mono; [apply (IH w1) | |]; simpl.
    + intros _ w' Hle'. by etrans.
    + intros n' e w' (-> & s & p & o' & x & wi & Hs & Hp & Ho' & Hown & Hle' & Hx).
      split; [done |]. exists s, p, o', x, wi. split; [done |]. split; [by right |].
      split; [done |]. split; [done |]. split; [by etrans | done].
  - intros n' e w' (-> & s & ref & x & wi & Hs & Href & Huid & Hle & Hx & Hle').
    split; [done |]. exists s, obj, o, x, wi. split; [done |]. split; [by left |].
    split; [| split; [by exists ref | done]].
    eapply world_le_lookup; [exact Hle' |]. by eapply world_le_lookup.
Qed.

(** An error returned by the resolution of an ApplicationSet comes
    without a node.  It is the error of the list call for Applications,
    and then nothing was changed; or the Applications were listed, the
    node of the ApplicationSet was put into the sink, and the error is
    the one with which the resolution of a listed Application that
    carries an owner reference to the ApplicationSet ended. *)
Theorem ApplicationSet_failure appset w s n' e w' :
  store w !! appset = Some s →
  ApplicationSet appset w = Raise n' e w' →
  n' = None ∧
  ((List cluster applicationsGVR = inr e ∧ w' = w) ∨
   ∃ items p o x wi,
     List cluster applicationsGVR = inl items ∧
     nodeOf (GroupVersionKindOf s) s ∈ Nodes (graph w') ∧
     (store w ++ items) !! p = Some o ∧ o ∈ items ∧ owned s o ∧
     graph_Unstructured p wi = Raise x e w').
Proof using graph_Unstructured_extends mapRange_perm.
  intros Hs0 Hrun. unfold ApplicationV1alpha1Graph.ApplicationSet in Hrun.
  apply bind_Raise in Hrun as [Hrun|([objs err] & w1 & Hobjs & Hrun)].
  { rewrite getChildApplications_run in Hrun.
    by destruct (List cluster applicationsGVR). }
  rewrite getChildApplications_run in Hobjs.
  destruct (List cluster applicationsGVR) as [items|e0] eqn:Hlist.
  - injection Hobjs as <- <- <-.
    apply bind_Raise in Hrun as [Hrun|(n & w2 & Hn & Hrun)].
    { by apply graph_Node_Raise in Hrun. }
    destruct (graph_Node_Ret _ _ _ _ Hn) as (s' & Hs & -> & ->). simpl in Hs.
    rewrite (lookup_app_l_Some _ _ _ _ Hs0) in Hs. injection Hs as <-.
    apply bind_Raise in Hrun as [Hrun|([] & w3 & _ & Hrun)]; [| done].
    destruct (wp_Raise _ _ _ _ _ _ _ (ownedApplications_raise _ _ _ _) Hrun)
      as (-> & s' & p & o & x & wi & Hs' & Hp & Ho & Hown & Hle & Hx).
    pose proof (wp_Raise _ _ _ _ _ _ _ (extends_ownedApplications _ _ _ _) Hrun) as Hle'.
    simpl in Hle'.
    assert (store w' !! appset = Some s) as Hs3.
    { eapply world_le_lookup; [exact Hle' |]. simpl. by apply lookup_app_l_Some. }
    assert (s' = s) as -> by congruence.
    apply elem_of_seq in Hp.
    assert (is_Some ((store w ++ items) !! p)) as [o' Ho'].
    { apply lookup_lt_is_Some. rewrite length_app. lia. }
    pose proof (world_le_lookup _ _ _ _ Hle' Ho') as Ho3.
    assert (o' = o) as -> by congruence.
    split; [done |]. right. exists items, p, o, x, wi. split; [done |].
    split; [apply (le_Nodes _ _ Hle'), elem_of_addNode |]. split; [done |].
    split; [| done].
    rewrite lookup_app_r in Ho' by lia. by eapply list_elem_of_lookup_2.
  - injection Hobjs as <- <- <-. injection Hrun as <- <- <-. split; [done |]. by left.
Qed.

Lemma matchOwners_none n appset s obj ownerReferences w :
  store w !! appset = Some s →
  (∀ ownerRef, ownerRef ∈ ownerReferences → ownerRef_UID ownerRef ≠ GetUID s) →
  matchOwners n appset obj ownerReferences w = Ret tt w.
Proof.
  intros Hs. induction ownerReferences as [|ownerRef rest IH]; intros Hall; simpl; [done |].
  erewrite bind_eq; [| by apply deref_eq].
  rewrite decide_False by (apply Hall; by left).
  erewrite bind_eq; [| done]. apply IH. intros ref Href. apply Hall. by right.
Qed.

Lemma ownedApplications_none n appset s objs w :
  store w !! appset = Some s →
  (∀ p, p ∈ objs → ∃ o, store w !! p = Some o ∧ ¬ owned s o) →
  ownedApplications n appset objs w = Ret tt w.
Proof.
  intros Hs. induction objs as [|obj objs IH]; intros Hall; simpl; [done |].
  destruct (Hall obj) as (o & Ho & Hown); [by left |].
  erewrite bind_eq; [| by apply deref_eq].
  erewrite bind_eq.
  - apply IH. intros p Hp. apply Hall. by right.
  - apply (matchOwners_none _ _ s); [done |].
    intros ref Href Huid. apply Hown. by exists ref.
Qed.

(** An ApplicationSet to which no listed Application carries an owner
    reference resolves to its own node and nothing else: the sink gains
    that node, no edge is added, and the dispatcher of the graph is never
    called, whatever labels or annotations the Applications carry. *)
Theorem ApplicationSet_unowned appset w s items :
  store w !! appset = Some s →
  List cluster applicationsGVR = inl items →
  (∀ o, o ∈ items → ¬ owned s o) →
  let n := nodeOf (GroupVersionKindOf s) s in
  ApplicationSet appset w
  = Ret n {| store := store w ++ items; graph := addNode n (graph w) |}.
Proof using mapRange_perm.
  intros Hs Hlist Hnone n. unfold ApplicationV1alpha1Graph.ApplicationSet.
  erewrite bind_eq; [| rewrite getChildApplications_run, Hlist; done].
  cbv beta iota.
  assert ((store w ++ items) !! appset = Some s) as Hs1 by (by apply lookup_app_l_Some).
  erewrite bind_eq;
    [| unfold graph_Node; erewrite bind_eq; [| by apply deref_eq]; done].
  cbv beta. erewrite bind_eq; [done |].
  apply (ownedApplications_none _ _ s); [done |]. simpl.
  intros p Hp%elem_of_seq.
  assert (is_Some (items !! (p - length (store w)))) as [o Ho].
  { apply lookup_lt_is_Some. lia. }
  exists o. split.
  - rewrite lookup_app_r by lia. done.
  - apply Hnone. by eapply list_elem_of_lookup_2.
Qed.

(** *** The dispatcher *)

(** An object whose kind is neither ApplicationSet nor Application, a
    Project included, is resolved to its node at once: no error, no
    discovery or list call, no edge, no call of the dispatcher of the
    graph; and resolving it again changes nothing. *)
Theorem Unstructured_other unstr w u :
  store w !! unstr = Some u →
  GetKind u ≠ "ApplicationSet" → GetKind u ≠ "Application" →
  let n := nodeOf (GroupVersionKindOf u) u in
  let w' := {| store := store w; graph := addNode n (graph w) |} in
  Unstructured_ unstr w = Ret n w' ∧
  Relationships (graph w') = Relationships (graph w) ∧
  n ∈ Nodes (graph w') ∧
  Unstructured_ unstr w' = Ret n w'.
Proof.
  intros Hu Hset Happ n w'.
  assert (∀ w0, store w0 !! unstr = Some u →
                Unstructured_ unstr w0
                = Ret n {| store := store w0; graph := addNode n (graph w0) |}) as Hrun.
  { intros w0 Hu0. unfold ApplicationV1alpha1Graph.Unstructured_.
    erewrite bind_eq; [| by apply deref_eq].
    rewrite (decide_False _ _ Hset), (decide_False _ _ Happ).
    unfold AppProject, graph_Node.
    case_decide; (erewrite bind_eq; [| by apply deref_eq]); done. }
  split; [by apply Hrun |]. split; [apply addNode_Relationships |].
  split; [apply elem_of_addNode |].
  rewrite (Hrun w' Hu). unfold w'; simpl. f_equal. f_equal.
  unfold addNode at 1. by rewrite decide_True by apply elem_of_addNode.
Qed.

(** Whatever its kind, an object is resolved to its own node: each of
    the resolvers returns, when it returns, the node that it got from
    the sink for the object it was given. *)
Lemma Unstructured_own_node unstr w u c w' :
  store w !! unstr = Some u →
  Unstructured_ unstr w = Ret c w' →
  c = nodeOf (GroupVersionKindOf u) u ∧ c ∈ Nodes (graph w').
Proof using graph_Unstructured_extends.
  intros Hu Hrun.
  pose proof (wp_Ret _ _ _ _ _ _ (extends_Unstructured unstr w) Hrun) as Hle.
  simpl in Hle. unfold ApplicationV1alpha1Graph.Unstructured_ in Hrun.
  erewrite bind_eq in Hrun by (by apply deref_eq).
  assert (∀ w0 w1, graph_Node unstr w0 = Ret c w1 → world_le w w0 → world_le w1 w' →
                   c = nodeOf (GroupVersionKindOf u) u ∧ c ∈ Nodes (graph w')) as Hnode.
  { intros w0 w1 Hn Hle0 Hle1.
    destruct (graph_Node_Ret _ _ _ _ Hn) as (u' & Hu' & -> & ->).
    pose proof (world_le_lookup _ _ _ _ Hle0 Hu) as Hu0.
    assert (u' = u) as -> by congruence. split; [done |].
    apply (le_Nodes _ _ Hle1). simpl. apply elem_of_addNode. }
  destruct (decide (GetKind u = "ApplicationSet")) as [Hset|Hset].
  - apply bind_Ret in Hrun as ([objs [e|]] & w1 & Hobjs & Hrun); [done |].
    apply bind_Ret in Hrun as (n0 & w2 & Hn & Hrun).
    apply bind_Ret in Hrun as ([] & w3 & Hown & [= <- <-]).
    apply (Hnode w1 w2 Hn).
    + exact (wp_Ret _ _ _ _ _ _ (extends_getChildApplications w) Hobjs).
    + exact (wp_Ret _ _ _ _ _ _ (extends_ownedApplications _ _ _ w2) Hown).
  - destruct (decide (GetKind u = "Application")) as [Happ|Happ].
    + apply bind_Ret in Hrun as (n0 & w0 & Hn & Hrun).
      assert (c = n0 ∧ world_le w0 w') as [-> Hle0].
      { apply bind_Ret in Hrun as (a & w0' & [-> Ha]%deref_Ret & Hrun).
        destruct (assertMap _) as [spec|]; [| done].
        destruct (assertString _) as [projName|]; [| done].
        apply bind_Ret in Hrun as ([objs [e|]] & w1 & Hobjs & Hrun); [done |].
        apply bind_Ret in Hrun as ([direct namespaces] & w2 & Htrack & Hrun).
        apply bind_Ret in Hrun as (children & w2' & Hclose & Hrun).
        apply bind_Ret in Hrun as ([] & w3 & Hadd & [= <- <-]).
        split; [done |].
        etrans; [exact (wp_Ret _ _ _ _ _ _ (extends_getAllObjects w0) Hobjs) |].
        etrans; [exact (wp_Ret _ _ _ _ _ _ (extends_trackChildren _ _ _ _ _ w1) Htrack) |].
        etrans; [exact (wp_Ret _ _ _ _ _ _ (extends_closeNamespaces _ _ _ w2) Hclose) |].
        exact (wp_Ret _ _ _ _ _ _ (extends_addChildren _ _ w2') Hadd). }
      by apply (Hnode w w0 Hn).
    + assert (graph_Node unstr w = Ret c w') as Hn by (by case_decide).
      by apply (Hnode w w' Hn).
Qed.

(** *** Where the children are resolved *)

Lemma addChildren_at n children w :
  wp (addChildren n children) w
    (λ _ w', ∀ p, p ∈ children →
       ∃ o c wi wj, world_le w wi ∧ graph_Unstructured p wi = Ret c wj ∧
                    world_le wj w' ∧ store w' !! p = Some o ∧
                    edge n (GetKind o) c ∈ Relationships (graph w'))
    (λ _ _ _, True).
Proof using graph_Unstructured_extends.
  clear Slice_perm mapRange_perm. clear ParseGroupVersion cluster mapRange Slice.
  revert w. induction children as [|child children IH]; intros w; simpl.
  { apply wp_ret. by intros p Hp%elem_of_nil. }
  apply wp_bind_assoc, wp_bind.
  eapply wp_mono; [apply wp_resolveEdge | | done]; simpl.
  intros _ w2 (c & w1 & o & Hc & Hle & Ho & ->).
  assert (world_le w1 (withEdge (edge n (GetKind o) c) w1)) as Hle1
    by apply world_le_withEdge.
  eapply wp_mono;
    [apply (wp_and _ _ _ _ _ _ (IH _) (extends_addChildren n children _)) | | done].
  simpl. intros _ w' [Hall Hle'] p [->|Hp]%elem_of_cons.
  - exists o, c, w, w1. split; [done |]. split; [done |]. split; [by etrans |].
    split.
    + eapply world_le_lookup; [exact Hle' |]. done.
    + eapply world_le_Relationship; [exact Hle' |]. apply elem_of_withEdge.
  - destruct (Hall p Hp) as (o' & c' & wi & wj & Hle2 & Hrest).
    exists o', c', wi, wj. split; [| done].
    etrans; [exact Hle |]. by etrans.
Qed.

Lemma trackChildren_at n app projName objs acc w :
  wp (trackChildren n app projName objs acc) w
    (λ _ w', ∀ p o, p ∈ objs → store w' !! p = Some o → isProject projName o →
       ∃ c wi wj, world_le w wi ∧ graph_Unstructured p wi = Ret c wj ∧
                  world_le wj w' ∧
                  edge n (GetKind o) c ∈ Relationships (graph w'))
    (λ _ _ _, True).
Proof using graph_Unstructured_extends.
  clear Slice_perm mapRange_perm. clear ParseGroupVersion cluster mapRange Slice.
  revert acc w. induction objs as [|obj objs IH]; intros acc w; simpl.
  { apply wp_ret. by intros p o Hp%elem_of_nil. }
  apply wp_bind, wp_deref. intros o Ho. apply wp_bind.
  apply (wp_mono _ _
           (λ _ w1, world_le w w1 ∧
                    (isProject projName o →
                     ∃ c wj, graph_Unstructured obj w = Ret c wj ∧ world_le wj w1 ∧
                             edge n (GetKind o) c ∈ Relationships (graph w1)))
           _ (λ _ _ _, True)).
  - destruct (isProject projName o).
    + eapply wp_mono; [apply wp_resolveEdge | | done]; simpl.
      intros _ w' (c & w1 & o1 & Hc & Hle & Ho1 & ->).
      pose proof (world_le_lookup _ _ _ _ Hle Ho) as Ho1'.
      assert (o1 = o) as -> by congruence. split.
      { etrans; [exact Hle | apply world_le_withEdge]. }
      intros _. exists c, w1. split; [done |].
      split; [apply world_le_withEdge | apply elem_of_withEdge].
    + apply wp_ret. split; [done |]. intros [].
  - intros _ w1 [Hle Hedge].
    apply wp_bind, wp_deref. intros o' Ho'. apply wp_bind, wp_deref. intros a Ha.
    eapply wp_mono;
      [apply (wp_and _ _ _ _ _ _ (IH _ w1) (extends_trackChildren _ _ _ _ _ w1)) | | done].
    simpl. intros r' w' [Hall Hle'] p o2 [->|Hp]%elem_of_cons Ho2 Hisp.
    + assert (store w' !! obj = Some o) as Ho3.
      { eapply world_le_lookup; [exact Hle' |]. by eapply world_le_lookup. }
      assert (o2 = o) as -> by congruence.
      destruct (Hedge Hisp) as (c & wj & Hc & Hlej & Hin).
      exists c, w, wj. split; [done |]. split; [done |]. split; [by etrans |].
      eapply world_le_Relationship; [exact Hle' | done].
    + destruct (Hall p o2 Hp Ho2 Hisp) as (c & wi & wj & Hlei & Hrest).
      exists c, wi, wj. split; [by etrans | done].
  - done.
Qed.

(** *** How a resolution can end *)

Lemma wpx_resolveEdge on n p w :
  is_Some (store w !! p) →
  wpx (childNode <- orReturn on (graph_Unstructured p);
       c <- deref p;
       graph_Relationship n (GetKind c) childNode) w
    (λ _ w', world_le w w')
    (λ x, endsIn (graph_Unstructured p w) x).
Proof using graph_Unstructured_extends.
  intros [o Ho]. apply wpx_bind. unfold wpx at 1, orReturn.
  pose proof (graph_Unstructured_extends p w) as Hext. unfold wp in Hext.
  destruct (graph_Unstructured p w) as [c w1| | |]; [| done..].
  eapply wpx_bind, wpx_deref; [by eapply world_le_lookup |].
  unfold wpx; simpl. etrans; [exact Hext | apply world_le_withEdge].
Qed.

Lemma trackChildren_ending n app projName objs acc w :
  is_Some (store w !! app) →
  (∀ p, p ∈ objs → is_Some (store w !! p)) →
  wpx (trackChildren n app projName objs acc) w
    (λ _ w', world_le w w')
    (λ x, ∃ p wi, p ∈ objs ∧ world_le w wi ∧ endsIn (graph_Unstructured p wi) x).
Proof using graph_Unstructured_extends.
  clear Slice_perm mapRange_perm. clear ParseGroupVersion cluster mapRange Slice.
  revert acc w. induction objs as [|obj objs IH]; intros acc w [a Ha] Hvalid; simpl.
  { by apply wpx_ret. }
  destruct (Hvalid obj) as [o Ho]; [by left |].
  eapply wpx_bind, wpx_deref; [done |]. apply wpx_bind.
  apply (wpx_mono _ _ (λ _ w1, world_le w w1) _
           (λ x, endsIn (graph_Unstructured obj w) x)).
  - destruct (isProject projName o); [by apply wpx_resolveEdge | by apply wpx_ret].
  - intros _ w1 Hle.
    eapply wpx_bind, wpx_deref; [by eapply world_le_lookup |].
    eapply wpx_bind, wpx_deref; [by eapply world_le_lookup |].
    eapply wpx_mono; [apply (IH _ w1) | |]; simpl.
    + exists a. by eapply world_le_lookup.
    + intros p Hp. destruct (Hvalid p) as [o' Ho']; [by right |].
      exists o'. by eapply world_le_lookup.
    + intros _ w' Hle'. by etrans.
    + intros x (p & wi & Hp & Hlei & Hx). exists p, wi.
      split; [by right |]. split; [by etrans | done].
  - intros x Hx. exists obj, w. split; [by left | done].
Qed.

Lemma addChildren_ending n children w :
  (∀ p, p ∈ children → is_Some (store w !! p)) →
  wpx (addChildren n children) w
    (λ _ w', world_le w w')
    (λ x, ∃ p wi, p ∈ children ∧ world_le w wi ∧ endsIn (graph_Unstructured p wi) x).
Proof using graph_Unstructured_extends.
  clear Slice_perm mapRange_perm. clear ParseGroupVersion cluster mapRange Slice.
  revert w. induction children as [|child children IH]; intros w Hvalid; simpl.
  { by apply wpx_ret. }
  assert (wpx (_ <- (childNode <- orReturn (Some n) (graph_Unstructured child);
                     c <- deref child;
                     graph_Relationship n (GetKind c) childNode);
               addChildren n children) w
            (λ _ w', world_le w w')
            (λ x, ∃ p wi, p ∈ child :: children ∧ world_le w wi ∧
                          endsIn (graph_Unstructured p wi) x)) as H.
  { apply wpx_bind.
    eapply wpx_mono; [apply wpx_resolveEdge; apply Hvalid; by left | |]; simpl.
    - intros _ w1 Hle. eapply wpx_mono; [apply (IH w1) | |]; simpl.
      + intros p Hp. destruct (Hvalid p) as [o' Ho']; [by right |].
        exists o'. by eapply world_le_lookup.
      + intros _ w' Hle'. by etrans.
      + intros x (p & wi & Hp & Hlei & Hx). exists p, wi.
        split; [by right |]. split; [by etrans | done].
    - intros x Hx. exists child, w. split; [by left | done]. }
  revert H. unfold wpx, bind.
  destruct (orReturn _ _ w) as [c w1| | |]; [| done..].
  by destruct (deref child w1) as [o w2| | |].
Qed.

(** The resolver of an Application with a well-formed spec does not
    panic and does not loop by itself: when its resolution ends in a
    panic, or never ends, so did a resolution of an object by the
    dispatcher of the graph that it called.  With the claim about
    malformed specs: the failed type assertion on [spec.project] is the
    only panic of the resolver's own. *)
Theorem Application_ending app w a projName x :
  store w !! app = Some a → spec_project a = Some projName →
  endsIn (Application app w) x →
  ∃ p wi, world_le w wi ∧ is_Some (store wi !! p) ∧ endsIn (graph_Unstructured p wi) x.
Proof using graph_Unstructured_extends Slice_perm mapRange_perm.
  intros Ha Hspec. rewrite <- assert_spec_project in Hspec.
  apply (wpx_ending _ _ (λ _ _, True)
           (λ x, ∃ p wi, world_le w wi ∧ is_Some (store wi !! p) ∧
                         endsIn (graph_Unstructured p wi) x)).
  set (n := nodeOf (GroupVersionKindOf a) a).
  set (w0 := {| store := store w; graph := addNode n (graph w) |}).
  assert (world_le w w0) as Hle0.
  { split; simpl; [done | apply addNode_Nodes | by rewrite addNode_Relationships]. }
  unfold ApplicationV1alpha1Graph.Application.
  eapply wpx_bind, wpx_graph_Node; [exact Ha |]. fold n w0.
  eapply wpx_bind, wpx_deref; [exact Ha |].
  destruct (assertMap (index (Object a) "spec")) as [spec|]; [| done]. simpl in Hspec.
  rewrite Hspec. apply wpx_bind.
  pose proof (getAllObjects_run w0) as H.
  destruct (ServerPreferredResources cluster) as [apiResources [err|]].
  { eapply wpx_returns; [exact H |]. apply wpx_raise. }
  destruct H as (objs & st' & Hobjs & Hpre & _ & Hrange & _).
  set (w1 := {| store := st'; graph := graph w0 |}) in *.
  eapply wpx_returns; [exact Hobjs |]. cbv beta iota.
  assert (world_le w w1) as Hle1.
  { etrans; [exact Hle0 |]. by split. }
  assert (store w1 !! app = Some a) as Ha1 by (by eapply world_le_lookup).
  assert (∀ p wi, p ∈ objs → world_le w1 wi → is_Some (store wi !! p)) as Hlive.
  { intros p wi Hp Hle. assert (is_Some (store w1 !! p)) as [o Ho].
    { apply lookup_lt_is_Some. simpl. by apply Hrange. }
    exists o. by eapply world_le_lookup. }
  apply wpx_bind.
  eapply wpx_mono;
    [apply (wpx_wp _ _ _ _ _ _
              (trackChildren_ending n app projName objs (∅, ∅) w1 (ex_intro _ a Ha1)
                 (λ p Hp, Hlive p w1 Hp (reflexivity w1)))
              (trackChildren_spec n app projName objs (∅, ∅) w1)) | |].
  - intros [direct namespaces] w2 (Hle2 & _ & _ & Hchar & _); simpl in *.
    destruct (Hchar a (world_le_lookup _ _ _ _ Hle2 Ha1)) as [Hdir _].
    destruct (closeNamespaces_returns namespaces objs direct w2) as [children Hclose].
    { intros p Hp. by apply Hlive. }
    destruct (wp_Ret _ _ _ _ _ _ (closeNamespaces_spec _ _ _ _) Hclose) as [_ Hcl].
    apply wpx_bind. eapply wpx_returns; [exact Hclose |].
    apply wpx_bind.
    assert (∀ p, p ∈ Slice children → p ∈ objs) as Hsub.
    { intros p Hp. rewrite (Slice_perm children) in Hp. apply elem_of_elements in Hp.
      apply Hcl in Hp as [Hp|[Hp _]]; [| done].
      by apply Hdir in Hp as [[]%elem_of_empty|[Hp _]]. }
    eapply wpx_mono; [apply (addChildren_ending n (Slice children) w2) | |]; simpl.
    + intros p Hp. apply Hlive; [by apply Hsub | done].
    + done.
    + intros x' (p & wi & Hp & Hle & Hx). exists p, wi.
      split; [etrans; [exact Hle1 |]; by etrans |].
      split; [| done]. apply Hlive; [by apply Hsub | by etrans].
  - intros x' (p & wi & Hp & Hle & Hx). exists p, wi.
    split; [by etrans |]. split; [by apply Hlive | done].
Qed.

Lemma matchOwners_ending n appset obj ownerReferences w :
  is_Some (store w !! appset) → is_Some (store w !! obj) →
  wpx (matchOwners n appset obj ownerReferences) w
    (λ _ w', world_le w w')
    (λ x, ∃ wi, world_le w wi ∧ endsIn (graph_Unstructured obj wi) x).
Proof using graph_Unstructured_extends.
  clear Slice_perm mapRange_perm. clear ParseGroupVersion cluster mapRange Slice.
  revert w. induction ownerReferences as [|ownerRef rest IH]; intros w [s Hs] Hobj; simpl.
  { by apply wpx_ret. }
  eapply wpx_bind, wpx_deref; [done |]. apply wpx_bind.
  apply (wpx_mono _ _ (λ _ w1, world_le w w1) _
           (λ x, endsIn (graph_Unstructured obj w) x)).
  - case_decide; [by apply wpx_resolveEdge | by apply wpx_ret].
  - intros _ w1 Hle. eapply wpx_mono; [apply (IH w1) | |]; simpl.
    + exists s. by eapply world_le_lookup.
    + destruct Hobj as [o Ho]. exists o. by eapply world_le_lookup.
    + intros _ w' Hle'. by etrans.
    + intros x (wi & Hlei & Hx). exists wi. split; [by etrans | done].
  - intros x Hx. by exists w.
Qed.

Lemma ownedApplications_ending n appset objs w :
  is_Some (store w !! appset) →
  (∀ p, p ∈ objs → is_Some (store w !! p)) →
  wpx (ownedApplications n appset objs) w
    (λ _ w', world_le w w')
    (λ x, ∃ p wi, p ∈ objs ∧ world_le w wi ∧ endsIn (graph_Unstructured p wi) x).
Proof using graph_Unstructured_extends.
  clear Slice_perm mapRange_perm. clear ParseGroupVersion cluster mapRange Slice.
  revert w. induction objs as [|obj objs IH]; intros w [s Hs] Hvalid; simpl.
  { by apply wpx_ret. }
  destruct (Hvalid obj) as [o Ho]; [by left |].
  eapply wpx_bind, wpx_deref; [done |]. apply wpx_bind.
  eapply wpx_mono; [apply matchOwners_ending; by eauto | |]; simpl.
  - intros _ w1 Hle. eapply wpx_mono; [apply (IH w1) | |]; simpl.
    + exists s. by eapply world_le_lookup.
    + intros p Hp. destruct (Hvalid p) as [o' Ho']; [by right |].
      exists o'. by eapply world_le_lookup.
    + intros _ w' Hle'. by etrans.
    + intros x (p & wi & Hp & Hlei & Hx). exists p, wi.
      split; [by right |]. split; [by etrans | done].
  - intros x (wi & Hle & Hx). exists obj, wi. split; [by left | done].
Qed.

(** The resolver of an ApplicationSet does not panic and does not loop
    by itself either: such an ending is that of a resolution of a listed
    Application by the dispatcher of the graph. *)
Theorem ApplicationSet_ending appset w s x :
  store w !! appset = Some s →
  endsIn (ApplicationSet appset w) x →
  ∃ p wi, world_le w wi ∧ is_Some (store wi !! p) ∧ endsIn (graph_Unstructured p wi) x.
Proof using graph_Unstructured_extends mapRange_perm.
  intros Hs.
  apply (wpx_ending _ _ (λ _ _, True)
           (λ x, ∃ p wi, world_le w wi ∧ is_Some (store wi !! p) ∧
                         endsIn (graph_Unstructured p wi) x)).
  unfold ApplicationV1alpha1Graph.ApplicationSet. apply wpx_bind.
  pose proof (getChildApplications_run w) as Hobjs.
  destruct (List cluster applicationsGVR) as [items|e];
    (eapply wpx_returns; [exact Hobjs |]); [| apply wpx_raise].
  cbv beta iota.
  set (w1 := {| store := store w ++ items; graph := graph w |}).
  assert (world_le w w1) as Hle1.
  { split; simpl; [by apply prefix_app_r | done | done]. }
  eapply wpx_bind, wpx_graph_Node; [by eapply (world_le_lookup w w1) |].
  set (n := nodeOf (GroupVersionKindOf s) s).
  set (w2 := {| store := store w1; graph := addNode n (graph w1) |}).
  assert (world_le w1 w2) as Hle2.
  { split; simpl; [done | apply addNode_Nodes | by rewrite addNode_Relationships]. }
  assert (∀ p wi, p ∈ seq (length (store w)) (length items) → world_le w2 wi →
                  is_Some (store wi !! p)) as Hlive.
  { intros p wi Hp%elem_of_seq Hle.
    assert (is_Some (store w2 !! p)) as [o Ho].
    { apply lookup_lt_is_Some. simpl. rewrite length_app. lia. }
    exists o. by eapply world_le_lookup. }
  apply wpx_bind.
  eapply wpx_mono; [apply (ownedApplications_ending n appset _ w2) | |]; simpl.
  - exists s. by apply lookup_app_l_Some.
  - intros p Hp. apply (Hlive p w2 Hp). reflexivity.
  - done.
  - intros x' (p & wi & Hp & Hle & Hx). exists p, wi.
    split; [etrans; [exact Hle1 |]; by etrans |]. split; [by apply Hlive | done].
Qed.

End EngineFacts.

(** * Fuel *)

Lemma le_res_refl {A} (r : res A) : le_res r r.
Proof. by right. Qed.

Lemma le_res_bind {A B} (m1 m2 : M A) (k1 k2 : A → M B) w :
  le_res (m1 w) (m2 w) → (∀ a w1, le_res (k1 a w1) (k2 a w1)) →
  le_res (bind m1 k1 w) (bind m2 k2 w).
Proof.
  unfold bind. intros [->| ->] Hk; [by left |].
  destruct (m2 w); [apply Hk | by right..].
Qed.

Lemma le_res_orReturn {A} n (m1 m2 : M A) w :
  le_res (m1 w) (m2 w) → le_res (orReturn n m1 w) (orReturn n m2 w).
Proof. unfold orReturn. intros [->| ->]; [by left | by right]. Qed.

Section Fuel.

Variable ParseGroupVersion : string → GroupVersion_.
Variable cluster : Cluster.
Variable mapRange : gmap string (list ptr) → list (list ptr).
Variable Slice : gset ptr → list ptr.
Variables g1 g2 : ptr → M Node.

Hypothesis g1_g2 : refines g1 g2.

Lemma le_res_resolveEdge on n p w :
  le_res ((childNode <- orReturn on (g1 p);
           c <- deref p;
           graph_Relationship n (GetKind c) childNode) w)
         ((childNode <- orReturn on (g2 p);
           c <- deref p;
           graph_Relationship n (GetKind c) childNode) w).
Proof using g1_g2.
  apply le_res_bind; [apply le_res_orReturn, g1_g2 |]. intros; apply le_res_refl.
Qed.

Lemma le_res_trackChildren n app projName objs acc w :
  le_res (trackChildren g1 n app projName objs acc w)
         (trackChildren g2 n app projName objs acc w).
Proof using g1_g2.
  revert acc w. induction objs as [|obj objs IH]; intros acc w; simpl.
  { apply le_res_refl. }
  apply le_res_bind; [apply le_res_refl |]. intros o w1.
  apply le_res_bind.
  - destruct (isProject projName o); [apply le_res_resolveEdge | apply le_res_refl].
  - intros _ w2. apply le_res_bind; [apply le_res_refl |]. intros o' w3.
    apply le_res_bind; [apply le_res_refl |]. intros a w4. apply IH.
Qed.

Lemma le_res_addChildren n children w :
  le_res (addChildren g1 n children w) (addChildren g2 n children w).
Proof using g1_g2.
  revert w. induction children as [|child children IH]; intros w; simpl.
  { apply le_res_refl. }
  apply le_res_bind; [apply le_res_orReturn, g1_g2 |]. intros c w1.
  apply le_res_bind; [apply le_res_refl |]. intros o w2.
  apply le_res_bind; [apply le_res_refl |]. intros _ w3. apply IH.
Qed.

Lemma le_res_Application app w :
  le_res (Application ParseGroupVersion cluster mapRange Slice g1 app w)
         (Application ParseGroupVersion cluster mapRange Slice g2 app w).
Proof using g1_g2.
  apply le_res_bind; [apply le_res_refl |]. intros n w1.
  apply le_res_bind; [apply le_res_refl |]. intros a w2.
  destruct (assertMap _); [| apply le_res_refl].
  destruct (assertString _); [| apply le_res_refl].
  apply le_res_bind; [apply le_res_refl |]. intros [objs [e|]] w3; [apply le_res_refl |].
  apply le_res_bind; [apply le_res_trackChildren |]. intros [direct namespaces] w4.
  apply le_res_bind; [apply le_res_refl |]. intros children w5.
  apply le_res_bind; [apply le_res_addChildren |]. intros; apply le_res_refl.
Qed.

Lemma le_res_matchOwners n appset obj ownerReferences w :
  le_res (matchOwners g1 n appset obj ownerReferences w)
         (matchOwners g2 n appset obj ownerReferences w).
Proof using g1_g2.
  revert w. induction ownerReferences as [|ownerRef rest IH]; intros w; simpl.
  { apply le_res_refl. }
  apply le_res_bind; [apply le_res_refl |]. intros s w1.
  apply le_res_bind; [| intros; apply IH].
  case_decide; [apply le_res_resolveEdge | apply le_res_refl].
Qed.

Lemma le_res_ownedApplications n appset objs w :
  le_res (ownedApplications g1 n appset objs w) (ownedApplications g2 n appset objs w).
Proof using g1_g2.
  revert w. induction objs as [|obj objs IH]; intros w; simpl.
  { apply le_res_refl. }
  apply le_res_bind; [apply le_res_refl |]. intros o w1.
  apply le_res_bind; [apply le_res_matchOwners | intros; apply IH].
Qed.

Lemma le_res_ApplicationSet appset w :
  le_res (ApplicationSet cluster mapRange g1 appset w)
         (ApplicationSet cluster mapRange g2 appset w).
Proof using g1_g2.
  apply le_res_bind; [apply le_res_refl |]. intros [objs [e|]] w1; [apply le_res_refl |].
  apply le_res_bind; [apply le_res_refl |]. intros n w2.
  apply le_res_bind; [apply le_res_ownedApplications |]. intros; apply le_res_refl.
Qed.

Lemma refines_Unstructured :
  refines (Unstructured_ ParseGroupVersion cluster mapRange Slice g1)
          (Unstructured_ ParseGroupVersion cluster mapRange Slice g2).
Proof using g1_g2.
  intros unstr w. apply le_res_bind; [apply le_res_refl |]. intros u w1.
  repeat case_decide;
    [apply le_res_ApplicationSet | apply le_res_Application | apply le_res_refl..].
Qed.

End Fuel.

(** * The closed engine *)

Section ResolveFacts.

Variable ParseGroupVersion : string → GroupVersion_.
Variable cluster : Cluster.
Variable mapRange : gmap string (list ptr) → list (list ptr).
Variable Slice : gset ptr → list ptr.

Abbreviation resolve := (resolve ParseGroupVersion cluster mapRange Slice).

Lemma resolve_extends fuel unstr : extends (resolve fuel unstr).
Proof.
  revert unstr. induction fuel as [|fuel IH]; intros unstr.
  - by intros w.
  - by apply extends_Unstructured.
Qed.

(** More fuel does not change what a resolution that had enough of it did. *)
Lemma resolve_S fuel : refines (resolve fuel) (resolve (S fuel)).
Proof.
  induction fuel as [|fuel IH]; [by left |].
  by apply refines_Unstructured.
Qed.

Lemma resolve_fuel fuel fuel' unstr w :
  fuel ≤ fuel' → resolve fuel unstr w ≠ Diverge →
  resolve fuel' unstr w = resolve fuel unstr w.
Proof.
  induction 1 as [|fuel' Hle IH]; [done |]. intros Hnd.
  destruct (resolve_S fuel' unstr w) as [Hd|Heq].
  - rewrite IH in Hd; done.
  - rewrite <- Heq. by apply IH.
Qed.

(** An object of a leaf kind is resolved with one unit of fuel. *)
Lemma resolve_leaf fuel p o w :
  store w !! p = Some o → leaf o → ∃ c w', resolve (S fuel) p w = Ret c w'.
Proof.
  intros Ho [Hset Happ]. simpl. unfold Unstructured_.
  erewrite bind_eq; [| by apply deref_eq].
  rewrite (decide_False _ _ Hset), (decide_False _ _ Happ).
  unfold AppProject, graph_Node.
  case_decide; (erewrite bind_eq; [| by apply deref_eq]); eauto.
Qed.

(** Enough fuel: when the cluster lists objects of leaf kinds only, two
    units of fuel resolve an Application with a well-formed spec, and so
    does any larger amount. *)
Lemma resolve_Application fuel app w a projName apiResources :
  (∀ X, Slice X ≡ₚ elements X) → (∀ m, mapRange m ≡ₚ (map_to_list m).*2) →
  store w !! app = Some a → GetKind a = "Application" →
  spec_project a = Some projName →
  ServerPreferredResources cluster = (apiResources, None) →
  (∀ o, o ∈ concatenation ParseGroupVersion cluster apiResources → leaf o) →
  ∃ n w', resolve (S (S fuel)) app w = Ret n w'.
Proof.
  intros HSlice HmapRange Ha Hkind Hspec Hdisc Hleaf.
  destruct (Application_returns ParseGroupVersion cluster mapRange Slice
              (resolve (S fuel)) (resolve_extends (S fuel)) HSlice HmapRange
              leaf (resolve_leaf fuel) app w a projName apiResources)
    as (n & w' & Hrun); [done..|].
  exists n, w'. change (resolve (S (S fuel)) app w)
    with (Unstructured_ ParseGroupVersion cluster mapRange Slice (resolve (S fuel)) app w).
  unfold Unstructured_. erewrite bind_eq; [| by apply deref_eq].
  rewrite Hkind. rewrite decide_False by done. by rewrite decide_True.
Qed.

(** C9.  Whatever object the engine is asked to resolve and however the
    resolution ends, every object that was in the store is still there,
    at the same address and equal to what it was; and the objects
    harvested for an Application are, when its resolution returns, what
    they were when they were harvested. *)
Theorem engine_never_mutates fuel unstr w :
  match resolve fuel unstr w with
  | Ret _ w' | Raise _ _ w' =>
      ∀ p o, store w !! p = Some o → store w' !! p = Some o
  | Panic | Diverge => True
  end ∧
  ∀ n w' a objs w1 direct namespaces children,
    ApplicationRun ParseGroupVersion cluster mapRange Slice (resolve fuel)
                   unstr w n w' a objs w1 direct namespaces children →
    ∀ p o, store w1 !! p = Some o → store w' !! p = Some o.
Proof.
  split.
  - pose proof (resolve_extends fuel unstr w) as H. unfold wp in H.
    destruct (resolve fuel unstr w); try done;
      intros p o Ho; by eapply world_le_lookup.
  - intros n w' a objs w1 direct namespaces children
           (projName & w0 & w2 & _ & _ & _ & _ & Htrack & Hclose & Hadd) p o Ho.
    pose proof (wp_Ret _ _ _ _ _ _
                  (extends_trackChildren _ (resolve_extends fuel) _ _ _ _ _ _) Htrack)
      as Hle1.
    pose proof (wp_Ret _ _ _ _ _ _
                  (extends_addChildren _ (resolve_extends fuel) _ _ _) Hadd) as Hle2.
    simpl in Hle1, Hle2.
    eapply world_le_lookup; [exact Hle2 |].
    eapply world_le_lookup; [exact Hle1 | exact Ho].
Qed.

(** With fuel, an object of a leaf kind is resolved to its node. *)
Lemma resolve_leaf_node fuel p o w :
  store w !! p = Some o → leaf o → resolve (S fuel) p w = graph_Node p w.
Proof.
  intros Ho [Hset Happ]. simpl. unfold Unstructured_.
  erewrite bind_eq; [| by apply deref_eq].
  rewrite (decide_False _ _ Hset), (decide_False _ _ Happ).
  by case_decide.
Qed.

End ResolveFacts.

(** * Failing list calls *)

Section ListFailures.

Variable ParseGroupVersion : string → GroupVersion_.
Variable cluster : Cluster.
Variable mapRange : gmap string (list ptr) → list (list ptr).
Variable Slice : gset ptr → list ptr.
Variable graph_Unstructured : ptr → M Node.

Hypothesis mapRange_perm : ∀ m, mapRange m ≡ₚ (map_to_list m).*2.

(** The harvest sees a cluster through what its list calls contribute. *)
Lemma listGroup_listed cluster' apiResource apis results w :
  (∀ gvr, listed cluster' gvr = listed cluster gvr) →
  listGroup ParseGroupVersion cluster' apiResource apis results w
  = listGroup ParseGroupVersion cluster apiResource apis results w.
Proof.
  intros Heq. revert results w.
  induction apis as [|api apis IH]; intros results w; simpl; [done |].
  case_decide; [apply IH |].
  unfold bind. rewrite !getObjectsForAResource_run, Heq. apply IH.
Qed.

Lemma listGroups_listed cluster' apiResources objs w :
  (∀ gvr, listed cluster' gvr = listed cluster gvr) →
  listGroups ParseGroupVersion cluster' mapRange apiResources objs w
  = listGroups ParseGroupVersion cluster mapRange apiResources objs w.
Proof.
  intros Heq. revert objs w.
  induction apiResources as [|apiResource rest IH]; intros objs w; simpl; [done |].
  unfold bind. rewrite (listGroup_listed _ _ _ _ _ Heq).
  destruct (listGroup _ _ _ _ _ _); [apply IH | done..].
Qed.

(** C4, as amended.  In the harvest of the whole cluster a list call that
    fails cannot be told from one that returns no object, neither by the
    harvest nor by the Application resolver run on it, and the harvest
    reports no error when the discovery succeeded; but when the
    Applications cannot be listed, the resolution of an ApplicationSet
    returns that error to its caller, and no node. *)
Theorem list_failure_absorbed_or_returned :
  (∀ cluster',
     ServerPreferredResources cluster' = ServerPreferredResources cluster →
     (∀ gvr, listed cluster' gvr = listed cluster gvr) →
     (∀ w, getAllObjects ParseGroupVersion cluster' mapRange w
           = getAllObjects ParseGroupVersion cluster mapRange w) ∧
     (∀ app w,
        Application ParseGroupVersion cluster' mapRange Slice graph_Unstructured app w
        = Application ParseGroupVersion cluster mapRange Slice graph_Unstructured app w)) ∧
  (∀ apiResources w,
     ServerPreferredResources cluster = (apiResources, None) →
     ∃ objs w',
       getAllObjects ParseGroupVersion cluster mapRange w = Ret (objs, None) w' ∧
       (λ p, store w' !! p) <$> objs
       ≡ₚ Some <$> concatenation ParseGroupVersion cluster apiResources) ∧
  (∀ e appset w,
     List cluster applicationsGVR = inr e →
     ApplicationSet cluster mapRange graph_Unstructured appset w = Raise None e w).
Proof using mapRange_perm.
  split; [| split].
  - intros cluster' Hdisc Heq.
    assert (∀ w, getAllObjects ParseGroupVersion cluster' mapRange w
                 = getAllObjects ParseGroupVersion cluster mapRange w) as Hget.
    { intros w. unfold getAllObjects. rewrite Hdisc.
      destruct (ServerPreferredResources cluster) as [apiResources [err|]]; [done |].
      unfold bind. by rewrite (listGroups_listed _ _ _ _ Heq). }
    split; [done |]. intros app w. unfold Application, bind.
    destruct (graph_Node app w) as [n w0| | |]; [| done..].
    destruct (deref app w0) as [a w1| | |]; [| done..].
    destruct (assertMap _) as [spec|]; [| done].
    destruct (assertString _) as [projName|]; [| done].
    by rewrite Hget.
  - intros apiResources w Hdisc.
    pose proof (getAllObjects_run ParseGroupVersion cluster mapRange mapRange_perm w) as H.
    rewrite Hdisc in H. destruct H as (objs & st' & Hrun & _ & _ & _ & Hcont).
    by exists objs, {| store := st'; graph := graph w |}.
  - intros e appset w Hlist. unfold ApplicationSet, getChildApplications, bind.
    rewrite getObjectsForAResource_run, Hlist. unfold ret, raise, listed.
    rewrite Hlist. destruct w. simpl. by rewrite app_nil_r.
Qed.

End ListFailures.

(** * What the harvest looks at *)

Section HarvestFrame.

Variable ParseGroupVersion : string → GroupVersion_.
Variables cluster cluster' : Cluster.
Variable mapRange : gmap string (list ptr) → list (list ptr).
Variable Slice : gset ptr → list ptr.
Variable graph_Unstructured : ptr → M Node.

Lemma listGroup_frame apiResource apis results w :
  (∀ api, api ∈ apis → api_Kind api ≠ "Event" →
          List cluster' (WithResource (ParseGroupVersion (GroupVersion apiResource))
                                      (api_Name api))
          = List cluster (WithResource (ParseGroupVersion (GroupVersion apiResource))
                                       (api_Name api))) →
  listGroup ParseGroupVersion cluster' apiResource apis results w
  = listGroup ParseGroupVersion cluster apiResource apis results w.
Proof.
  revert results w. induction apis as [|api apis IH]; intros results w Heq; simpl; [done |].
  case_decide as Hkind.
  - apply IH. intros api' Hin. apply Heq. by right.
  - unfold bind, getObjectsForAResource. rewrite (Heq api) by (by left || done).
    destruct (List cluster _) as [items|err]; simpl;
      apply IH; intros api' Hin; apply Heq; by right.
Qed.

Lemma listGroups_frame apiResources objs w :
  (∀ apiResource api,
     apiResource ∈ apiResources → api ∈ APIResources apiResource →
     api_Kind api ≠ "Event" →
     List cluster' (WithResource (ParseGroupVersion (GroupVersion apiResource))
                                 (api_Name api))
     = List cluster (WithResource (ParseGroupVersion (GroupVersion apiResource))
                                  (api_Name api))) →
  listGroups ParseGroupVersion cluster' mapRange apiResources objs w
  = listGroups ParseGroupVersion cluster mapRange apiResources objs w.
Proof.
  revert objs w.
  induction apiResources as [|apiResource rest IH]; intros objs w Heq; simpl; [done |].
  unfold bind. rewrite listGroup_frame by (intros api Hin; apply Heq; by left || done).
  destruct (listGroup _ _ _ _ _ _); [| done..].
  apply IH. intros apiResource' api Hin. apply Heq. by right.
Qed.

(** The harvest looks at the cluster through the discovery and through
    the list calls for the resource types of the catalog whose kind is
    not Event, and through nothing else: two clusters that agree on
    these give the same universe, and the same resolution of every
    Application, whatever they hold as Events or under resource types the
    discovery does not report. *)
Theorem getAllObjects_frame :
  ServerPreferredResources cluster' = ServerPreferredResources cluster →
  (∀ apiResource api,
     apiResource ∈ (ServerPreferredResources cluster).1 →
     api ∈ APIResources apiResource → api_Kind api ≠ "Event" →
     List cluster' (WithResource (ParseGroupVersion (GroupVersion apiResource))
                                 (api_Name api))
     = List cluster (WithResource (ParseGroupVersion (GroupVersion apiResource))
                                  (api_Name api))) →
  (∀ w, getAllObjects ParseGroupVersion cluster' mapRange w
        = getAllObjects ParseGroupVersion cluster mapRange w) ∧
  (∀ app w,
     Application ParseGroupVersion cluster' mapRange Slice graph_Unstructured app w
     = Application ParseGroupVersion cluster mapRange Slice graph_Unstructured app w).
Proof.
  intros Hdisc Heq.
  assert (∀ w, getAllObjects ParseGroupVersion cluster' mapRange w
               = getAllObjects ParseGroupVersion cluster mapRange w) as Hget.
  { intros w. unfold getAllObjects. rewrite Hdisc.
    destruct (ServerPreferredResources cluster) as [apiResources [err|]]; [done |].
    unfold bind. by rewrite (listGroups_frame _ _ _ Heq). }
  split; [done |]. intros app w. unfold Application, bind.
  destruct (graph_Node app w) as [n w0| | |]; [| done..].
  destruct (deref app w0) as [a w1| | |]; [| done..].
  destruct (assertMap _) as [spec|]; [| done].
  destruct (assertString _) as [projName|]; [| done].
  by rewrite Hget.
Qed.

End HarvestFrame.

(** * The tracking signals *)

Lemma append_cons a (s1 s2 : string) : String a s1 +:+ s2 = String a (s1 +:+ s2).
Proof. done. Qed.

Lemma append_nil (s : string) : "" +:+ s = s.
Proof. done. Qed.

Lemma append_assoc (s1 s2 s3 : string) : (s1 +:+ s2) +:+ s3 = s1 +:+ s2 +:+ s3.
Proof. induction s1 as [|a s1 IH]; [done |]. rewrite !append_cons. by f_equal. Qed.

Lemma prefix_append (s1 s2 : string) :
  String.prefix s1 s2 = true ↔ ∃ rest, s2 = s1 +:+ rest.
Proof.
  revert s2. induction s1 as [|a s1 IH]; intros s2.
  - destruct s2; simpl; (split; [intros _; by eexists | done]).
  - destruct s2 as [|b s2]; simpl.
    + split; [done | by intros [rest ?]].
    + destruct (Ascii.ascii_dec a b) as [->|Hne].
      * rewrite IH. split; intros [rest Hr]; exists rest; [by rewrite Hr | by injection Hr].
      * split; [done | intros [rest Hr]; by injection Hr].
Qed.

Lemma colon_split (n1 n2 r1 r2 : string) :
  hasColon n1 = false → hasColon n2 = false →
  n1 +:+ ":" +:+ r1 = n2 +:+ ":" +:+ r2 → n1 = n2.
Proof.
  revert n2. induction n1 as [|a n1 IH]; intros [|b n2];
    rewrite ?append_cons, ?append_nil; simpl; try done.
  - intros _ [Hb _]%orb_false_elim [= <- _]. by rewrite bool_decide_eq_true_2 in Hb.
  - intros [Ha _]%orb_false_elim _ [= -> _]. by rewrite bool_decide_eq_true_2 in Ha.
  - intros [_ H1]%orb_false_elim [_ H2]%orb_false_elim [= -> Heq]. f_equal. by apply IH.
Qed.

(** Signal (2) holds of an object exactly when its tracking-id
    annotation is the name, a colon and anything after it.  So an
    annotation attributes its object to at most one name without a colon
    (an Application named [app] does not claim the objects of [app1]),
    and the instance label attributes it to at most one name. *)
Theorem tracking_id_attribution :
  (∀ name o,
     hasTrackingID name o ↔
     ∃ rest, GetAnnotations o !! trackingIDAnnotation = Some (name +:+ ":" +:+ rest)) ∧
  (∀ name1 name2 o,
     hasColon name1 = false → hasColon name2 = false →
     hasTrackingID name1 o → hasTrackingID name2 o → name1 = name2) ∧
  (∀ name1 name2 o,
     hasInstanceLabel name1 o → hasInstanceLabel name2 o → name1 = name2).
Proof.
  assert (∀ name o,
            hasTrackingID name o ↔
            ∃ rest, GetAnnotations o !! trackingIDAnnotation
                    = Some (name +:+ ":" +:+ rest)) as Hiff.
  { intros name o. unfold hasTrackingID.
    destruct (GetAnnotations o !! trackingIDAnnotation) as [trackingID|].
    - rewrite Is_true_true, prefix_append. split.
      + intros [rest ->]. exists rest. by rewrite append_assoc.
      + intros [rest [= ->]]. exists rest. by rewrite append_assoc.
    - split; [done | by intros [rest ?]]. }
  split; [done |]. split.
  - intros name1 name2 o Hc1 Hc2 [r1 H1]%Hiff [r2 H2]%Hiff.
    rewrite H1 in H2. injection H2 as H2. by eapply colon_split.
  - intros name1 name2 o. unfold hasInstanceLabel.
    destruct (GetLabels o !! instanceLabel) as [trackingLabel|]; [| done].
    intros H1%bool_decide_unpack H2%bool_decide_unpack. congruence.
Qed.

(** * Applications that manage themselves *)

Section Cycles.

Variable ParseGroupVersion : string → GroupVersion_.
Variable cluster : Cluster.
Variable mapRange : gmap string (list ptr) → list (list ptr).
Variable Slice : gset ptr → list ptr.

Hypothesis Slice_perm : ∀ X, Slice X ≡ₚ elements X.
Hypothesis mapRange_perm : ∀ m, mapRange m ≡ₚ (map_to_list m).*2.

(** The engine has no cycle detection.  When the cluster lists an
    Application that shows signal (2) or (3) for its own name, the
    resolution of an Application of that name never returns a node,
    however deep the recursion is allowed to go: each resolution harvests
    a fresh copy of that Application, finds it among its children and
    resolves it in turn. *)
Theorem self_tracking_never_returns apiResources o :
  ServerPreferredResources cluster = (apiResources, None) →
  o ∈ concatenation ParseGroupVersion cluster apiResources →
  GetKind o = "Application" → tracked (GetName o) o →
  ∀ fuel app w a,
    store w !! app = Some a → GetKind a = "Application" → GetName a = GetName o →
    ∀ n w', resolve ParseGroupVersion cluster mapRange Slice fuel app w ≠ Ret n w'.
Proof using Slice_perm mapRange_perm.
  intros Hdisc Hin Hkind Htr.
  induction fuel as [|fuel IH]; intros app w a Ha Hka Hname n w' Hrun; [done |].
  simpl in Hrun. unfold Unstructured_ in Hrun.
  erewrite bind_eq in Hrun by (by apply deref_eq).
  rewrite Hka, decide_False, decide_True in Hrun by done.
  apply Application_Ret in Hrun
    as (a' & objs & w1 & direct & namespaces & children & Hrun).
  destruct (ApplicationRun_facts _ _ _ _ _
              (resolve_extends ParseGroupVersion cluster mapRange Slice fuel)
              Slice_perm mapRange_perm _ _ _ _ _ _ _ _ _ _ Hrun)
    as (_ & _ & _ & _ & Hdir & _ & Hch & _).
  destruct Hrun as (projName & w0 & w2 & Ha' & Hn & _ & Hobjs & Htrack & _ & Hadd).
  assert (a' = a) as -> by congruence.
  pose proof (getAllObjects_run ParseGroupVersion cluster mapRange mapRange_perm w0) as H.
  rewrite Hdisc in H.
  destruct H as (objs' & st' & Hobjs' & _ & _ & _ & Hcont).
  rewrite Hobjs' in Hobjs. injection Hobjs as -> <-.
  assert (Some o ∈ (λ p, st' !! p) <$> objs) as Hq.
  { rewrite Hcont. by apply list_elem_of_fmap_2. }
  apply list_elem_of_fmap in Hq as (q & Hq & Hqin). symmetry in Hq.
  assert (q ∈ Slice children) as Hchild.
  { rewrite (Slice_perm children). apply elem_of_elements, Hch. left. apply Hdir.
    split; [done |]. exists o. split; [done |]. by rewrite Hname. }
  destruct (wp_Ret _ _ _ _ _ _
              (addChildren_at _ (resolve_extends ParseGroupVersion cluster mapRange Slice fuel)
                 _ _ _) Hadd q Hchild)
    as (_ & c & wi & wj & Hle & Hc & _).
  pose proof (wp_Ret _ _ _ _ _ _
                (extends_trackChildren _
                   (resolve_extends ParseGroupVersion cluster mapRange Slice fuel)
                   _ _ _ _ _ _) Htrack) as Hle12.
  simpl in Hle12.
  apply (IH q wi o) with (n := c) (w' := wj); [| done | done | exact Hc].
  eapply world_le_lookup; [exact Hle |]. eapply world_le_lookup; [exact Hle12 |]. done.
Qed.

End Cycles.

(** * The edges of the engine closed through the dispatcher *)

Section OwnNodes.

Variable ParseGroupVersion : string → GroupVersion_.
Variable cluster : Cluster.
Variable mapRange : gmap string (list ptr) → list (list ptr).
Variable Slice : gset ptr → list ptr.

Hypothesis Slice_perm : ∀ X, Slice X ≡ₚ elements X.
Hypothesis mapRange_perm : ∀ m, mapRange m ≡ₚ (map_to_list m).*2.

Abbreviation resolve := (resolve ParseGroupVersion cluster mapRange Slice).

(** The node to which the closed engine resolves an object is the
    object's own node, and it is in the sink. *)
Lemma resolved_own_node fuel w w' p o c :
  resolved (resolve fuel) w w' p o c →
  c = nodeOf (GroupVersionKindOf o) o ∧ c ∈ Nodes (graph w').
Proof.
  intros (wi & wj & _ & Ho & Hc & Hle). destruct fuel as [|fuel]; [done |].
  simpl in Hc.
  destruct (Unstructured_own_node ParseGroupVersion cluster mapRange Slice _
              (resolve_extends ParseGroupVersion cluster mapRange Slice fuel)
              p wi o c wj Ho Hc) as [-> Hin].
  split; [done |]. by apply (le_Nodes _ _ Hle).
Qed.

(** When every child is resolved by the engine itself, the edges of an
    Application lead to the children's own nodes: after a resolution
    that returns, every object of the universe that is the project of
    the Application, shows signal (2) or (3) or lies in a recorded
    namespace has its own node in the sink, and the edge from the node
    of the Application to that node, labelled with its kind. *)
Theorem resolve_Application_edges fuel app w n w' :
  Application ParseGroupVersion cluster mapRange Slice (resolve fuel) app w = Ret n w' →
  ∃ a projName objs w1 direct namespaces children,
    ApplicationRun ParseGroupVersion cluster mapRange Slice (resolve fuel)
                   app w n w' a objs w1 direct namespaces children ∧
    spec_project a = Some projName ∧
    n = nodeOf (GroupVersionKindOf a) a ∧
    ∀ p o, p ∈ objs → store w1 !! p = Some o →
           isProject projName o ∨ tracked (GetName a) o ∨ GetNamespace o ∈ namespaces →
           nodeOf (GroupVersionKindOf o) o ∈ Nodes (graph w') ∧
           edge n (GetKind o) (nodeOf (GroupVersionKindOf o) o)
             ∈ Relationships (graph w').
Proof using Slice_perm mapRange_perm.
  intros (a & objs & w1 & direct & namespaces & children & Hrun)%Application_Ret.
  destruct (ApplicationRun_facts _ _ _ _ _
              (resolve_extends ParseGroupVersion cluster mapRange Slice fuel)
              Slice_perm mapRange_perm _ _ _ _ _ _ _ _ _ _ Hrun)
    as (Hn & _ & _ & _ & Hdir & _ & Hch & Hedges & Hprojs).
  pose proof Hrun as (projName & w0 & w2 & _ & _ & Hproj & _).
  exists a, projName, objs, w1, direct, namespaces, children. split; [done |].
  split; [by rewrite <- assert_spec_project |]. split; [done |].
  assert (∀ p o c, resolved (resolve fuel) w1 w' p o c →
                   edge n (GetKind o) c ∈ Relationships (graph w') →
                   nodeOf (GroupVersionKindOf o) o ∈ Nodes (graph w') ∧
                   edge n (GetKind o) (nodeOf (GroupVersionKindOf o) o)
                     ∈ Relationships (graph w')) as Hown.
  { intros p o c Hres Hin. by destruct (resolved_own_node _ _ _ _ _ _ Hres) as [-> ?]. }
  intros p o Hp Ho [Hisp|Hchild].
  - destruct (Hprojs p o projName Hproj Hp Ho Hisp) as (c & Hres & Hin).
    by apply (Hown p o c).
  - destruct (Hedges p o) as (c & Hres & Hin); [| done | by apply (Hown p o c)].
    apply Hch. destruct Hchild as [Htr|Hns].
    + left. apply Hdir. split; [done |]. by exists o.
    + right. split; [done |]. by exists o.
Qed.

(** When every child is resolved by the engine itself, the edges of an
    ApplicationSet lead to the owned Applications' own nodes: after a
    resolution that returns, every listed Application that carries an
    owner reference to the ApplicationSet has its own node in the sink,
    and the edge from the node of the ApplicationSet to that node,
    labelled with its kind. *)
Theorem resolve_ApplicationSet_edges fuel appset w n w' :
  ApplicationSet cluster mapRange (resolve fuel) appset w = Ret n w' →
  ∃ s items,
    List cluster applicationsGVR = inl items ∧
    (store w ++ items) !! appset = Some s ∧
    n = nodeOf (GroupVersionKindOf s) s ∧
    ∀ o, o ∈ items → owned s o →
         nodeOf (GroupVersionKindOf o) o ∈ Nodes (graph w') ∧
         edge n (GetKind o) (nodeOf (GroupVersionKindOf o) o)
           ∈ Relationships (graph w').
Proof using mapRange_perm.
  intros ([objs [e|]] & w1 & Hobjs & H)%bind_Ret; [done |].
  apply bind_Ret in H as (n0 & w2 & Hn & H).
  apply bind_Ret in H as ([] & w3 & Hown & [= <- <-]).
  destruct (graph_Node_Ret _ _ _ _ Hn) as (s & Hs & -> & ->).
  rewrite (getChildApplications_run _ _ mapRange_perm) in Hobjs.
  destruct (List cluster applicationsGVR) as [items|e]; [| done].
  injection Hobjs as <- <-. simpl in *.
  destruct (wp_Ret _ _ _ _ _ _
              (ownedApplications_spec _
                 (resolve_extends ParseGroupVersion cluster mapRange Slice fuel) _ _ _ _)
              Hown) as (Hle & Hedges & _).
  exists s, items. split; [done |]. split; [done |]. split; [done |].
  intros o Ho Hown'.
  apply list_elem_of_lookup in Ho as [i Hi].
  set (p := length (store w) + i).
  assert ((store w ++ items) !! p = Some o) as Hp.
  { unfold p. rewrite lookup_app_r by lia. by replace (_ + i - _) with i by lia. }
  destruct (Hedges s p o) as (c & Hres & Hin).
  - by eapply (world_le_lookup _ _ _ _ Hle).
  - apply elem_of_seq. apply lookup_lt_Some in Hi. unfold p. lia.
  - by eapply (world_le_lookup _ _ _ _ Hle).
  - done.
  - apply called_resolved with (o := o) in Hres; [| exact Hp].
    by destruct (resolved_own_node _ _ _ _ _ _ Hres) as [-> Hnode].
Qed.

End OwnNodes.

(** * The other revision *)

Lemma elem_of_Nodes_addNode c n g : c ∈ Nodes (addNode n g) ↔ c = n ∨ c ∈ Nodes g.
Proof.
  unfold addNode. case_decide; simpl.
  - split; [by right | by intros [->|]].
  - rewrite elem_of_app, list_elem_of_singleton. tauto.
Qed.

Lemma elem_of_relateGraph_Relationships r b n o g :
  r ∈ Relationships (relateGraph b n o g) ↔
  r ∈ Relationships g ∨ (b ∧ r = edge n (GetKind o) (nodeOf (GroupVersionKindOf o) o)).
Proof.
  unfold relateGraph. destruct b; simpl.
  - rewrite elem_of_addRelationship, addNode_Relationships. tauto.
  - tauto.
Qed.

Lemma elem_of_relateGraph_Nodes c b n o g :
  c ∈ Nodes (relateGraph b n o g) ↔
  c ∈ Nodes g ∨ (b ∧ c = nodeOf (GroupVersionKindOf o) o).
Proof.
  unfold relateGraph. destruct b; simpl.
  - rewrite addRelationship_Nodes, elem_of_Nodes_addNode. tauto.
  - tauto.
Qed.

Lemma filter_unkinded (apis : list APIResource) :
  api_Name <$> filter (λ api, api_Kind api ≠ "Event")
                      ((λ api, {| api_Name := api_Name api; api_Kind := "" |}) <$> apis)
  = api_Name <$> apis.
Proof.
  induction apis as [|api apis IH]; [done |].
  rewrite fmap_cons, filter_cons, decide_True by done. simpl. by f_equal.
Qed.

Section Part000Facts.

Variable ParseGroupVersion : string → GroupVersion_.
Variable mapRange : gmap string (list ptr) → list (list ptr).

(** *** The two harvests *)

Lemma Part000_listGroup c' c apiResource' apiResource apis' apis results w :
  (∀ gvr, List c' gvr = List c gvr) →
  GroupVersion apiResource' = GroupVersion apiResource →
  api_Name <$> apis' = api_Name <$> filter (λ api, api_Kind api ≠ "Event") apis →
  Part000.listGroup ParseGroupVersion c' apiResource' apis' results w
  = listGroup ParseGroupVersion c apiResource apis results w.
Proof.
  intros HList Hgv. revert apis' results w.
  induction apis as [|api apis IH]; intros apis' results w Hnames.
  { by destruct apis'. }
  simpl. rewrite filter_cons in Hnames.
  destruct (decide (api_Kind api = "Event")) as [Hkind|Hkind].
  - rewrite decide_False in Hnames by (intros Hne; by apply Hne). by apply IH.
  - rewrite decide_True in Hnames by done.
    destruct apis' as [|api' apis']; [done |]. injection Hnames as Hname Hnames.
    simpl. unfold bind, Part000.getObjectsForAResource, getObjectsForAResource.
    rewrite Hgv, Hname, HList.
    destruct (List c _) as [items|err]; simpl; by apply IH.
Qed.

Lemma Part000_getAllObjects c' c w :
  sameHarvest c' c →
  Part000.getAllObjects ParseGroupVersion c' mapRange w
  = getAllObjects ParseGroupVersion c mapRange w.
Proof.
  intros (HList & Herr & Hall). unfold Part000.getAllObjects, getAllObjects.
  destruct (ServerPreferredResources c') as [apiResources' err'].
  destruct (ServerPreferredResources c) as [apiResources err].
  simpl in *. subst err'. destruct err as [err|]; [done |].
  unfold bind.
  assert (∀ objs,
            Part000.listGroups ParseGroupVersion c' mapRange apiResources' objs w
            = listGroups ParseGroupVersion c mapRange apiResources objs w) as ->; [| done].
  revert w.
  induction Hall as [|apiResource' apiResource rest' rest [Hgv Hnames] _ IH];
    intros w objs; simpl; [done |].
  unfold bind.
  rewrite (Part000_listGroup c' c _ apiResource _ (APIResources apiResource)) by done.
  destruct (listGroup _ _ _ _ _ _); [apply IH | done..].
Qed.

(** The two revisions differ in their harvest by the Events only: the
    harvest of this revision is the harvest of the other one on the
    catalog from which the resources of kind Event were taken out, for
    every answer of the cluster and every order of map iteration. *)
Theorem getAllObjects_without_events cluster w :
  getAllObjects ParseGroupVersion cluster mapRange w
  = Part000.getAllObjects ParseGroupVersion (withoutEvents cluster) mapRange w.
Proof.
  symmetry. apply Part000_getAllObjects. split; [done |]. split; [done |]. simpl.
  induction (ServerPreferredResources cluster).1 as [|apiResource rest IH];
    simpl; constructor; [by split | done].
Qed.

Lemma sameHarvest_unkinded cluster : sameHarvest cluster (unkindedCluster cluster).
Proof.
  split; [done |]. split; [done |]. simpl.
  induction (ServerPreferredResources cluster).1 as [|apiResource rest IH];
    simpl; constructor; [| done].
  split; [done |]. simpl. by rewrite filter_unkinded.
Qed.

Lemma concatenation_unkinded cluster apiResources :
  concatenation ParseGroupVersion (unkindedCluster cluster) (unkinded <$> apiResources)
  = concatenationAll ParseGroupVersion cluster apiResources.
Proof.
  unfold concatenation, concatenationAll. rewrite <- list_fmap_compose.
  f_equal. apply list_fmap_ext. intros _ apiResource _. simpl.
  unfold harvestedNames, allNames. simpl. by rewrite filter_unkinded.
Qed.

Variable cluster : Cluster.

Hypothesis mapRange_perm : ∀ m, mapRange m ≡ₚ (map_to_list m).*2.

(** The harvest of the other revision: it fails only when the discovery
    does, and then returns the empty universe with the error; otherwise
    it returns pairwise distinct fresh addresses that point, up to the
    order, to the concatenation of the list results for all the resource
    types of the catalog, those of kind Event included, and leaves the
    graph alone. *)
Theorem Part000_getAllObjects_run w :
  match ServerPreferredResources cluster with
  | (_, Some err) =>
      Part000.getAllObjects ParseGroupVersion cluster mapRange w = Ret ([], Some err) w
  | (apiResources, None) =>
      ∃ objs st',
        Part000.getAllObjects ParseGroupVersion cluster mapRange w
        = Ret (objs, None) {| store := st'; graph := graph w |} ∧
        store w `prefix_of` st' ∧
        NoDup objs ∧
        (∀ p, p ∈ objs → length (store w) ≤ p < length st') ∧
        (λ p, st' !! p) <$> objs
        ≡ₚ Some <$> concatenationAll ParseGroupVersion cluster apiResources
  end.
Proof using mapRange_perm.
  rewrite (Part000_getAllObjects cluster (unkindedCluster cluster) w
             (sameHarvest_unkinded cluster)).
  pose proof (getAllObjects_run ParseGroupVersion (unkindedCluster cluster) mapRange
                mapRange_perm w) as H.
  simpl in H. destruct (ServerPreferredResources cluster) as [apiResources [err|]];
    simpl in H; [done |].
  destruct H as (objs & st' & Hrun & Hpre & Hnd & Hrange & Hcont).
  rewrite concatenation_unkinded in Hcont. by exists objs, st'.
Qed.

(** *** The Application resolver of the other revision *)

Lemma relateIf_run (b : bool) n obj o w :
  store w !! obj = Some o →
  (if b then Part000.relate n obj else ret tt) w
  = Ret tt {| store := store w; graph := relateGraph b n o (graph w) |}.
Proof.
  intros Ho. destruct b; [| by destruct w].
  unfold Part000.relate. erewrite bind_eq; [| by apply deref_eq].
  erewrite bind_eq; [| unfold graph_Node; erewrite bind_eq; [| by apply deref_eq]; done].
  done.
Qed.

Lemma addEdges_run n app a projName objs w :
  store w !! app = Some a →
  (∀ p, p ∈ objs → is_Some (store w !! p)) →
  ∃ g',
    Part000.addEdges n app projName objs w = Ret tt {| store := store w; graph := g' |} ∧
    (∀ r, r ∈ Relationships g' ↔
          r ∈ Relationships (graph w) ∨
          ∃ p o, p ∈ objs ∧ store w !! p = Some o ∧
                 (isProject projName o ∨ tracked (GetName a) o) ∧
                 r = edge n (GetKind o) (nodeOf (GroupVersionKindOf o) o)) ∧
    (∀ c, c ∈ Nodes g' ↔
          c ∈ Nodes (graph w) ∨
          ∃ p o, p ∈ objs ∧ store w !! p = Some o ∧
                 (isProject projName o ∨ tracked (GetName a) o) ∧
                 c = nodeOf (GroupVersionKindOf o) o).
Proof.
  clear mapRange_perm. clear ParseGroupVersion mapRange cluster.
  revert w. induction objs as [|obj objs IH]; intros w Ha Hvalid; simpl.
  { exists (graph w). split; [by destruct w |].
    split; intros x; (split; [by left | intros [?|(p & o & []%elem_of_nil & _)]; done]). }
  destruct (Hvalid obj) as [o Ho]; [by left |].
  erewrite bind_eq; [| by apply deref_eq].
  erewrite bind_eq; [| by apply (relateIf_run _ _ _ o)].
  erewrite bind_eq; [| by apply deref_eq].
  erewrite bind_eq; [| by apply deref_eq].
  erewrite bind_eq; [| by apply (relateIf_run _ _ _ o)].
  erewrite bind_eq; [| by apply deref_eq].
  erewrite bind_eq; [| by apply deref_eq].
  erewrite bind_eq; [| by apply (relateIf_run _ _ _ o)].
  simpl.
  set (g3 := relateGraph (hasInstanceLabel (GetName a) o) n o
               (relateGraph (hasTrackingID (GetName a) o) n o
                  (relateGraph (isProject projName o) n o (graph w)))).
  destruct (IH {| store := store w; graph := g3 |}) as (g' & Hrun & HR & HN);
    [done | intros p Hp; apply Hvalid; by right |].
  exists g'. split; [exact Hrun |]. simpl in HR, HN.
  assert (isProject projName o ∨ tracked (GetName a) o ↔
          isProject projName o ∨ hasTrackingID (GetName a) o
          ∨ hasInstanceLabel (GetName a) o) as Hcond.
  { unfold tracked. rewrite orb_True. tauto. }
  split.
  - intros r. rewrite HR. unfold g3. rewrite !elem_of_relateGraph_Relationships.
    split.
    + intros [[[[?|[? ->]]|[? ->]]|[? ->]]|(p & o' & Hp & Ho' & Hc & ->)].
      * by left.
      * right. exists obj, o. rewrite Hcond. split; [by left |]. tauto.
      * right. exists obj, o. rewrite Hcond. split; [by left |]. tauto.
      * right. exists obj, o. rewrite Hcond. split; [by left |]. tauto.
      * right. exists p, o'. split; [by right | done].
    + intros [?|(p & o' & [->|Hp]%elem_of_cons & Ho' & Hc & ->)].
      * tauto.
      * assert (o' = o) as -> by congruence. apply Hcond in Hc. tauto.
      * right. by exists p, o'.
  - intros c. rewrite HN. unfold g3. rewrite !elem_of_relateGraph_Nodes.
    split.
    + intros [[[[?|[? ->]]|[? ->]]|[? ->]]|(p & o' & Hp & Ho' & Hc & ->)].
      * by left.
      * right. exists obj, o. rewrite Hcond. split; [by left |]. tauto.
      * right. exists obj, o. rewrite Hcond. split; [by left |]. tauto.
      * right. exists obj, o. rewrite Hcond. split; [by left |]. tauto.
      * right. exists p, o'. split; [by right | done].
    + intros [?|(p & o' & [->|Hp]%elem_of_cons & Ho' & Hc & ->)].
      * tauto.
      * assert (o' = o) as -> by congruence. apply Hcond in Hc. tauto.
      * right. by exists p, o'.
Qed.

(** The Application resolver of the other revision, for a well-formed
    spec.  When the discovery fails, it returns the error together with
    its node.  Otherwise it returns its node, without ever calling the
    dispatcher of the graph; the objects are those it harvested; and the
    edges of the sink are those that were there and, for each object of
    the universe that is the project or shows signal (2) or (3), the edge
    from the node of the Application to the node of that object, labelled
    with its kind: an object that only shares the namespace of a tracked
    one gets no edge. *)
Theorem Part000_Application_run app w a projName :
  store w !! app = Some a → spec_project a = Some projName →
  let n := nodeOf (GroupVersionKindOf a) a in
  let w0 := {| store := store w; graph := addNode n (graph w) |} in
  match ServerPreferredResources cluster with
  | (_, Some err) =>
      Part000.Application ParseGroupVersion cluster mapRange app w = Raise (Some n) err w0
  | (apiResources, None) =>
      ∃ objs st' g',
        Part000.getAllObjects ParseGroupVersion cluster mapRange w0
        = Ret (objs, None) {| store := st'; graph := graph w0 |} ∧
        Part000.Application ParseGroupVersion cluster mapRange app w
        = Ret n {| store := st'; graph := g' |} ∧
        (∀ r, r ∈ Relationships g' ↔
              r ∈ Relationships (graph w) ∨
              ∃ p o, p ∈ objs ∧ st' !! p = Some o ∧
                     (isProject projName o ∨ tracked (GetName a) o) ∧
                     r = edge n (GetKind o) (nodeOf (GroupVersionKindOf o) o)) ∧
        (∀ c, c ∈ Nodes g' ↔
              c = n ∨ c ∈ Nodes (graph w) ∨
              ∃ p o, p ∈ objs ∧ st' !! p = Some o ∧
                     (isProject projName o ∨ tracked (GetName a) o) ∧
                     c = nodeOf (GroupVersionKindOf o) o)
  end.
Proof using mapRange_perm.
  intros Ha Hspec n w0. rewrite <- assert_spec_project in Hspec.
  assert (∀ r, Part000.Application ParseGroupVersion cluster mapRange app w = r →
               r = ('(objs, err) <- Part000.getAllObjects ParseGroupVersion cluster mapRange;
                    match err with
                    | Some e => raise (Some n) e
                    | None => Part000.addEdges n app projName objs;; ret n
                    end) w0) as Hbody.
  { intros r <-. unfold Part000.Application.
    erewrite bind_eq; [| unfold graph_Node; erewrite bind_eq; [| by apply deref_eq]; done].
    erewrite bind_eq; [| by apply deref_eq].
    destruct (assertMap (index (Object a) "spec")) as [spec|]; [| done].
    simpl in Hspec. by rewrite Hspec. }
  pose proof (Part000_getAllObjects_run w0) as H.
  destruct (ServerPreferredResources cluster) as [apiResources [err|]].
  { rewrite (Hbody _ eq_refl). unfold bind. by rewrite H. }
  destruct H as (objs & st' & Hobjs & Hpre & _ & Hrange & _).
  destruct (addEdges_run n app a projName objs {| store := st'; graph := graph w0 |})
    as (g' & Hrun & HR & HN).
  { simpl. eapply prefix_lookup_Some; [exact Ha | exact Hpre]. }
  { intros p Hp. apply lookup_lt_is_Some. simpl. by apply Hrange. }
  exists objs, st', g'. split; [done |]. split.
  - rewrite (Hbody _ eq_refl). unfold bind at 1. rewrite Hobjs.
    unfold bind. by rewrite Hrun.
  - simpl in HR, HN. split.
    + intros r. rewrite HR. by rewrite addNode_Relationships.
    + intros c. rewrite HN, elem_of_Nodes_addNode. tauto.
Qed.

(** The dispatcher of the other revision never resolves a child: when the
    discovery works, it returns the node of every object, an Application
    with a well-formed spec included, and nothing that the cluster holds
    can make the resolution fail; for an object that is not an
    Application it neither harvests nor adds an edge. *)
Theorem Part000_Unstructured_returns unstr w u :
  store w !! unstr = Some u →
  (ServerPreferredResources cluster).2 = None →
  (GetKind u = "Application" → is_Some (spec_project u)) →
  let n := nodeOf (GroupVersionKindOf u) u in
  ∃ w',
    Part000.Unstructured_ ParseGroupVersion cluster mapRange unstr w = Ret n w' ∧
    world_le w w' ∧
    (GetKind u ≠ "Application" →
     w' = {| store := store w; graph := addNode n (graph w) |}).
Proof using mapRange_perm.
  intros Hu Hdisc Hspec n.
  assert (graph_Node unstr w = Ret n {| store := store w; graph := addNode n (graph w) |})
    as Hnode.
  { unfold graph_Node. erewrite bind_eq; [| by apply deref_eq]. done. }
  pose proof (wp_Ret _ _ _ _ _ _ (extends_graph_Node unstr w) Hnode) as Hle.
  unfold Part000.Unstructured_. erewrite bind_eq; [| by apply deref_eq].
  destruct (decide (GetKind u = "ApplicationSet")) as [Hset|Hset].
  { eexists. split; [exact Hnode |]. by split. }
  destruct (decide (GetKind u = "Application")) as [Happ|Happ].
  - destruct (Hspec Happ) as [projName Hproj].
    pose proof (Part000_Application_run unstr w u projName Hu Hproj) as Hrun.
    pose proof (Part000_getAllObjects_run
                  {| store := store w; graph := addNode n (graph w) |}) as Hharvest.
    cbv zeta in Hrun. fold n in Hrun.
    destruct (ServerPreferredResources cluster) as [apiResources [err|]]; [done |].
    destruct Hrun as (objs & st' & g' & Hobjs & Hrun & HR & HN).
    destruct Hharvest as (objs0 & st0 & Hobjs0 & Hpre & _).
    rewrite Hobjs in Hobjs0. injection Hobjs0 as <- <-.
    eexists. split; [exact Hrun |]. split; [| done].
    split; simpl; [done | |].
    + intros c Hc. apply HN. by auto.
    + intros r Hr. apply HR. by auto.
  - assert (∀ m : M Node, m = graph_Node unstr →
                          ∃ w', m w = Ret n w' ∧ world_le w w' ∧
                                (GetKind u ≠ "Application" →
                                 w' = {| store := store w;
                                         graph := addNode n (graph w) |})) as Hleaf.
    { intros m ->. eexists. split; [exact Hnode |]. by split. }
    case_decide; by apply Hleaf.
Qed.

End Part000Facts.

(** * The two revisions side by side *)

Lemma sameHarvest_withoutEvents cluster : sameHarvest (withoutEvents cluster) cluster.
Proof.
  split; [done |]. split; [done |]. simpl.
  induction (ServerPreferredResources cluster).1 as [|apiResource rest IH];
    simpl; constructor; [by split | done].
Qed.

Section Revisions.

Variable ParseGroupVersion : string → GroupVersion_.
Variable cluster : Cluster.
Variable mapRange : gmap string (list ptr) → list (list ptr).
Variable Slice : gset ptr → list ptr.
Variable graph_Unstructured : ptr → M Node.

Hypothesis graph_Unstructured_extends : ∀ p, extends (graph_Unstructured p).
Hypothesis Slice_perm : ∀ X, Slice X ≡ₚ elements X.
Hypothesis mapRange_perm : ∀ m, mapRange m ≡ₚ (map_to_list m).*2.

(** The dispatcher of the graph resolves an object of a leaf kind to its
    node, as the dispatcher of the engine does. *)
Hypothesis graph_Unstructured_leaf :
  ∀ p wi o, store wi !! p = Some o → leaf o → graph_Unstructured p wi = graph_Node p wi.

(** On a cluster that lists objects of leaf kinds only, this revision
    registers every node and every edge that the other revision registers
    when the Events are kept from it: going through the dispatcher and
    closing over the namespaces adds to the graph and takes nothing away. *)
Theorem Application_extends_Part000 app w a projName apiResources :
  store w !! app = Some a → spec_project a = Some projName →
  ServerPreferredResources cluster = (apiResources, None) →
  (∀ o, o ∈ concatenation ParseGroupVersion cluster apiResources → leaf o) →
  ∃ n w0 w1,
    Part000.Application ParseGroupVersion (withoutEvents cluster) mapRange app w
    = Ret n w0 ∧
    Application ParseGroupVersion cluster mapRange Slice graph_Unstructured app w
    = Ret n w1 ∧
    Nodes (graph w0) ⊆ Nodes (graph w1) ∧
    Relationships (graph w0) ⊆ Relationships (graph w1).
Proof using All.
  intros Ha Hspec Hdisc Hleaf.
  set (n := nodeOf (GroupVersionKindOf a) a).
  set (wn := {| store := store w; graph := addNode n (graph w) |}).
  (* the other revision *)
  pose proof (Part000_Application_run ParseGroupVersion mapRange (withoutEvents cluster)
                mapRange_perm app w a projName Ha Hspec) as Hold.
  assert (ServerPreferredResources (withoutEvents cluster)
          = ((ServerPreferredResources (withoutEvents cluster)).1, None)) as Hdisc'.
  { simpl. by rewrite Hdisc. }
  cbv zeta in Hold. rewrite Hdisc' in Hold.
  destruct Hold as (objs & st' & g' & Hharvest & Hold & HR & HN).
  fold n in Hharvest, Hold, HR, HN. fold wn in Hharvest.
  rewrite (Part000_getAllObjects ParseGroupVersion mapRange _ cluster wn
             (sameHarvest_withoutEvents cluster)) in Hharvest.
  (* this revision *)
  assert (∀ p o wi, store wi !! p = Some o → leaf o →
                    ∃ c wj, graph_Unstructured p wi = Ret c wj) as Hreturns.
  { intros p o wi Ho Hl. rewrite (graph_Unstructured_leaf p wi o Ho Hl).
    unfold graph_Node. erewrite bind_eq; [| by apply deref_eq]. by eauto. }
  destruct (Application_returns ParseGroupVersion cluster mapRange Slice graph_Unstructured
              graph_Unstructured_extends Slice_perm mapRange_perm leaf Hreturns
              app w a projName apiResources Ha Hspec Hdisc Hleaf) as (n' & w' & Hnew).
  pose proof Hnew as (a' & objs' & w1 & direct & namespaces & children & Hrun)%Application_Ret.
  destruct (ApplicationRun_facts _ _ _ _ _ graph_Unstructured_extends Slice_perm
              mapRange_perm _ _ _ _ _ _ _ _ _ _ Hrun)
    as (Hn' & Hle01 & Hle13 & _ & Hdir & _ & Hch & _).
  destruct Hrun as (projName' & wn' & w2 & Ha' & Hnode & Hproj & Hobjs & Htrack & _ & Hadd).
  assert (a' = a) as -> by congruence. fold n in Hn'. subst n'.
  rewrite assert_spec_project in Hproj.
  assert (projName' = projName) as -> by congruence.
  assert (wn' = wn) as ->.
  { by destruct (graph_Node_Ret _ _ _ _ Hnode) as (a' & _ & _ & ->). }
  rewrite Hharvest in Hobjs. injection Hobjs as <- <-.
  set (w1 := {| store := st'; graph := graph wn |}) in *.
  pose proof (getAllObjects_run ParseGroupVersion cluster mapRange mapRange_perm wn) as H.
  rewrite Hdisc in H. destruct H as (objs0 & st0 & Hrun0 & _ & _ & _ & Hcont).
  rewrite Hharvest in Hrun0. injection Hrun0 as <- <-.
  pose proof (wp_Ret _ _ _ _ _ _ (extends_trackChildren _ graph_Unstructured_extends
                                    _ _ _ _ _ _) Htrack) as Hle12.
  pose proof (wp_Ret _ _ _ _ _ _ (extends_addChildren _ graph_Unstructured_extends
                                    _ _ _) Hadd) as Hle23.
  simpl in Hle12, Hle23.
  (* every matched object is resolved to its own node, which is in the
     sink with its edge *)
  assert (∀ p o, p ∈ objs → st' !! p = Some o →
                 isProject projName o ∨ tracked (GetName a) o →
                 nodeOf (GroupVersionKindOf o) o ∈ Nodes (graph w') ∧
                 edge n (GetKind o) (nodeOf (GroupVersionKindOf o) o)
                   ∈ Relationships (graph w')) as Hmatched.
  { intros p o Hp Ho Hcond.
    assert (leaf o) as Hl.
    { apply Hleaf.
      assert (Some o ∈ (λ p, st' !! p) <$> objs) as Hin.
      { rewrite <- Ho. by apply (list_elem_of_fmap_2 (λ p, st' !! p)). }
      rewrite Hcont in Hin. by apply list_elem_of_fmap in Hin as (? & [= <-] & ?). }
    assert (∃ c wi wj, world_le w1 wi ∧ graph_Unstructured p wi = Ret c wj ∧
                       world_le wj w' ∧
                       edge n (GetKind o) c ∈ Relationships (graph w'))
      as (c & wi & wj & Hlei & Hc & Hlej & Hedge).
    { destruct (decide (tracked (GetName a) o)) as [Htr|Hntr].
      - assert (p ∈ Slice children) as Hchild.
        { rewrite (Slice_perm children). apply elem_of_elements, Hch. left. apply Hdir.
          split; [done |]. by exists o. }
        destruct (wp_Ret _ _ _ _ _ _
                    (addChildren_at _ graph_Unstructured_extends _ _ _) Hadd p Hchild)
          as (o' & c & wi & wj & Hlei & Hc & Hlej & Ho' & Hedge).
        pose proof (world_le_lookup w1 w' p o Hle13 Ho) as Ho3.
        assert (o' = o) as -> by congruence.
        exists c, wi, wj. split; [by etrans | done].
      - assert (isProject projName o) as Hisp by tauto.
        destruct (wp_Ret _ _ _ _ _ _
                    (trackChildren_at _ graph_Unstructured_extends _ _ _ _ _ _) Htrack
                    p o Hp (world_le_lookup w1 w2 p o Hle12 Ho) Hisp)
          as (c & wi & wj & Hlei & Hc & Hlej & Hedge).
        exists c, wi, wj. split; [done |]. split; [done |].
        split; [by etrans |]. eapply world_le_Relationship; [exact Hle23 | done]. }
    assert (store wi !! p = Some o) as Hoi by (by eapply world_le_lookup).
    rewrite (graph_Unstructured_leaf p wi o Hoi Hl) in Hc.
    destruct (graph_Node_Ret _ _ _ _ Hc) as (o' & Ho' & -> & ->).
    assert (o' = o) as -> by congruence.
    split; [| done]. apply (le_Nodes _ _ Hlej). simpl. apply elem_of_addNode. }
  assert (world_le w w') as Hle by (by etrans).
  exists n, {| store := st'; graph := g' |}, w'.
  split; [done |]. split; [done |]. simpl. split.
  - intros c [->|[Hc|(p & o & Hp & Ho & Hcond & ->)]]%HN.
    + pose proof (wp_Ret _ _ _ _ _ _
                    (extends_getAllObjects ParseGroupVersion cluster mapRange wn) Hharvest)
        as Hlen.
      simpl in Hlen. apply (le_Nodes wn w'); [by transitivity w1 |].
      apply elem_of_addNode.
    + by apply (le_Nodes _ _ Hle).
    + by apply (Hmatched p o).
  - intros r [Hr|(p & o & Hp & Ho & Hcond & ->)]%HR.
    + by apply (le_Relationships _ _ Hle).
    + by apply (Hmatched p o).
Qed.

End Revisions.

(** * The engine on the small cluster *)

Module Run.
Import Scenario.

Abbreviation Application_ c fuel :=
  (Application parse c values elements (engine c fuel)).
Abbreviation ApplicationRun_ c fuel :=
  (ApplicationRun parse c values elements (engine c fuel)).
Abbreviation ApplicationSet_ c fuel :=
  (ApplicationSet c values (engine c fuel)).

Lemma values_perm (m : gmap string (list nat)) : values m ≡ₚ (map_to_list m).*2.
Proof. done. Qed.

Lemma elements_perm (X : gset nat) : elements X ≡ₚ elements X.
Proof. done. Qed.

Lemma engine_extends c fuel p : extends (engine c fuel p).
Proof. apply resolve_extends. Qed.

Lemma concatenation_cluster : concatenation parse cluster catalog = contents.
Proof. vm_compute. reflexivity. Qed.

Lemma leaf_universe o : o ∈ concatenation parse cluster catalog → leaf o.
Proof.
  rewrite concatenation_cluster. intros Ho.
  repeat (apply elem_of_cons in Ho as [->|Ho]; [by split |]).
  by apply elem_of_nil in Ho.
Qed.

Ltac run := vm_compute; reflexivity.
Ltac decided := apply (bool_decide_unpack _); vm_compute; exact I.

(** The resolution of [app1] returns; its phases are the evaluated ones. *)
Lemma app1_run :
  ApplicationRun_ cluster 1 0 world0 node1 resolved1
                  app1 universe harvested direct namespaces children.
Proof. exists "proj1", created, tracked1. repeat (split; [run |]). run. Qed.

(** The scenario of the specification: the project, the labelled
    ConfigMap and, by the namespace closure, the bare Secret. *)
Example app1_edges :
  Application_ cluster 1 0 world0 = Ret node1 resolved1 ∧
  edge node1 "AppProject" (nodeOf (GroupVersionKindOf proj1) proj1)
    ∈ Relationships (graph resolved1) ∧
  edge node1 "ConfigMap" (nodeOf (GroupVersionKindOf cm1) cm1)
    ∈ Relationships (graph resolved1) ∧
  edge node1 "Secret" (nodeOf (GroupVersionKindOf sec1) sec1)
    ∈ Relationships (graph resolved1) ∧
  edge node1 "Service" (nodeOf (GroupVersionKindOf svc1) svc1)
    ∈ Relationships (graph resolved1).
Proof. split; [run |]. repeat split; decided. Qed.

(** The scenario of the specification for ApplicationSets: the owned
    Application is a child, the merely labelled one is not. *)
Example set1_edges :
  ApplicationSet_ cluster 2 2 world0 = Ret node2 resolved2 ∧
  edge node2 "Application" (nodeOf (GroupVersionKindOf child1) child1)
    ∈ Relationships (graph resolved2) ∧
  edge node2 "Application" (nodeOf (GroupVersionKindOf child2) child2)
    ∉ Relationships (graph resolved2).
Proof. split; [run |]. split; decided. Qed.

(** ** The claims at the small cluster *)



(** The closure is over namespaces, and cluster-scoped objects have
    none: [cr1] is matched by its instance label and [pv1] is
    cluster-scoped like it, but [pv1] is not a child and no edge leads to
    it. *)
Example cluster_scoped_outside_closure :
  ApplicationRun_ cluster 1 0 world0 node1 resolved1
                  app1 universe harvested direct namespaces children ∧
  6 ∈ universe ∧ store harvested !! 6 = Some pv1 ∧
  7 ∈ universe ∧ store harvested !! 7 = Some cr1 ∧
  tracked (GetName app1) cr1 ∧
  GetNamespace pv1 = GetNamespace cr1 ∧
  (6 ∉ children) ∧
  (∀ c, edge node1 (GetKind pv1) c ∉ Relationships (graph resolved1)).
Proof.
  split; [exact app1_run |].
  split; [decided |]. split; [run |]. split; [decided |]. split; [run |].
  split; [vm_compute; exact I |]. split; [run |]. split; [decided |].
  intros c Hin. apply list_elem_of_In in Hin.
  cbv [resolved1 graph Relationships In] in Hin.
  repeat (destruct Hin as [Hin|Hin]; [discriminate Hin |]). done.
Qed.



Lemma Application_namespaces_nonempty_witness :
  (∀ n0 app0 projName objs acc w0 r w0',
     trackChildren (engine cluster 1) n0 app0 projName objs acc w0 = Ret r w0' →
     "" ∉ snd acc → "" ∉ snd r) ∧
  ∃ a objs w1 direct namespaces children,
    ApplicationRun_ cluster 1 0 world0 node1 resolved1
                    a objs w1 direct namespaces children ∧
    ("" ∉ namespaces) ∧
    (∀ p o, p ∈ children → p ∉ direct → store w1 !! p = Some o →
            GetNamespace o ≠ "").
Proof.
  apply (Application_namespaces_nonempty parse cluster values elements (engine cluster 1));
    [apply engine_extends | apply elements_perm | apply values_perm | run].
Defined.


Lemma list_failure_absorbed_or_returned_witness :
  (∀ cluster',
     ServerPreferredResources cluster' = ServerPreferredResources noApplications →
     (∀ gvr, listed cluster' gvr = listed noApplications gvr) →
     (∀ w, getAllObjects parse cluster' values w
           = getAllObjects parse noApplications values w) ∧
     (∀ app w,
        Application parse cluster' values elements (engine noApplications 2) app w
        = Application_ noApplications 2 app w)) ∧
  (∀ apiResources w,
     ServerPreferredResources noApplications = (apiResources, None) →
     ∃ objs w',
       getAllObjects parse noApplications values w = Ret (objs, None) w' ∧
       (λ p, store w' !! p) <$> objs
       ≡ₚ Some <$> concatenation parse noApplications apiResources) ∧
  (∀ e appset w,
     List noApplications applicationsGVR = inr e →
     ApplicationSet noApplications values (engine noApplications 2) appset w
     = Raise None e w).
Proof. apply list_failure_absorbed_or_returned, values_perm. Defined.

(** C4 as stated fails for an ApplicationSet root: when the Applications
    cannot be listed, the error of the list call is what the resolution
    returns. *)
Lemma ApplicationSet_returns_list_failure :
  List noApplications applicationsGVR = inr notFound ∧
  store world0 !! 2 = Some set1 ∧
  ApplicationSet_ noApplications 2 2 world0 = Raise None notFound world0 ∧
  engine noApplications 3 2 world0 = Raise None notFound world0.
Proof. repeat split; run. Qed.

Lemma Application_malformed_spec_witness :
  Application_ cluster 1 1 world0 = Panic.
Proof. apply (Application_malformed_spec _ _ _ _ _ 1 world0 bad); run. Defined.

(** C5 as stated fails: the resolution of an Application whose
    [spec.project] is a number returns no error, it panics. *)
Lemma malformed_spec_panics :
  store world0 !! 1 = Some bad ∧ spec_project bad = None ∧
  Application_ cluster 1 1 world0 = Panic ∧
  engine cluster 2 1 world0 = Panic ∧
  ∀ n e w', Application_ cluster 1 1 world0 ≠ Raise n e w'.
Proof.
  repeat (split; [run |]). intros n e w' H.
  assert (Application_ cluster 1 1 world0 = Panic) as Hp by run.
  rewrite Hp in H. discriminate H.
Qed.

(** The ApplicationSet of the cluster with the failing child cannot be
    resolved, in whatever world that extends the harvest. *)
Lemma failingChild_set2 wi :
  world_le harvested1 wi → engine failingChild 2 3 wi = Raise None notFound wi.
Proof.
  intros Hle.
  assert (store wi !! 3 = Some set2) as Hset by (by apply (world_le_lookup _ _ _ _ Hle)).
  change (engine failingChild 2 3 wi)
    with (Unstructured_ parse failingChild values elements (engine failingChild 1) 3 wi).
  unfold Unstructured_.
  erewrite bind_eq; [| by apply deref_eq].
  rewrite decide_True by done.
  unfold ApplicationSet, bind. by rewrite (getChildApplications_run _ _ values_perm).
Qed.

(** The failures at the small cluster: the discovery that fails, and the
    child [set2] whose resolution fails. *)
Lemma Application_failure_witness :
  Application_ noDiscovery 1 0 world0 = Raise None "discovery failed" created ∧
  (Some node1 = Some node1 ∧
   ∃ objs w1 p x wi,
     getAllObjects parse failingChild values created = Ret (objs, None) w1 ∧
     p ∈ objs ∧ world_le w1 wi ∧
     engine failingChild 2 p wi = Raise x notFound failed1) ∧
  (∀ n' w', Application_ failingChild 2 0 world0 ≠ Ret n' w') ∧
  addChildren (engine failingChild 2) node1 ([] ++ [3]) harvested1
  = Raise (Some node1) notFound failed1.
Proof.
  destruct (Application_failure parse noDiscovery values elements (engine noDiscovery 1)
              (engine_extends noDiscovery 1) elements_perm values_perm
              0 world0 app1 "proj1" ltac:(run) ltac:(run)) as (Hharvest & _).
  destruct (Application_failure parse failingChild values elements (engine failingChild 2)
              (engine_extends failingChild 2) elements_perm values_perm
              0 world0 app1 "proj1" ltac:(run) ltac:(run))
    as (_ & Hchild & Hnever & Hstop).
  split; [apply (Hharvest [] "discovery failed"); run |].
  split; [apply (Hchild _ (Some node1) notFound failed1 eq_refl); run |].
  split.
  - apply (Hnever universe1 harvested1 3 set2); [run | decided | run | vm_compute; exact I |].
    intros wi c wj Hle Hc. by rewrite (failingChild_set2 wi Hle) in Hc.
  - apply (Hstop [] 3 [] harvested1 harvested1 None notFound failed1); [run |].
    apply (failingChild_set2 harvested1). reflexivity.
Defined.

(** C6 as stated fails when the harvest fails: the node of the
    Application has been created, but the error is returned without it. *)
Lemma harvest_failure_returns_no_node :
  getAllObjects parse noDiscovery values created
  = Ret ([], Some "discovery failed") created ∧
  node1 ∈ Nodes (graph created) ∧
  Application_ noDiscovery 1 0 world0 = Raise None "discovery failed" created.
Proof. split; [run |]. split; [decided | run]. Qed.

(** A child that fails: the ApplicationSet tracked by [app1] cannot list
    its Applications, and [app1] returns that error with its own node. *)
Example child_failure_returns_node :
  ∃ w', Application_ failingChild 2 0 world0 = Raise (Some node1) notFound w'.
Proof. eexists. run. Qed.

Lemma getAllObjects_concatenation_witness :
  ∃ objs w',
    getAllObjects parse cluster values world0 = Ret (objs, None) w' ∧
    NoDup objs ∧
    (λ p, store w' !! p) <$> objs ≡ₚ Some <$> concatenation parse cluster catalog ∧
    (∀ apiResource api items o,
       apiResource ∈ catalog → api ∈ APIResources apiResource →
       api_Kind api ≠ "Event" →
       List cluster (WithResource (parse (GroupVersion apiResource)) (api_Name api))
         = inl items →
       o ∈ items →
       ∃ p, p ∈ objs ∧ store w' !! p = Some o).
Proof. apply getAllObjects_concatenation; [apply values_perm | reflexivity]. Defined.

(** ** Further properties at the small cluster *)

Lemma getChildApplications_order_witness :
  ∃ objs w',
    getChildApplications cluster values world0 = Ret (objs, None) w' ∧
    graph w' = graph world0 ∧ store w' = store world0 ++ [child1; child2] ∧
    (λ p, store w' !! p) <$> objs = Some <$> [child1; child2] ∧
    NoDup objs ∧ ∀ p, p ∈ objs → store world0 !! p = None.
Proof. exact (getChildApplications_order cluster values values_perm world0). Defined.

Lemma getAllObjects_group_order_witness :
  ∃ blocks w',
    getAllObjects parse cluster values world0 = Ret (mjoin blocks, None) w' ∧
    Forall2 (λ block apiResource,
               (λ p, store w' !! p) <$> block
               ≡ₚ Some <$> mjoin ((λ name,
                                     listed cluster
                                       (WithResource (parse (GroupVersion apiResource)) name))
                                   <$> harvestedNames apiResource))
            blocks catalog.
Proof. apply getAllObjects_group_order; [apply values_perm | reflexivity]. Defined.

Lemma getAllObjects_no_cache_witness :
  ∃ objs1 w1 objs2 w2,
    getAllObjects parse cluster values world0 = Ret (objs1, None) w1 ∧
    getAllObjects parse cluster values w1 = Ret (objs2, None) w2 ∧
    (∀ p, p ∈ objs1 → store world0 !! p = None) ∧
    (∀ p, p ∈ objs1 → p ∉ objs2) ∧
    (λ p, store w2 !! p) <$> objs1 ≡ₚ (λ p, store w2 !! p) <$> objs2 ∧
    graph w2 = graph world0.
Proof.
  apply (getAllObjects_no_cache parse cluster values values_perm catalog world0).
  reflexivity.
Defined.

Lemma Application_edges_only_witness :
  ∃ a projName objs w1 direct namespaces children,
    ApplicationRun_ cluster 1 0 world0 node1 resolved1
                    a objs w1 direct namespaces children ∧
    spec_project a = Some projName ∧
    node1 ∈ Nodes (graph resolved1) ∧
    (∀ r, r ∈ Relationships (graph resolved1) →
       r ∈ Relationships (graph world0) ∨
       ∃ p o, p ∈ objs ∧ store w1 !! p = Some o ∧
              (isProject projName o ∨ tracked (GetName a) o ∨
               GetNamespace o ∈ namespaces) ∧
              ((∃ c, r = edge node1 (GetKind o) c ∧
                     resolved (engine cluster 1) w1 resolved1 p o c) ∨
               addedBy (engine cluster 1) w1 resolved1 p o r)) ∧
    (∀ g' : ptr → M Node,
       (∀ p o wi, p ∈ objs → world_le w1 wi → store wi !! p = Some o →
                  isProject projName o ∨ tracked (GetName a) o ∨
                  GetNamespace o ∈ namespaces →
                  g' p wi = engine cluster 1 p wi) →
       Application parse cluster values elements g' 0 world0 = Ret node1 resolved1).
Proof.
  apply Application_edges_only;
    [apply engine_extends | apply elements_perm | apply values_perm | run].
Defined.

(** No object of the small cluster is tracked by [root] or is its
    project: [root] resolves to its node even with a dispatcher that never
    returns. *)
Lemma Application_untracked_witness :
  let n := nodeOf (GroupVersionKindOf root) root in
  ∃ objs st',
    getAllObjects parse cluster values
      {| store := store world1; graph := addNode n (graph world1) |}
    = Ret (objs, None) {| store := st'; graph := addNode n (graph world1) |} ∧
    Application_ cluster 0 0 world1
    = Ret n {| store := st'; graph := addNode n (graph world1) |}.
Proof.
  apply (Application_untracked parse cluster values elements (engine cluster 0)
           elements_perm values_perm 0 world1 root "default" catalog);
    [run | run | run |].
  rewrite concatenation_cluster. intros o Ho.
  repeat (apply elem_of_cons in Ho as [->|Ho]; [split; run |]).
  by apply elem_of_nil in Ho.
Defined.

Lemma ApplicationSet_failure_witness :
  @None Node = None ∧
  ((List noDiscovery applicationsGVR = inr "discovery failed" ∧ failed2 = world0) ∨
   ∃ items p o x wi,
     List noDiscovery applicationsGVR = inl items ∧
     nodeOf (GroupVersionKindOf set1) set1 ∈ Nodes (graph failed2) ∧
     (store world0 ++ items) !! p = Some o ∧ o ∈ items ∧ owned set1 o ∧
     engine noDiscovery 1 p wi = Raise x "discovery failed" failed2).
Proof.
  apply (ApplicationSet_failure noDiscovery values (engine noDiscovery 1)
           (engine_extends noDiscovery 1) values_perm 2 world0 set1);
    run.
Defined.

Lemma ApplicationSet_unowned_witness :
  let n := nodeOf (GroupVersionKindOf set1) set1 in
  ApplicationSet_ labelledOnly 0 2 world0
  = Ret n {| store := store world0 ++ [child2]; graph := addNode n (graph world0) |}.
Proof.
  apply (ApplicationSet_unowned labelledOnly values (engine labelledOnly 0) values_perm
           2 world0 set1 [child2]); [run | run |].
  intros o ->%list_elem_of_singleton (ownerRef & Href & _).
  simpl in Href. by apply elem_of_nil in Href.
Defined.

Lemma Unstructured_other_witness :
  let n := nodeOf (GroupVersionKindOf cm1) cm1 in
  let w' := {| store := store harvested; graph := addNode n (graph harvested) |} in
  Unstructured_ parse noDiscovery values elements (engine noDiscovery 0) 3 harvested
  = Ret n w' ∧
  Relationships (graph w') = Relationships (graph harvested) ∧
  n ∈ Nodes (graph w') ∧
  Unstructured_ parse noDiscovery values elements (engine noDiscovery 0) 3 w' = Ret n w'.
Proof.
  apply (Unstructured_other parse noDiscovery values elements (engine noDiscovery 0)
           3 harvested cm1); [run | done | done].
Defined.

(** The Event of [withEvents] carries the instance label of [app1], but
    its resource type is never listed: the universe and the resolution
    are those of the cluster without it. *)
Lemma getAllObjects_frame_witness :
  (∀ w, getAllObjects parse withEvents values w = getAllObjects parse cluster values w) ∧
  (∀ app w, Application_ withEvents 1 app w
            = Application parse cluster values elements (engine withEvents 1) app w).
Proof.
  apply getAllObjects_frame; [reflexivity |].
  intros apiResource api Hgroup Hapi Hkind.
  apply list_elem_of_In in Hgroup. simpl in Hgroup.
  repeat (destruct Hgroup as [<-|Hgroup];
          [apply list_elem_of_In in Hapi; simpl in Hapi;
           repeat (destruct Hapi as [<-|Hapi]; [done || reflexivity |]);
           destruct Hapi |]).
  destruct Hgroup.
Defined.

Lemma resolve_Application_witness : ∃ n w', engine cluster 2 0 world0 = Ret n w'.
Proof.
  apply (resolve_Application parse cluster values elements 0 0 world0 app1 "proj1" catalog);
    [apply elements_perm | apply values_perm | run | run | run | run |
     apply leaf_universe].
Defined.

(** [root] carries its own instance label and is listed by the cluster:
    with any amount of fuel its resolution ends without a node. *)
Lemma self_tracking_never_returns_witness :
  engine selfManaged 4 0 world1 = Diverge ∧
  ∀ n w', engine selfManaged 9 0 world1 ≠ Ret n w'.
Proof.
  split; [run |].
  apply (λ Hdisc Hin Hkind Htr,
           self_tracking_never_returns parse selfManaged values elements
             elements_perm values_perm applications root Hdisc Hin Hkind Htr
             9 0 world1 root);
    [run | | run | vm_compute; exact I | run | run | run].
  apply list_elem_of_In. vm_compute. by left.
Defined.

(** ** The other revision at the small cluster *)

(** The other revision harvests the Event that this one leaves out. *)
Lemma Part000_getAllObjects_run_witness :
  ∃ objs st',
    Part000.getAllObjects parse withEvents values world0
    = Ret (objs, None) {| store := st'; graph := graph world0 |} ∧
    store world0 `prefix_of` st' ∧
    NoDup objs ∧
    (∀ p, p ∈ objs → length (store world0) ≤ p < length st') ∧
    (λ p, st' !! p) <$> objs ≡ₚ Some <$> concatenationAll parse withEvents catalog.
Proof. exact (Part000_getAllObjects_run parse values withEvents values_perm world0). Defined.

Example Part000_harvests_events :
  ev1 ∈ concatenationAll parse withEvents catalog ∧
  ev1 ∉ concatenation parse withEvents catalog.
Proof.
  assert (concatenationAll parse withEvents catalog = cm1 :: ev1 :: tail contents) as ->
    by (vm_compute; reflexivity).
  assert (concatenation parse withEvents catalog = contents) as ->
    by (vm_compute; reflexivity).
  split; [apply elem_of_cons; right; by left |].
  intros Hin.
  repeat (apply elem_of_cons in Hin as [Heq|Hin];
          [apply (f_equal GetName) in Heq; discriminate Heq |]).
  by apply elem_of_nil in Hin.
Qed.

Lemma Part000_Application_run_witness :
  let n := nodeOf (GroupVersionKindOf app1) app1 in
  let w0 := {| store := store world0; graph := addNode n (graph world0) |} in
  ∃ objs st' g',
    Part000.getAllObjects parse cluster values w0
    = Ret (objs, None) {| store := st'; graph := graph w0 |} ∧
    Part000.Application parse cluster values 0 world0
    = Ret n {| store := st'; graph := g' |} ∧
    (∀ r, r ∈ Relationships g' ↔
          r ∈ Relationships (graph world0) ∨
          ∃ p o, p ∈ objs ∧ st' !! p = Some o ∧
                 (isProject "proj1" o ∨ tracked (GetName app1) o) ∧
                 r = edge n (GetKind o) (nodeOf (GroupVersionKindOf o) o)) ∧
    (∀ c, c ∈ Nodes g' ↔
          c = n ∨ c ∈ Nodes (graph world0) ∨
          ∃ p o, p ∈ objs ∧ st' !! p = Some o ∧
                 (isProject "proj1" o ∨ tracked (GetName app1) o) ∧
                 c = nodeOf (GroupVersionKindOf o) o).
Proof.
  apply (Part000_Application_run parse values cluster values_perm 0 world0 app1 "proj1");
    run.
Defined.

Lemma Application_extends_Part000_witness :
  ∃ n w0 w1,
    Part000.Application parse (withoutEvents cluster) values 0 world0 = Ret n w0 ∧
    Application_ cluster 1 0 world0 = Ret n w1 ∧
    Nodes (graph w0) ⊆ Nodes (graph w1) ∧
    Relationships (graph w0) ⊆ Relationships (graph w1).
Proof.
  apply (Application_extends_Part000 parse cluster values elements (engine cluster 1)
           (engine_extends cluster 1) elements_perm values_perm
           (λ p wi o, resolve_leaf_node parse cluster values elements 0 p o wi)
           0 world0 app1 "proj1" catalog);
    [run | run | run | apply leaf_universe].
Defined.

(** The edge to the bare Secret is one that this revision adds and the
    other one does not. *)
Example closure_is_new :
  edge node1 "Secret" (nodeOf (GroupVersionKindOf sec1) sec1)
    ∈ Relationships (graph resolved1) ∧
  edge node1 "Secret" (nodeOf (GroupVersionKindOf sec1) sec1)
    ∉ Relationships
        (graph (worldOf (Part000.Application parse (withoutEvents cluster) values 0 world0))).
Proof. split; decided. Qed.

Lemma Part000_Unstructured_returns_witness :
  let n := nodeOf (GroupVersionKindOf app1) app1 in
  ∃ w',
    Part000.Unstructured_ parse cluster values 0 world0 = Ret n w' ∧
    world_le world0 w' ∧
    (GetKind app1 ≠ "Application" →
     w' = {| store := store world0; graph := addNode n (graph world0) |}).
Proof.
  apply (Part000_Unstructured_returns parse values cluster values_perm 0 world0 app1);
    [run | run |].
  intros _. exists "proj1". run.
Defined.

(** ** Endings at the small cluster *)

Lemma Application_ending_witness :
  ∃ p wi, world_le world1 wi ∧ is_Some (store wi !! p) ∧
          endsIn (engine selfManaged 3 p wi) Diverges.
Proof.
  apply (Application_ending parse selfManaged values elements (engine selfManaged 3)
           (engine_extends selfManaged 3) elements_perm values_perm
           0 world1 root "default" Diverges); run.
Defined.

Lemma ApplicationSet_ending_witness :
  ∃ p wi, world_le world0 wi ∧ is_Some (store wi !! p) ∧
          endsIn (engine cluster 0 p wi) Diverges.
Proof.
  apply (ApplicationSet_ending cluster values (engine cluster 0)
           (engine_extends cluster 0) values_perm 2 world0 set1 Diverges); run.
Defined.

(** ** The closed engine at the small cluster *)

Lemma resolve_Application_edges_witness :
  ∃ a projName objs w1 direct namespaces children,
    ApplicationRun_ cluster 1 0 world0 node1 resolved1
                    a objs w1 direct namespaces children ∧
    spec_project a = Some projName ∧
    node1 = nodeOf (GroupVersionKindOf a) a ∧
    ∀ p o, p ∈ objs → store w1 !! p = Some o →
           isProject projName o ∨ tracked (GetName a) o ∨ GetNamespace o ∈ namespaces →
           nodeOf (GroupVersionKindOf o) o ∈ Nodes (graph resolved1) ∧
           edge node1 (GetKind o) (nodeOf (GroupVersionKindOf o) o)
             ∈ Relationships (graph resolved1).
Proof.
  apply (resolve_Application_edges parse cluster values elements elements_perm values_perm
           1 0 world0).
  run.
Defined.

Lemma resolve_ApplicationSet_edges_witness :
  ∃ s items,
    List cluster applicationsGVR = inl items ∧
    (store world0 ++ items) !! 2 = Some s ∧
    node2 = nodeOf (GroupVersionKindOf s) s ∧
    ∀ o, o ∈ items → owned s o →
         nodeOf (GroupVersionKindOf o) o ∈ Nodes (graph resolved2) ∧
         edge node2 (GetKind o) (nodeOf (GroupVersionKindOf o) o)
           ∈ Relationships (graph resolved2).
Proof.
  apply (resolve_ApplicationSet_edges parse cluster values elements values_perm 2 2 world0).
  run.
Defined.

End Run.
